(** * Multi-Model Derivatives Pricing Simulator: pricing core

    A shallow embedding of the four pricing functions of the dashboard
    ([black_scholes], [binomial_tree], [lsm_american_option_price],
    [black_scholes_price] / [implied_volatility]) and the properties the
    design document states about them.

    Python floats are idealised as real numbers: rounding, overflow,
    infinities and NaN are outside the model.  Python exceptions are
    explicit: every function returns a [result]. *)

From Stdlib Require Import Reals Lra Lia ZArith List String Bool.
From Stdlib Require Import Arith.Factorial Ranalysis5.
Import ListNotations.

#[local] Open Scope R_scope.

(** ** Exceptions and the error monad *)

Inductive exn : Type :=
| ZeroDivisionError
| ValueError (msg : string)
| IndexError
| RuntimeError (msg : string).

Inductive result (A : Type) : Type :=
| Ok (a : A)
| Raise (e : exn).

Arguments Ok {A} a.
Arguments Raise {A} e.

Definition bind {A B : Type} (c : result A) (k : A -> result B) : result B :=
  match c with
  | Ok a => k a
  | Raise e => Raise e
  end.

Notation "x <- c ;; k" := (bind c (fun x => k))
  (at level 61, c at next level, right associativity).

Definition raises {A : Type} (c : result A) : Prop := exists e, c = Raise e.

Definition returns {A : Type} (c : result A) : Prop := exists a, c = Ok a.

(** The messages the program and its runtime attach to a [ValueError]. *)

Definition math_domain_error : string := "math domain error".
Definition invalid_option_type : string := "option_type must be 'call' or 'put'".
Definition negative_dimensions : string := "negative dimensions are not allowed".
Definition sign_error : string := "f(a) and f(b) must have different signs".

(** ** The arithmetic of the Python runtime *)

(** [a / b] on floats and ints: a zero divisor raises. *)
Definition py_div (a b : R) : result R :=
  if Req_EM_T b 0 then Raise ZeroDivisionError else Ok (a / b).

(** [math.log]: defined on positive arguments only. *)
Definition math_log (x : R) : result R :=
  if Rle_dec x 0 then Raise (ValueError math_domain_error) else Ok (ln x).

(** [math.sqrt]: a negative argument raises. *)
Definition math_sqrt (x : R) : result R :=
  if Rlt_dec x 0 then Raise (ValueError math_domain_error) else Ok (sqrt x).

(** [math.exp] (no overflow over the reals). *)
Definition math_exp (x : R) : R := exp x.

(** ** The standard normal distribution function ([scipy.stats.norm.cdf])

    [Phi x = 1/2 + (1/sqrt(2 pi)) * sum_n (-1)^n x^(2n+1) / (2^n n! (2n+1))],
    the Maclaurin expansion of the integral of the Gaussian density.  The
    series converges everywhere (d'Alembert); [Phi_at_0] and
    [derivable_pt_lim_Phi] below show that [Phi] is the antiderivative of
    [exp (- x^2 / 2) / sqrt (2 pi)] with value 1/2 at 0. *)

Definition Phi_n (n : nat) : R :=
  (-1) ^ n / (2 ^ n * INR (fact n) * INR (2 * n + 1)).

Definition Phi_term (n : nat) (y : R) : R := Phi_n n * y ^ n.

Lemma Phi_n_den_pos n : 0 < 2 ^ n * INR (fact n) * INR (2 * n + 1).
Proof.
  apply Rmult_lt_0_compat; [apply Rmult_lt_0_compat|].
  - apply pow_lt; lra.
  - apply INR_fact_lt_0.
  - apply lt_0_INR; lia.
Qed.

Lemma Phi_n_neq_0 n : Phi_n n <> 0.
Proof.
  unfold Phi_n, Rdiv. apply Rmult_integral_contrapositive_currified.
  - apply pow_nonzero; lra.
  - apply Rinv_neq_0_compat. pose proof (Phi_n_den_pos n); lra.
Qed.

Lemma Phi_n_ratio n :
  Rabs (Phi_n (S n) / Phi_n n)
  = INR (2 * n + 1) / (2 * INR (S n) * INR (2 * n + 3)).
Proof.
  assert (Hp : 0 < INR (2 * n + 1) / (2 * INR (S n) * INR (2 * n + 3))).
  { apply Rdiv_lt_0_compat; [apply lt_0_INR; lia|].
    apply Rmult_lt_0_compat;
      [apply Rmult_lt_0_compat; [lra|apply lt_0_INR; lia]|apply lt_0_INR; lia]. }
  replace (Phi_n (S n) / Phi_n n)
    with (- (INR (2 * n + 1) / (2 * INR (S n) * INR (2 * n + 3)))).
  { rewrite Rabs_Ropp. apply Rabs_right. lra. }
  unfold Phi_n.
  replace (2 * S n + 1)%nat with (2 * n + 3)%nat by lia.
  rewrite fact_simpl, mult_INR.
  pose proof (INR_fact_lt_0 n).
  assert (0 < INR (S n)) by (apply lt_0_INR; lia).
  assert (0 < INR (2 * n + 1)) by (apply lt_0_INR; lia).
  assert (0 < INR (2 * n + 3)) by (apply lt_0_INR; lia).
  assert (0 < 2 ^ n) by (apply pow_lt; lra).
  assert ((-1) ^ n <> 0) by (apply pow_nonzero; lra).
  simpl pow. field. repeat split; lra.
Qed.

Lemma Alembert_Phi : Un_cv (fun n => Rabs (Phi_n (S n) / Phi_n n)) 0.
Proof.
  intros eps Heps.
  destruct (archimed_cor1 eps Heps) as [N [HN HN0]].
  exists N. intros n Hn.
  unfold Rdist. rewrite Rminus_0_r, Rabs_Rabsolu, Phi_n_ratio.
  assert (HSn : 0 < INR (S n)) by (apply lt_0_INR; lia).
  assert (H1 : 0 < INR (2 * n + 1)) by (apply lt_0_INR; lia).
  assert (H3 : INR (2 * n + 3) = INR (2 * n + 1) + 2).
  { replace (2 * n + 3)%nat with ((2 * n + 1) + 2)%nat by lia.
    rewrite plus_INR. simpl. lra. }
  assert (HNn : / INR (S n) <= / INR N).
  { apply Rinv_le_contravar; [apply lt_0_INR; lia|apply le_INR; lia]. }
  apply Rle_lt_trans with (/ INR (S n)); [|lra].
  rewrite H3.
  apply Rmult_le_reg_r with (INR (S n)); [lra|].
  rewrite Rinv_l by lra.
  unfold Rdiv.
  replace (INR (2 * n + 1) * / (2 * INR (S n) * (INR (2 * n + 1) + 2)) * INR (S n))
    with (INR (2 * n + 1) / (2 * (INR (2 * n + 1) + 2))) by (field; lra).
  apply Rmult_le_reg_r with (2 * (INR (2 * n + 1) + 2)); [lra|].
  unfold Rdiv. rewrite Rmult_assoc, Rinv_l by lra. lra.
Qed.

Lemma Phi_term_cv (y : R) : { l : R | Un_cv (fun N => SP Phi_term N y) l }.
Proof. exact (Alembert_C3 Phi_n y Phi_n_neq_0 Alembert_Phi). Defined.

Definition Phi_series (y : R) : R := SFL Phi_term Phi_term_cv y.

Definition Phi (x : R) : R := 1 / 2 + x * Phi_series (x * x) / sqrt (2 * PI).

Definition norm_cdf (x : R) : R := Phi x.

(** ** Page 1: the analytic pricer *)

Definition black_scholes (S K T r sigma : R) (option_type : string) : result R :=
  q <- py_div S K ;;
  l <- math_log q ;;
  sT <- math_sqrt T ;;
  d1 <- py_div (l + (r + 0.5 * sigma ^ 2) * T) (sigma * sT) ;;
  sT' <- math_sqrt T ;;
  let d2 := d1 - sigma * sT' in
  if String.eqb option_type "call" then
    Ok (S * norm_cdf d1 - K * math_exp (- r * T) * norm_cdf d2)
  else if String.eqb option_type "put" then
    Ok (K * math_exp (- r * T) * norm_cdf (- d2) - S * norm_cdf (- d1))
  else
    Raise (ValueError invalid_option_type).

(** ** Page 4: the copy of the formula used by the implied-volatility page *)

Definition black_scholes_price (S K T r sigma : R) (option_type : string)
  : result R :=
  q <- py_div S K ;;
  l <- math_log q ;;
  sT <- math_sqrt T ;;
  d1 <- py_div (l + (r + 0.5 * sigma ^ 2) * T) (sigma * sT) ;;
  sT' <- math_sqrt T ;;
  let d2 := d1 - sigma * sT' in
  if String.eqb option_type "call" then
    Ok (S * norm_cdf d1 - K * math_exp (- r * T) * norm_cdf d2)
  else
    Ok (K * math_exp (- r * T) * norm_cdf (- d2) - S * norm_cdf (- d1)).

(** ** The closed form as the design document writes it *)

Definition d1_spec (S K T r sigma : R) : R :=
  (ln (S / K) + (r + 0.5 * sigma ^ 2) * T) / (sigma * sqrt T).

Definition d2_spec (S K T r sigma : R) : R :=
  d1_spec S K T r sigma - sigma * sqrt T.

Definition call_spec (S K T r sigma : R) : R :=
  S * Phi (d1_spec S K T r sigma)
  - K * exp (- (r * T)) * Phi (d2_spec S K T r sigma).

Definition put_spec (S K T r sigma : R) : R :=
  K * exp (- (r * T)) * Phi (- d2_spec S K T r sigma)
  - S * Phi (- d1_spec S K T r sigma).

(** ** Arrays

    A one-dimensional numpy array is a list, a two-dimensional one a list of
    rows.  Reading or writing outside the array raises [IndexError]. *)

Definition grid : Type := list (list R).

Definition np_zeros (n : nat) : list R := repeat 0 n.

Definition np_zeros2 (rows cols : nat) : grid := repeat (np_zeros cols) rows.

Fixpoint list_set {A : Type} (l : list A) (i : nat) (v : A) : option (list A) :=
  match l, i with
  | [], _ => None
  | _ :: tl, O => Some (v :: tl)
  | x :: tl, Datatypes.S i' =>
      match list_set tl i' v with
      | Some tl' => Some (x :: tl')
      | None => None
      end
  end.

Definition grid_get (g : grid) (i j : nat) : result R :=
  match nth_error g i with
  | Some row =>
      match nth_error row j with
      | Some v => Ok v
      | None => Raise IndexError
      end
  | None => Raise IndexError
  end.

Definition grid_set (g : grid) (i j : nat) (v : R) : result grid :=
  match nth_error g i with
  | Some row =>
      match list_set row j v with
      | Some row' =>
          match list_set g i row' with
          | Some g' => Ok g'
          | None => Raise IndexError
          end
      | None => Raise IndexError
      end
  | None => Raise IndexError
  end.

(** [for x in xs: body], threading the mutated state and stopping at the
    first exception. *)
Fixpoint for_each {A St : Type} (xs : list A) (body : A -> St -> result St)
  (s : St) : result St :=
  match xs with
  | [] => Ok s
  | x :: tl => s' <- body x s ;; for_each tl body s'
  end.

(** [range(n)] and [range(n - 1, -1, -1)]. *)
Definition range (n : nat) : list nat := seq 0 n.

Fixpoint range_down (n : nat) : list nat :=
  match n with
  | O => []
  | Datatypes.S k => k :: range_down k
  end.

(** ** Page 3: the lattice pricer *)

(** Python's [max(x, 0)] on the payoff, by option type; every string other
    than ["call"] takes the [else] branch. *)
Definition lattice_payoff (option_type : string) (K ST : R) : R :=
  if String.eqb option_type "call" then Rmax (ST - K) 0 else Rmax (K - ST) 0.

(** The first loop, [for j in range(N + 1)], with [n] for [N] and [m] for
    [N + 1]: the terminal row. *)
Definition terminal_row (S K u d : R) (n m : nat) (option_type : string)
  (option : grid) : result grid :=
  for_each (range m)
    (fun j option =>
       let ST := S * u ^ (n - j) * d ^ j in
       grid_set option n j (lattice_payoff option_type K ST))
    option.

(** The body of the double loop: one interior node. *)
Definition lattice_node (r dt p : R) (i j : nat) (option : grid) : result grid :=
  up <- grid_get option (i + 1) j ;;
  down <- grid_get option (i + 1) (j + 1) ;;
  grid_set option i j (math_exp (- r * dt) * (p * up + (1 - p) * down)).

Definition backward_induction (r dt p : R) (n : nat) (option : grid)
  : result grid :=
  for_each (range_down n)
    (fun i option => for_each (range (i + 1)) (lattice_node r dt p i) option)
    option.

(** The grid as it stands when the function reaches its [return]. *)
Definition binomial_grid (S K T r sigma : R) (N : Z) (option_type : string)
  : result grid :=
  dt <- py_div T (IZR N) ;;
  sdt <- math_sqrt dt ;;
  let u := math_exp (sigma * sdt) in
  d <- py_div 1 u ;;
  p <- py_div (math_exp (r * dt) - d) (u - d) ;;
  if (N + 1 <? 0)%Z then Raise (ValueError negative_dimensions) else
  let n := Z.to_nat N in
  let m := Z.to_nat (N + 1) in
  let option := np_zeros2 m m in
  option <- terminal_row S K u d n m option_type option ;;
  backward_induction r dt p n option.

Definition binomial_tree (S K T r sigma : R) (N : Z) (option_type : string)
  : result R :=
  option <- binomial_grid S K T r sigma N option_type ;;
  grid_get option 0 0.

(** The Cox-Ross-Rubinstein parameters as the design document defines
    them. *)
Definition crr_u (T sigma : R) (N : Z) : R := exp (sigma * sqrt (T / IZR N)).

Definition crr_d (T sigma : R) (N : Z) : R := 1 / crr_u T sigma N.

Definition crr_p (T r sigma : R) (N : Z) : R :=
  (exp (r * (T / IZR N)) - crr_d T sigma N) / (crr_u T sigma N - crr_d T sigma N).

(** The value of the node [k] steps before maturity with [j] down moves:
    the payoff at maturity, the discounted risk-neutral expectation of the
    two children before it. *)
Fixpoint lattice_value (S K u d r dt p : R) (n : nat) (option_type : string)
  (k j : nat) : R :=
  match k with
  | O => lattice_payoff option_type K (S * u ^ (n - j) * d ^ j)
  | Datatypes.S k' =>
      exp (- r * dt)
      * (p * lattice_value S K u d r dt p n option_type k' j
         + (1 - p) * lattice_value S K u d r dt p n option_type k' (j + 1))
  end.

(** ** Page 2: the regression Monte Carlo pricer *)

Definition Rltb (x y : R) : bool := if Rlt_dec x y then true else false.

(** [np.mean]: the sum over the length.  (On an empty array numpy warns and
    yields NaN; it raises nothing.) *)
Definition np_sum (v : list R) : R := fold_right Rplus 0 v.

Definition np_mean (v : list R) : R := np_sum v / INR (List.length v).

(** Elementwise product of two arrays of one length. *)
Fixpoint zip_with {A B C : Type} (f : A -> B -> C) (xs : list A) (ys : list B)
  : list C :=
  match xs, ys with
  | x :: xs', y :: ys' => f x y :: zip_with f xs' ys'
  | _, _ => []
  end.

(** [v[i] = x] for an index inside the array. *)
Fixpoint list_upd (v : list R) (i : nat) (x : R) : list R :=
  match v, i with
  | [], _ => []
  | _ :: tl, O => x :: tl
  | y :: tl, Datatypes.S i' => y :: list_upd tl i' x
  end.

(** [v[idx] = vals]: fancy-index assignment. *)
Definition scatter (v : list R) (idx : list nat) (vals : list R) : list R :=
  fold_left (fun acc iv => list_upd acc (fst iv) (snd iv)) (combine idx vals) v.

(** [a[mask]] for a boolean mask. *)
Definition select {A : Type} (a : list A) (mask : list bool) : list A :=
  map fst (filter snd (combine a mask)).

Section MonteCarlo.

(** The random source: [rng t i] is component [i] of the vector that the
    [t]-th call of [np.random.standard_normal] returns. *)
Variable rng : nat -> nat -> R.

(** [np.linalg.lstsq(A, Y, rcond=None)[0]] for a three-column [A]: the
    three coefficients.  No property of the fit is assumed. *)
Variable lstsq : list (R * R * R) -> list R -> R * R * R.

Definition standard_normal (t m : nat) : list R := map (rng t) (seq 0 m).

(** [paths[:, t]]: column 0 is the spot, column [t] is column [t - 1]
    times the exponential of the step's increment.  ([np.sqrt] of a
    negative [dt] is NaN, outside this model.) *)
Fixpoint path_column (S0 r sigma dt : R) (m t : nat) : list R :=
  match t with
  | O => repeat S0 m
  | Datatypes.S t' =>
      let z := standard_normal t m in
      zip_with Rmult (path_column S0 r sigma dt m t')
        (map (fun zi => exp ((r - 0.5 * sigma ^ 2) * dt + sigma * sqrt dt * zi)) z)
  end.

(** The terminal cashflows. *)
Definition terminal_cashflow (option_type : string) (K : R) (last : list R)
  : list R :=
  if String.eqb option_type "call" then map (fun s => Rmax (s - K) 0) last
  else map (fun s => Rmax (K - s) 0) last.

(** The part of the loop body after the [call] test. *)
Definition put_step (K discount : R) (m : nat) (col payoff : list R) : list R :=
  let itm := filter (fun i => Rltb (nth i col 0) K) (seq 0 m) in
  if Nat.eqb (List.length itm) 0 then payoff else
  let X := map (fun i => nth i col 0) itm in
  let Y := map (fun i => nth i payoff 0 * discount) itm in
  let A := map (fun x => (1, x, x ^ 2)) X in
  let coeffs := lstsq A Y in
  let continuation_value :=
    map (fun x => fst (fst coeffs) + snd (fst coeffs) * x + snd coeffs * x ^ 2) X in
  let exercise_value := map (fun x => Rmax (K - x) 0) X in
  let exercise := zip_with (fun e c => Rltb c e) exercise_value continuation_value in
  let payoff1 := scatter payoff (select itm exercise) (select exercise_value exercise) in
  map (fun ip =>
         if existsb (Nat.eqb (fst ip)) (select itm exercise) then snd ip
         else snd ip * discount)
      (combine (seq 0 m) payoff1).

(** One iteration of the backward loop at time [t]. *)
Definition backward_step (S0 K r sigma dt discount : R) (option_type : string)
  (m t : nat) (payoff : list R) : list R :=
  if String.eqb option_type "call" then map (fun c => c * discount) payoff
  else put_step K discount m (path_column S0 r sigma dt m t) payoff.

(** [for t in range(steps - 1, 0, -1)]. *)
Definition backward_pass (S0 K r sigma dt discount : R) (option_type : string)
  (m n : nat) (payoff : list R) : list R :=
  fold_left (fun payoff t => backward_step S0 K r sigma dt discount option_type m t payoff)
    (rev (seq 1 (n - 1))) payoff.

Definition lsm_american_option_price (S0 K T r sigma : R) (option_type : string)
  (simulations steps : Z) : result R :=
  dt <- py_div T (IZR steps) ;;
  let discount := math_exp (- r * dt) in
  if (simulations <? 0)%Z then Raise (ValueError negative_dimensions) else
  if (steps + 1 <? 0)%Z then Raise (ValueError negative_dimensions) else
  if (steps + 1 =? 0)%Z then Raise IndexError else
  let m := Z.to_nat simulations in
  let n := Z.to_nat steps in
  let payoff := terminal_cashflow option_type K (path_column S0 r sigma dt m n) in
  let payoff := backward_pass S0 K r sigma dt discount option_type m n payoff in
  Ok (np_mean payoff * math_exp (- r * dt)).

(** The European Monte Carlo estimate of a call over the same paths. *)
Definition european_call_mc (S0 K T r sigma : R) (simulations steps : Z) : R :=
  let m := Z.to_nat simulations in
  let n := Z.to_nat steps in
  exp (- (r * T))
  * np_mean (map (fun s => Rmax (s - K) 0)
               (path_column S0 r sigma (T / IZR steps) m n)).

End MonteCarlo.

(** ** Page 4: the implied-volatility solver *)

Section Solver.

(** [scipy.optimize.brentq(f, a, b)]: the objective may raise, and so may
    the solver. *)
Variable brentq : (R -> result R) -> R -> R -> result R.

Definition objective (S K T r market_price : R) (option_type : string)
  (sigma : R) : result R :=
  price <- black_scholes_price S K T r sigma option_type ;;
  Ok (price - market_price).

(** [try: return brentq(objective, 1e-6, 5.0)  except ValueError: return None] *)
Definition implied_volatility (S K T r market_price : R) (option_type : string)
  : result (option R) :=
  match brentq (objective S K T r market_price option_type) 1e-6 5.0 with
  | Ok root => Ok (Some root)
  | Raise (ValueError _) => Ok None
  | Raise e => Raise e
  end.

End Solver.

(** The objective as a function of the volatility alone, over the reals. *)
Definition objective_value (S K T r market_price : R) (option_type : string)
  (sigma : R) : R :=
  (if String.eqb option_type "call" then call_spec S K T r sigma
   else put_spec S K T r sigma) - market_price.

(** What the documentation of [brentq] promises, for a solver with absolute
    tolerance [xtol]: endpoints of one strict sign are refused with a
    [ValueError]; on a continuous function whose endpoint values do not have
    one strict sign the solver returns a point of the bracket within [xtol]
    of a zero of the function. *)
Record brentq_contract (brentq : (R -> result R) -> R -> R -> result R)
  (xtol : R) : Prop := {
  brentq_sign_error :
    forall (f : R -> result R) (ya yb a b : R),
      f a = Ok ya -> f b = Ok yb -> 0 < ya * yb ->
      brentq f a b = Raise (ValueError sign_error);
  brentq_root :
    forall (f : R -> result R) (g : R -> R) (a b : R),
      a < b ->
      (forall x, a <= x <= b -> f x = Ok (g x)) ->
      (forall x, a <= x <= b -> continuity_pt g x) ->
      g a * g b <= 0 ->
      exists x z, brentq f a b = Ok x /\ a <= x <= b /\
                  a <= z <= b /\ g z = 0 /\ Rabs (x - z) <= xtol
}.

(** ** Auxiliary notions for the statements *)

(** The series of the Gaussian density in [y = x^2]: [exp (- y / 2)]. *)
Definition gauss_n (n : nat) : R := (-1) ^ n / (2 ^ n * INR (fact n)).
Definition gauss_term (n : nat) (y : R) : R := gauss_n n * y ^ n.

(** The partial sums of [x * Phi_series (x^2)]. *)
Definition odd_sum (N : nat) (x : R) : R := x * SP Phi_term N (x * x).

(** Every cell of the square of side [m] can be read. *)
Definition readable (g : grid) (m : nat) : Prop :=
  forall i j, (i < m)%nat -> (j < m)%nat -> returns (grid_get g i j).

(** Rows [lo], ..., [n] of the grid hold the lattice values. *)
Definition rows_from (S K u d r dt p : R) (n : nat) (option_type : string)
  (g : grid) (lo : nat) : Prop :=
  forall i j, (lo <= i)%nat -> (i <= n)%nat -> (j <= i)%nat ->
              grid_get g i j
              = Ok (lattice_value S K u d r dt p n option_type (n - i) j).

(** The trajectories in the money at a step, and the continuation value the
    regression over them fits. *)
Definition in_the_money (K : R) (m : nat) (col : list R) : list nat :=
  filter (fun i => Rltb (nth i col 0) K) (seq 0 m).

Definition fitted_continuation (lstsq : list (R * R * R) -> list R -> R * R * R)
  (K discount : R) (m : nat) (col payoff : list R) (x : R) : R :=
  let itm := in_the_money K m col in
  let X := map (fun i => nth i col 0) itm in
  let Y := map (fun i => nth i payoff 0 * discount) itm in
  let coeffs := lstsq (map (fun x => (1, x, x ^ 2)) X) Y in
  fst (fst coeffs) + snd (fst coeffs) * x + snd coeffs * x ^ 2.

(** One trajectory, two steps: the first draw is 0, the second is -1. *)
Definition flat_then_down (t i : nat) : R := if Nat.eqb t 2 then -1 else 0.

(** The exceptions the three functions without an option-type test can
    raise. *)
Definition runtime_error (e : exn) : Prop :=
  e = ZeroDivisionError \/ e = ValueError math_domain_error
  \/ e = ValueError negative_dimensions \/ e = IndexError.

(** A solver to show that the contract of [brentq] is not empty: plain
    bisection, down to a bracket narrower than [xtol]. *)
Fixpoint bisect (f : R -> result R) (n : nat) (lo hi ylo : R) : result R :=
  match n with
  | O => Ok lo
  | Datatypes.S n' =>
      let mid := (lo + hi) / 2 in
      ymid <- f mid ;;
      if Rle_dec (ylo * ymid) 0 then bisect f n' lo mid ylo
      else bisect f n' mid hi ymid
  end.

Definition bisection_steps (xtol a b : R) : nat := Z.to_nat (up ((b - a) / xtol)).

Definition bisection (xtol : R) (f : R -> result R) (a b : R) : result R :=
  ya <- f a ;;
  yb <- f b ;;
  if Rlt_dec 0 (ya * yb) then Raise (ValueError sign_error)
  else bisect f (bisection_steps xtol a b) a b ya.

(** * Properties *)

(** ** The runtime's partial operations on their domain *)

Lemma py_div_ok (a b : R) : b <> 0 -> py_div a b = Ok (a / b).
Proof. intros Hb. unfold py_div. destruct (Req_EM_T b 0); [contradiction|reflexivity]. Qed.

Lemma py_div_zero (a : R) : py_div a 0 = Raise ZeroDivisionError.
Proof. unfold py_div. destruct (Req_EM_T 0 0); [reflexivity|contradiction]. Qed.

Lemma math_log_ok (x : R) : 0 < x -> math_log x = Ok (ln x).
Proof. intros Hx. unfold math_log. destruct (Rle_dec x 0); [lra|reflexivity]. Qed.

Lemma math_sqrt_ok (x : R) : 0 <= x -> math_sqrt x = Ok (sqrt x).
Proof. intros Hx. unfold math_sqrt. destruct (Rlt_dec x 0); [lra|reflexivity]. Qed.

Lemma math_sqrt_neg (x : R) :
  x < 0 -> math_sqrt x = Raise (ValueError math_domain_error).
Proof. intros Hx. unfold math_sqrt. destruct (Rlt_dec x 0); [reflexivity|lra]. Qed.

Lemma exp_neg_mult (r T : R) : exp (- r * T) = exp (- (r * T)).
Proof. f_equal. ring. Qed.

(** ** The normal distribution function *)

Lemma Phi_symmetry (x : R) : Phi (- x) = 1 - Phi x.
Proof.
  unfold Phi. replace (- x * - x) with (x * x) by ring.
  unfold Rdiv. lra.
Qed.

Lemma Phi_at_0 : Phi 0 = 1 / 2.
Proof. unfold Phi, Rdiv. lra. Qed.

Lemma gauss_n_Phi_n n : gauss_n n = INR (2 * n + 1) * Phi_n n.
Proof.
  unfold gauss_n, Phi_n.
  assert (0 < INR (2 * n + 1)) by (apply lt_0_INR; lia).
  assert (0 < 2 ^ n) by (apply pow_lt; lra).
  pose proof (INR_fact_lt_0 n).
  field. repeat split; lra.
Qed.

Lemma gauss_term_exp n y : gauss_term n y = / INR (fact n) * (- y / 2) ^ n.
Proof.
  unfold gauss_term, gauss_n.
  replace (- y / 2) with ((-1) * y * / 2) by (unfold Rdiv; ring).
  rewrite !Rpow_mult_distr, pow_inv.
  assert (0 < 2 ^ n) by (apply pow_lt; lra).
  pose proof (INR_fact_lt_0 n).
  field. split; lra.
Qed.

Lemma gauss_series (y : R) : Un_cv (fun N => SP gauss_term N y) (exp (- y / 2)).
Proof.
  unfold exp. destruct (exist_exp (- y / 2)) as [l Hl]. cbn.
  intros eps Heps. destruct (Hl eps Heps) as [N HN]. exists N. intros n Hn.
  unfold SP. rewrite (sum_eq _ (fun i => / INR (fact i) * (- y / 2) ^ i)).
  - apply HN. exact Hn.
  - intros i _. apply gauss_term_exp.
Qed.

Lemma gauss_n_neq_0 n : gauss_n n <> 0.
Proof.
  rewrite gauss_n_Phi_n. apply Rmult_integral_contrapositive_currified.
  - apply not_0_INR. lia.
  - apply Phi_n_neq_0.
Qed.

Lemma gauss_n_ratio n : Rabs (gauss_n (S n) / gauss_n n) = / (2 * INR (S n)).
Proof.
  assert (HS : 0 < INR (S n)) by (apply lt_0_INR; lia).
  replace (gauss_n (S n) / gauss_n n) with (- / (2 * INR (S n))).
  { rewrite Rabs_Ropp. apply Rabs_right. left. apply Rinv_0_lt_compat. lra. }
  unfold gauss_n. rewrite fact_simpl, mult_INR.
  pose proof (INR_fact_lt_0 n).
  assert (0 < 2 ^ n) by (apply pow_lt; lra).
  assert ((-1) ^ n <> 0) by (apply pow_nonzero; lra).
  simpl pow. field. repeat split; lra.
Qed.

Lemma Alembert_gauss : Un_cv (fun n => Rabs (gauss_n (S n) / gauss_n n)) 0.
Proof.
  intros eps Heps. destruct (archimed_cor1 eps Heps) as [N [HN HN0]].
  exists N. intros n Hn.
  unfold Rdist. rewrite Rminus_0_r, Rabs_Rabsolu, gauss_n_ratio.
  assert (HS : 0 < INR (S n)) by (apply lt_0_INR; lia).
  assert (HNpos : 0 < INR N) by (apply lt_0_INR; lia).
  assert (/ INR (S n) <= / INR N).
  { apply Rinv_le_contravar; [exact HNpos|apply le_INR; lia]. }
  assert (/ (2 * INR (S n)) <= / INR (S n)).
  { apply Rinv_le_contravar; lra. }
  lra.
Qed.

Lemma gauss_abs_neq_0 n : Rabs (gauss_n n) <> 0.
Proof. apply Rabs_no_R0, gauss_n_neq_0. Qed.

Lemma Alembert_gauss_abs :
  Un_cv (fun n => Rabs (Rabs (gauss_n (S n)) / Rabs (gauss_n n))) 0.
Proof.
  intros eps Heps. destruct (Alembert_gauss eps Heps) as [N HN].
  exists N. intros n Hn. specialize (HN n Hn).
  unfold Rdiv in *. rewrite <- Rabs_inv, <- Rabs_mult, Rabs_Rabsolu. exact HN.
Qed.

Lemma CVN_R_gauss : CVN_R gauss_term.
Proof.
  intros rho.
  destruct (Alembert_C3 (fun n => Rabs (gauss_n n)) rho gauss_abs_neq_0 Alembert_gauss_abs)
    as [l Hl].
  exists (fun n => Rabs (gauss_n n) * rho ^ n), l. split.
  - intros eps Heps. destruct (Hl eps Heps) as [N HN]. exists N. intros n Hn.
    rewrite (sum_eq _ (fun k => Rabs (gauss_n k) * rho ^ k)); [exact (HN n Hn)|].
    intros i _. apply Rabs_right. apply Rle_ge, Rmult_le_pos; [apply Rabs_pos|].
    apply pow_le. left. apply cond_pos.
  - intros n y Hy. unfold gauss_term. rewrite Rabs_mult.
    apply Rmult_le_compat_l; [apply Rabs_pos|].
    rewrite <- RPow_abs. apply pow_incr. split; [apply Rabs_pos|].
    unfold Boule in Hy. rewrite Rminus_0_r in Hy. lra.
Qed.

Lemma gauss_cv (y : R) : { l : R | Un_cv (fun N => SP gauss_term N y) l }.
Proof. exists (exp (- y / 2)). apply gauss_series. Defined.

Lemma SFL_gauss (y : R) : SFL gauss_term gauss_cv y = exp (- y / 2).
Proof. reflexivity. Qed.

(** Uniform convergence of the density's partial sums, in [x]. *)
Lemma CVU_gauss (rho : posreal) :
  CVU (fun N x => SP gauss_term N (x * x)) (fun x => exp (- (x * x) / 2)) 0 rho.
Proof.
  assert (Hrho2 : 0 < rho * rho) by (apply Rmult_lt_0_compat; apply cond_pos).
  pose (rho2 := mkposreal (rho * rho) Hrho2).
  pose proof (CVN_CVU gauss_term gauss_cv rho2 (CVN_R_gauss rho2)) as Hu.
  intros eps Heps. destruct (Hu eps Heps) as [N HN]. exists N.
  intros n x Hn Hx. specialize (HN n (x * x) Hn).
  rewrite SFL_gauss in HN. apply HN.
  unfold Boule in *. rewrite Rminus_0_r in *. cbn.
  rewrite Rabs_mult. pose proof (Rabs_pos x).
  apply Rmult_le_0_lt_compat; lra.
Qed.

Lemma derivable_pt_lim_odd_term (n : nat) (x : R) :
  derivable_pt_lim (fun x => x * Phi_term n (x * x)) x (gauss_term n (x * x)).
Proof.
  assert (H : derivable_pt_lim (fun x => Phi_n n * x ^ (2 * n + 1)) x
                (Phi_n n * (INR (2 * n + 1) * x ^ (2 * n)))).
  { apply derivable_pt_lim_scal.
    replace (2 * n)%nat with (pred (2 * n + 1)) at 2 by lia.
    apply derivable_pt_lim_pow. }
  assert (E : forall y, y * Phi_term n (y * y) = Phi_n n * y ^ (2 * n + 1)).
  { intros y. unfold Phi_term.
    replace (y * y) with (y ^ 2) by ring. rewrite <- pow_mult.
    replace (2 * n + 1)%nat with (S (2 * n)) by lia. cbn [pow]. ring. }
  replace (gauss_term n (x * x)) with (Phi_n n * (INR (2 * n + 1) * x ^ (2 * n))).
  - intros eps Heps. destruct (H eps Heps) as [delta Hd]. exists delta.
    intros h Hh Hhd. rewrite !E. apply Hd; assumption.
  - unfold gauss_term. rewrite gauss_n_Phi_n.
    replace (x * x) with (x ^ 2) by ring. rewrite <- pow_mult. ring.
Qed.

Lemma derivable_pt_lim_odd_sum (N : nat) (x : R) :
  derivable_pt_lim (odd_sum N) x (SP gauss_term N (x * x)).
Proof.
  induction N as [|N IH].
  - unfold odd_sum, SP. cbn [sum_f_R0]. apply derivable_pt_lim_odd_term.
  - assert (E : forall y, odd_sum (S N) y
                          = odd_sum N y + y * Phi_term (S N) (y * y)).
    { intros y. unfold odd_sum, SP. cbn [sum_f_R0]. ring. }
    unfold SP. cbn [sum_f_R0]. fold (SP gauss_term N (x * x)).
    pose proof (derivable_pt_lim_plus _ _ _ _ _ IH (derivable_pt_lim_odd_term (S N) x)) as H.
    intros eps Heps. destruct (H eps Heps) as [delta Hd]. exists delta.
    intros h Hh Hhd. rewrite !E. apply Hd; assumption.
Qed.

Lemma odd_sum_cv (x : R) : Un_cv (fun N => odd_sum N x) (x * Phi_series (x * x)).
Proof.
  unfold odd_sum, Phi_series, SFL.
  destruct (Phi_term_cv (x * x)) as [l Hl].
  apply (CV_mult (fun _ => x) (fun N => SP Phi_term N (x * x)) x l); [|exact Hl].
  intros eps Heps. exists 0%nat. intros n _. unfold Rdist.
  rewrite Rminus_diag, Rabs_R0. exact Heps.
Qed.

Lemma derivable_pt_lim_odd_series (x : R) :
  derivable_pt_lim (fun x => x * Phi_series (x * x)) x (exp (- (x * x) / 2)).
Proof.
  assert (Hr : 0 < Rabs x + 1) by (pose proof (Rabs_pos x); lra).
  pose (rho := mkposreal (Rabs x + 1) Hr).
  apply (CVU_derivable odd_sum (fun N x => SP gauss_term N (x * x))
           (fun x => x * Phi_series (x * x)) (fun x => exp (- (x * x) / 2)) 0 rho).
  - apply CVU_gauss.
  - intros y _. apply odd_sum_cv.
  - intros n y _. apply derivable_pt_lim_odd_sum.
  - unfold Boule. rewrite Rminus_0_r. cbn. lra.
Qed.

(** [Phi] is the antiderivative of the Gaussian density that is 1/2 at 0. *)
Lemma derivable_pt_lim_Phi (x : R) :
  derivable_pt_lim Phi x (exp (- (x * x) / 2) / sqrt (2 * PI)).
Proof.
  unfold Phi.
  replace (exp (- (x * x) / 2) / sqrt (2 * PI))
    with (0 + / sqrt (2 * PI) * exp (- (x * x) / 2)) by (unfold Rdiv; ring).
  apply (derivable_pt_lim_plus (fun _ => 1 / 2)
           (fun x => x * Phi_series (x * x) / sqrt (2 * PI))).
  - apply derivable_pt_lim_const.
  - assert (H := derivable_pt_lim_scal (fun x => x * Phi_series (x * x))
                   (/ sqrt (2 * PI)) x _ (derivable_pt_lim_odd_series x)).
    intros eps Heps. destruct (H eps Heps) as [delta Hd]. exists delta.
    intros h Hh Hhd. specialize (Hd h Hh Hhd).
    unfold mult_real_fct in Hd. unfold Rdiv.
    replace ((x + h) * Phi_series ((x + h) * (x + h)) * / sqrt (2 * PI)
             - x * Phi_series (x * x) * / sqrt (2 * PI))
      with (/ sqrt (2 * PI) * ((x + h) * Phi_series ((x + h) * (x + h)))
            - / sqrt (2 * PI) * (x * Phi_series (x * x))) by ring.
    exact Hd.
Qed.

Lemma continuity_Phi : continuity Phi.
Proof.
  intros x. apply derivable_continuous_pt.
  exists (exp (- (x * x) / 2) / sqrt (2 * PI)). apply derivable_pt_lim_Phi.
Qed.

(** ** The analytic pricer *)

Lemma sigma_sqrt_T_neq_0 (T sigma : R) : 0 < T -> 0 < sigma -> sigma * sqrt T <> 0.
Proof.
  intros HT Hs. pose proof (sqrt_lt_R0 T HT).
  apply Rmult_integral_contrapositive_currified; lra.
Qed.

Lemma S_over_K_pos (S K : R) : 0 < S -> 0 < K -> 0 < S / K.
Proof. intros. apply Rdiv_lt_0_compat; assumption. Qed.

(** On the contract's domain the page-4 function returns the closed form,
    with every option type other than ["call"] priced as a put. *)
Lemma black_scholes_price_eval (S K T r sigma : R) (option_type : string) :
  0 < S -> 0 < K -> 0 < T -> 0 < sigma ->
  black_scholes_price S K T r sigma option_type
  = Ok (if String.eqb option_type "call" then call_spec S K T r sigma
        else put_spec S K T r sigma).
Proof.
  intros HS HK HT Hs. unfold black_scholes_price.
  rewrite py_div_ok by lra. cbn [bind].
  rewrite math_log_ok by (apply S_over_K_pos; assumption). cbn [bind].
  rewrite math_sqrt_ok by lra. cbn [bind].
  rewrite py_div_ok by (apply sigma_sqrt_T_neq_0; assumption). cbn [bind].
  unfold norm_cdf, math_exp. rewrite exp_neg_mult.
  destruct (String.eqb option_type "call"); reflexivity.
Qed.

Lemma black_scholes_eval (S K T r sigma : R) (option_type : string) :
  0 < S -> 0 < K -> 0 < T -> 0 < sigma ->
  black_scholes S K T r sigma option_type
  = if String.eqb option_type "call" then Ok (call_spec S K T r sigma)
    else if String.eqb option_type "put" then Ok (put_spec S K T r sigma)
    else Raise (ValueError invalid_option_type).
Proof.
  intros HS HK HT Hs. unfold black_scholes.
  rewrite py_div_ok by lra. cbn [bind].
  rewrite math_log_ok by (apply S_over_K_pos; assumption). cbn [bind].
  rewrite math_sqrt_ok by lra. cbn [bind].
  rewrite py_div_ok by (apply sigma_sqrt_T_neq_0; assumption). cbn [bind].
  unfold norm_cdf, math_exp. rewrite exp_neg_mult.
  destruct (String.eqb option_type "call"); [reflexivity|].
  destruct (String.eqb option_type "put"); reflexivity.
Qed.

(** The page-1 function has no path that returns a price for an option type
    other than ["call"] and ["put"], whatever the numbers are. *)
Lemma black_scholes_unknown_raises (S K T r sigma : R) (option_type : string) :
  option_type <> "call"%string -> option_type <> "put"%string ->
  raises (black_scholes S K T r sigma option_type).
Proof.
  intros Hc Hp. unfold black_scholes, raises.
  apply String.eqb_neq in Hc. apply String.eqb_neq in Hp. rewrite Hc, Hp.
  destruct (py_div S K) as [q|e]; cbn [bind]; [|eauto].
  destruct (math_log q) as [l|e]; cbn [bind]; [|eauto].
  destruct (math_sqrt T) as [sT|e]; cbn [bind]; [|eauto].
  destruct (py_div _ _) as [d1|e]; cbn [bind]; eauto.
Qed.

(** C1: for S, K, T, sigma > 0 and r >= 0 both copies of the analytic pricer
    return S Phi(d1) - K e^(-rT) Phi(d2) for a call and
    K e^(-rT) Phi(-d2) - S Phi(-d1) for a put, with d1 and d2 as the design
    document defines them. *)
Theorem analytic_pricer_closed_form (S K T r sigma : R) :
  0 < S -> 0 < K -> 0 < T -> 0 < sigma -> 0 <= r ->
  black_scholes S K T r sigma "call"
  = Ok (S * Phi (d1_spec S K T r sigma)
        - K * exp (- (r * T)) * Phi (d2_spec S K T r sigma))
  /\ black_scholes S K T r sigma "put"
     = Ok (K * exp (- (r * T)) * Phi (- d2_spec S K T r sigma)
           - S * Phi (- d1_spec S K T r sigma))
  /\ black_scholes_price S K T r sigma "call"
     = black_scholes S K T r sigma "call"
  /\ black_scholes_price S K T r sigma "put"
     = black_scholes S K T r sigma "put"
  /\ d1_spec S K T r sigma
     = (ln (S / K) + (r + 0.5 * sigma ^ 2) * T) / (sigma * sqrt T)
  /\ d2_spec S K T r sigma = d1_spec S K T r sigma - sigma * sqrt T.
Proof.
  intros HS HK HT Hs _.
  rewrite !black_scholes_eval, !black_scholes_price_eval by assumption.
  cbn. repeat split; reflexivity.
Qed.

Lemma analytic_pricer_closed_form_witness :
  black_scholes 100 100 1 0.05 0.2 "call"
  = Ok (100 * Phi (d1_spec 100 100 1 0.05 0.2)
        - 100 * exp (- (0.05 * 1)) * Phi (d2_spec 100 100 1 0.05 0.2)).
Proof.
  apply (analytic_pricer_closed_form 100 100 1 0.05 0.2); lra.
Defined.

(** C6, as the code has it: when the option type is neither ["call"] nor
    ["put"] the analytic pricer of page 1, [black_scholes], never returns a
    price: it raises, and on the contract's domain what it raises is the
    [ValueError] naming the option type.  The copy of the formula on the
    implied-volatility page, [black_scholes_price], has no such branch: on
    the same domain it returns the put price. *)
Theorem analytic_pricer_rejects_unknown_kind
  (S K T r sigma : R) (option_type : string) :
  option_type <> "call"%string -> option_type <> "put"%string ->
  raises (black_scholes S K T r sigma option_type)
  /\ (0 < S -> 0 < K -> 0 < T -> 0 < sigma ->
      black_scholes S K T r sigma option_type
      = Raise (ValueError invalid_option_type))
  /\ (0 < S -> 0 < K -> 0 < T -> 0 < sigma ->
      black_scholes_price S K T r sigma option_type
      = Ok (K * exp (- (r * T)) * Phi (- d2_spec S K T r sigma)
            - S * Phi (- d1_spec S K T r sigma))).
Proof.
  intros Hc Hp. pose proof Hc as Hcb. pose proof Hp as Hpb.
  apply String.eqb_neq in Hcb. apply String.eqb_neq in Hpb.
  split; [|split].
  - apply black_scholes_unknown_raises; assumption.
  - intros HS HK HT Hs. rewrite black_scholes_eval by assumption.
    rewrite Hcb, Hpb. reflexivity.
  - intros HS HK HT Hs. rewrite black_scholes_price_eval by assumption.
    rewrite Hcb. reflexivity.
Qed.

Lemma analytic_pricer_rejects_unknown_kind_witness :
  raises (black_scholes 100 100 1 0.05 0.2 "banana")
  /\ black_scholes 100 100 1 0.05 0.2 "banana"
     = Raise (ValueError invalid_option_type)
  /\ black_scholes_price 100 100 1 0.05 0.2 "banana"
     = Ok (100 * exp (- (0.05 * 1)) * Phi (- d2_spec 100 100 1 0.05 0.2)
           - 100 * Phi (- d1_spec 100 100 1 0.05 0.2)).
Proof.
  destruct (analytic_pricer_rejects_unknown_kind 100 100 1 0.05 0.2 "banana")
    as [H1 [H2 H3]]; try discriminate.
  split; [exact H1|]. split; [apply H2; lra|apply H3; lra].
Defined.

(** C6, as the design document has it, fails on the copy of the pricer that
    the implied-volatility solver calls: for the option type ["banana"] it
    returns a price and raises nothing. *)
Lemma solver_pricer_accepts_unknown_kind :
  "banana"%string <> "call"%string
  /\ "banana"%string <> "put"%string
  /\ black_scholes_price 100 100 1 0.05 0.2 "banana"
     = Ok (put_spec 100 100 1 0.05 0.2)
  /\ ~ raises (black_scholes_price 100 100 1 0.05 0.2 "banana").
Proof.
  assert (H : black_scholes_price 100 100 1 0.05 0.2 "banana"
              = Ok (put_spec 100 100 1 0.05 0.2)).
  { rewrite black_scholes_price_eval by lra. reflexivity. }
  split; [discriminate|]. split; [discriminate|]. split; [exact H|].
  intros [e He]. rewrite H in He. discriminate.
Qed.

(** C9: put-call parity of the analytic pricer over the reals: for
    S, K, T, sigma > 0 and r >= 0 the call price minus the put price is
    S - K e^(-rT). *)
Theorem put_call_parity (S K T r sigma : R) :
  0 < S -> 0 < K -> 0 < T -> 0 < sigma -> 0 <= r ->
  exists call put : R,
    black_scholes S K T r sigma "call" = Ok call
    /\ black_scholes S K T r sigma "put" = Ok put
    /\ call - put = S - K * exp (- (r * T)).
Proof.
  intros HS HK HT Hs _.
  exists (call_spec S K T r sigma), (put_spec S K T r sigma).
  rewrite !black_scholes_eval by assumption. cbn.
  repeat split. unfold call_spec, put_spec. rewrite !Phi_symmetry. ring.
Qed.

Lemma put_call_parity_witness :
  exists call put : R,
    black_scholes 100 100 1 0.05 0.2 "call" = Ok call
    /\ black_scholes 100 100 1 0.05 0.2 "put" = Ok put
    /\ call - put = 100 - 100 * exp (- (0.05 * 1)).
Proof. apply (put_call_parity 100 100 1 0.05 0.2); lra. Defined.

(** ** Arrays: reading after writing *)

Lemma list_set_spec {A : Type} (l : list A) (i : nat) (v x : A) :
  nth_error l i = Some x ->
  exists l', list_set l i v = Some l'
             /\ forall k, nth_error l' k
                          = if Nat.eqb k i then Some v else nth_error l k.
Proof.
  revert i. induction l as [|y tl IH]; intros [|i] H; cbn in H; try discriminate.
  - exists (v :: tl). split; [reflexivity|]. intros [|k]; reflexivity.
  - destruct (IH i H) as [tl' [Hset Hget]].
    exists (y :: tl'). cbn. rewrite Hset. split; [reflexivity|].
    intros [|k]; cbn; [reflexivity|apply Hget].
Qed.

Lemma grid_get_Ok_inv (g : grid) (i j : nat) (x : R) :
  grid_get g i j = Ok x ->
  exists row, nth_error g i = Some row /\ nth_error row j = Some x.
Proof.
  unfold grid_get. destruct (nth_error g i) as [row|]; [|discriminate].
  destruct (nth_error row j) as [y|] eqn:E; [|discriminate].
  intros H. injection H as ->. eauto.
Qed.

Lemma grid_set_spec (g : grid) (i j : nat) (v x : R) :
  grid_get g i j = Ok x ->
  exists g', grid_set g i j v = Ok g'
             /\ forall i' j', grid_get g' i' j'
                              = if (Nat.eqb i' i && Nat.eqb j' j)%bool then Ok v
                                else grid_get g i' j'.
Proof.
  intros H. destruct (grid_get_Ok_inv _ _ _ _ H) as [row [Hrow Hx]].
  destruct (list_set_spec row j v x Hx) as [row' [Hset Hget]].
  destruct (list_set_spec g i row' row Hrow) as [g' [Hset' Hget']].
  exists g'. unfold grid_set. rewrite Hrow, Hset, Hset'. split; [reflexivity|].
  intros i' j'. unfold grid_get. rewrite Hget'.
  destruct (Nat.eqb i' i) eqn:Ei; cbn [andb].
  - rewrite Hget. apply Nat.eqb_eq in Ei. subst i'. rewrite Hrow.
    destruct (Nat.eqb j' j); reflexivity.
  - reflexivity.
Qed.

(** Reads and writes raise nothing but [IndexError]. *)
Lemma grid_get_raise (g : grid) (i j : nat) (e : exn) :
  grid_get g i j = Raise e -> e = IndexError.
Proof.
  unfold grid_get. destruct (nth_error g i) as [row|]; [|congruence].
  destruct (nth_error row j); congruence.
Qed.

Lemma grid_set_raise (g : grid) (i j : nat) (v : R) (e : exn) :
  grid_set g i j v = Raise e -> e = IndexError.
Proof.
  unfold grid_set. destruct (nth_error g i) as [row|]; [|congruence].
  destruct (list_set row j v); [|congruence].
  destruct (list_set g i _); congruence.
Qed.

Lemma for_each_raise {A St : Type} (xs : list A) (body : A -> St -> result St)
  (s : St) (e : exn) :
  for_each xs body s = Raise e ->
  exists x s', In x xs /\ body x s' = Raise e.
Proof.
  revert s. induction xs as [|x tl IH]; intros s H; cbn in H; [discriminate|].
  destruct (body x s) as [s'|e'] eqn:E; cbn in H.
  - destruct (IH s' H) as [y [s'' [Hin Hy]]]. exists y, s''. split; [right|]; assumption.
  - injection H as ->. exists x, s. split; [left; reflexivity|assumption].
Qed.

Lemma nth_error_repeat_lt {A : Type} (a : A) (n i : nat) :
  (i < n)%nat -> nth_error (repeat a n) i = Some a.
Proof.
  revert i. induction n as [|n IH]; intros i Hi; [lia|].
  destruct i as [|i]; cbn; [reflexivity|apply IH; lia].
Qed.

Lemma grid_get_zeros (rows cols i j : nat) :
  (i < rows)%nat -> (j < cols)%nat -> grid_get (np_zeros2 rows cols) i j = Ok 0.
Proof.
  intros Hi Hj. unfold grid_get, np_zeros2, np_zeros.
  rewrite nth_error_repeat_lt by assumption.
  rewrite nth_error_repeat_lt by assumption. reflexivity.
Qed.

Lemma grid_get_empty (i j : nat) : grid_get [] i j = Raise IndexError.
Proof. unfold grid_get. destruct i; reflexivity. Qed.

Lemma readable_zeros (m : nat) : readable (np_zeros2 m m) m.
Proof. intros i j Hi Hj. exists 0. apply grid_get_zeros; assumption. Qed.

Lemma grid_set_readable (g : grid) (m i j : nat) (v : R) :
  readable g m -> (i < m)%nat -> (j < m)%nat ->
  exists g', grid_set g i j v = Ok g'
             /\ readable g' m
             /\ forall i' j', grid_get g' i' j'
                              = if (Nat.eqb i' i && Nat.eqb j' j)%bool then Ok v
                                else grid_get g i' j'.
Proof.
  intros Hr Hi Hj. destruct (Hr i j Hi Hj) as [x Hx].
  destruct (grid_set_spec g i j v x Hx) as [g' [Hset Hget]].
  exists g'. split; [assumption|]. split; [|assumption].
  intros i' j' Hi' Hj'. rewrite Hget.
  destruct (Nat.eqb i' i && Nat.eqb j' j)%bool; [exists v; reflexivity|].
  apply Hr; assumption.
Qed.

(** ** The lattice pricer: the two loops *)

Section LatticeLoops.

Variables (S K u d r dt p : R) (n : nat) (option_type : string).

Let pay (j : nat) : R := lattice_payoff option_type K (S * u ^ (n - j) * d ^ j).

Local Abbreviation V i j := (lattice_value S K u d r dt p n option_type (n - i) j).

Local Abbreviation rows_from_here := (rows_from S K u d r dt p n option_type).

Lemma terminal_row_from (a len : nat) (g : grid) :
  (a + len = n + 1)%nat ->
  readable g (n + 1) ->
  (forall j, (j < a)%nat -> grid_get g n j = Ok (pay j)) ->
  exists g',
    for_each (seq a len)
      (fun j option =>
         grid_set option n j (lattice_payoff option_type K (S * u ^ (n - j) * d ^ j)))
      g = Ok g'
    /\ readable g' (n + 1)
    /\ forall j, (j < n + 1)%nat -> grid_get g' n j = Ok (pay j).
Proof.
  revert a g. induction len as [|len IH]; intros a g Hlen Hr Hdone.
  - exists g. cbn. repeat split; [assumption|].
    intros j Hj. apply Hdone. lia.
  - cbn [seq for_each].
    destruct (grid_set_readable g (n + 1) n a (pay a) Hr) as [g1 [Hset [Hr1 Hget1]]];
      [lia|lia|].
    fold (pay a). rewrite Hset. cbn [bind].
    apply (IH (Datatypes.S a) g1); [lia|assumption|].
    intros j Hj. rewrite Hget1, Nat.eqb_refl. cbn [andb].
    destruct (Nat.eqb j a) eqn:E.
    + apply Nat.eqb_eq in E. subst j. reflexivity.
    + apply Nat.eqb_neq in E. apply Hdone. lia.
Qed.

Lemma terminal_row_ok :
  exists g,
    terminal_row S K u d n (n + 1) option_type (np_zeros2 (n + 1) (n + 1)) = Ok g
    /\ readable g (n + 1)
    /\ forall j, (j < n + 1)%nat -> grid_get g n j = Ok (pay j).
Proof.
  unfold terminal_row, range.
  apply terminal_row_from; [lia|apply readable_zeros|intros j Hj; lia].
Qed.

Lemma V_step (i j : nat) :
  (i < n)%nat ->
  V i j = math_exp (- r * dt) * (p * V (i + 1) j + (1 - p) * V (i + 1) (j + 1)).
Proof.
  intros Hi. replace (n - i)%nat with (Datatypes.S (n - (i + 1))) by lia.
  reflexivity.
Qed.

Lemma lattice_row_from (i a len : nat) (g : grid) :
  (i < n)%nat -> (a + len = i + 1)%nat ->
  readable g (n + 1) ->
  rows_from_here g (i + 1) ->
  (forall j, (j < a)%nat -> grid_get g i j = Ok (V i j)) ->
  exists g',
    for_each (seq a len) (lattice_node r dt p i) g = Ok g'
    /\ readable g' (n + 1)
    /\ rows_from_here g' i.
Proof.
  intros Hi. revert a g. induction len as [|len IH]; intros a g Hlen Hr Hrows Hdone.
  - exists g. cbn. repeat split; [assumption|].
    intros i' j Hlo Hhi Hj. destruct (Nat.eq_dec i' i) as [->|Hne].
    + apply Hdone. lia.
    + apply Hrows; lia.
  - cbn [seq for_each]. unfold lattice_node at 1.
    rewrite (Hrows (i + 1)%nat a) by lia. cbn [bind].
    rewrite (Hrows (i + 1)%nat (a + 1)%nat) by lia. cbn [bind].
    rewrite <- V_step by assumption.
    destruct (grid_set_readable g (n + 1) i a (V i a) Hr) as [g1 [Hset [Hr1 Hget1]]];
      [lia|lia|].
    rewrite Hset. cbn [bind].
    apply (IH (Datatypes.S a) g1); [lia|assumption| |].
    + intros i' j Hlo Hhi Hj. rewrite Hget1.
      replace (Nat.eqb i' i) with false by (symmetry; apply Nat.eqb_neq; lia).
      cbn [andb]. apply Hrows; assumption.
    + intros j Hj. rewrite Hget1, Nat.eqb_refl. cbn [andb].
      destruct (Nat.eqb j a) eqn:E.
      * apply Nat.eqb_eq in E. subst j. reflexivity.
      * apply Nat.eqb_neq in E. apply Hdone. lia.
Qed.

Lemma backward_induction_from (k : nat) (g : grid) :
  (k <= n)%nat ->
  readable g (n + 1) ->
  rows_from_here g k ->
  exists g',
    for_each (range_down k)
      (fun i option => for_each (range (i + 1)) (lattice_node r dt p i) option) g
    = Ok g'
    /\ readable g' (n + 1)
    /\ rows_from_here g' 0.
Proof.
  revert g. induction k as [|k IH]; intros g Hk Hr Hrows.
  - exists g. cbn. repeat split; assumption.
  - cbn [range_down for_each]. unfold range.
    destruct (lattice_row_from k 0 (k + 1) g) as [g1 [Hrow [Hr1 Hrows1]]];
      [lia|lia|assumption| | |].
    + replace (k + 1)%nat with (Datatypes.S k) by lia. assumption.
    + intros j Hj. lia.
    + rewrite Hrow. cbn [bind]. apply IH; [lia|assumption|assumption].
Qed.

Lemma lattice_loops_ok :
  exists g,
    (option <- terminal_row S K u d n (n + 1) option_type (np_zeros2 (n + 1) (n + 1)) ;;
     backward_induction r dt p n option) = Ok g
    /\ rows_from_here g 0.
Proof.
  destruct terminal_row_ok as [g0 [H0 [Hr0 Hpay]]].
  rewrite H0. cbn [bind]. unfold backward_induction.
  destruct (backward_induction_from n g0) as [g [Hg [_ Hrows]]];
    [lia|assumption| |].
  - intros i j Hlo Hhi Hj. replace i with n by lia.
    rewrite Nat.sub_diag. apply Hpay. lia.
  - exists g. split; assumption.
Qed.

End LatticeLoops.

(** ** The lattice pricer: the whole function *)

Lemma crr_u_gt_1 (T sigma : R) (N : Z) :
  (1 <= N)%Z -> 0 < T -> 0 < sigma -> 1 < crr_u T sigma N.
Proof.
  intros HN HT Hs. unfold crr_u. rewrite <- exp_0. apply exp_increasing.
  apply Rmult_lt_0_compat; [assumption|]. apply sqrt_lt_R0.
  apply Rdiv_lt_0_compat; [assumption|]. apply IZR_lt. lia.
Qed.

Lemma crr_d_lt_1 (T sigma : R) (N : Z) :
  (1 <= N)%Z -> 0 < T -> 0 < sigma -> 0 < crr_d T sigma N < 1.
Proof.
  intros HN HT Hs. pose proof (crr_u_gt_1 T sigma N HN HT Hs) as Hu.
  unfold crr_d. split.
  - apply Rdiv_lt_0_compat; lra.
  - apply Rmult_lt_reg_r with (crr_u T sigma N); [lra|].
    unfold Rdiv. rewrite Rmult_assoc, Rinv_l by lra. lra.
Qed.

(** With at least one step, a positive maturity and a positive volatility the
    function runs to its [return], and the grid then holds the lattice
    values on and below the diagonal. *)
Lemma binomial_grid_eval (S K T r sigma : R) (N : Z) (option_type : string) :
  (1 <= N)%Z -> 0 < T -> 0 < sigma ->
  exists g,
    binomial_grid S K T r sigma N option_type = Ok g
    /\ rows_from S K (crr_u T sigma N) (crr_d T sigma N) r (T / IZR N)
         (crr_p T r sigma N) (Z.to_nat N) option_type g 0.
Proof.
  intros HN HT Hs.
  pose proof (crr_u_gt_1 T sigma N HN HT Hs) as Hu.
  pose proof (crr_d_lt_1 T sigma N HN HT Hs) as Hd.
  assert (HNR : IZR N <> 0) by (apply not_0_IZR; lia).
  assert (Hdt : 0 < T / IZR N).
  { apply Rdiv_lt_0_compat; [assumption|apply IZR_lt; lia]. }
  unfold binomial_grid.
  rewrite py_div_ok by assumption. cbn [bind].
  rewrite math_sqrt_ok by lra. cbn [bind].
  fold (crr_u T sigma N).
  rewrite py_div_ok by (unfold math_exp; fold (crr_u T sigma N); lra). cbn [bind].
  unfold math_exp at 1 2 3 4. fold (crr_u T sigma N). fold (crr_d T sigma N).
  rewrite py_div_ok by lra. cbn [bind]. fold (crr_p T r sigma N).
  replace (N + 1 <? 0)%Z with false by (symmetry; apply Z.ltb_ge; lia).
  replace (Z.to_nat (N + 1)) with (Z.to_nat N + 1)%nat by lia.
  apply lattice_loops_ok.
Qed.

Lemma binomial_tree_eval (S K T r sigma : R) (N : Z) (option_type : string) :
  (1 <= N)%Z -> 0 < T -> 0 < sigma ->
  binomial_tree S K T r sigma N option_type
  = Ok (lattice_value S K (crr_u T sigma N) (crr_d T sigma N) r (T / IZR N)
          (crr_p T r sigma N) (Z.to_nat N) option_type (Z.to_nat N) 0).
Proof.
  intros HN HT Hs.
  destruct (binomial_grid_eval S K T r sigma N option_type HN HT Hs) as [g [Hg Hrows]].
  unfold binomial_tree. rewrite Hg. cbn [bind].
  rewrite (Hrows 0%nat 0%nat) by lia. rewrite Nat.sub_0_r. reflexivity.
Qed.

(** C4: for N >= 1 and S, K, T, sigma > 0, r >= 0 the lattice pricer fills
    the N + 1 terminal nodes with the payoff of S u^(N-j) d^j (call:
    max(ST - K, 0), put: max(K - ST, 0)), with u = e^(sigma sqrt(T/N)) and
    d = 1/u; every interior node then holds
    e^(-r dt) (p up_child + (1 - p) down_child), with no comparison against
    immediate exercise; and the value returned is the root's. *)
Theorem lattice_pricer_backward_induction
  (S K T r sigma : R) (N : Z) (option_type : string) :
  (1 <= N)%Z -> 0 < S -> 0 < K -> 0 < T -> 0 < sigma -> 0 <= r ->
  let n := Z.to_nat N in
  let dt := T / IZR N in
  let u := exp (sigma * sqrt dt) in
  let d := 1 / u in
  let p := (exp (r * dt) - d) / (u - d) in
  exists option : grid,
    binomial_grid S K T r sigma N option_type = Ok option
    /\ (forall j, (j <= n)%nat ->
          grid_get option n j
          = Ok (if String.eqb option_type "call"
                then Rmax (S * u ^ (n - j) * d ^ j - K) 0
                else Rmax (K - S * u ^ (n - j) * d ^ j) 0))
    /\ (forall i j, (i < n)%nat -> (j <= i)%nat ->
          exists up down,
            grid_get option (i + 1) j = Ok up
            /\ grid_get option (i + 1) (j + 1) = Ok down
            /\ grid_get option i j
               = Ok (exp (- r * dt) * (p * up + (1 - p) * down)))
    /\ binomial_tree S K T r sigma N option_type = grid_get option 0 0
    /\ returns (binomial_tree S K T r sigma N option_type).
Proof.
  intros HN _ _ HT Hs _ n dt u d p.
  destruct (binomial_grid_eval S K T r sigma N option_type HN HT Hs) as [g [Hg Hrows]].
  change (crr_u T sigma N) with u in Hrows.
  change (crr_d T sigma N) with d in Hrows.
  change (crr_p T r sigma N) with p in Hrows.
  fold n dt in Hrows.
  exists g. split; [assumption|]. split; [|split; [|split]].
  - intros j Hj. rewrite (Hrows n j) by lia. rewrite Nat.sub_diag. reflexivity.
  - intros i j Hi Hj.
    exists (lattice_value S K u d r dt p n option_type (n - (i + 1)) j),
           (lattice_value S K u d r dt p n option_type (n - (i + 1)) (j + 1)).
    rewrite (Hrows (i + 1)%nat j), (Hrows (i + 1)%nat (j + 1)%nat), (Hrows i j) by lia.
    repeat split.
    replace (n - i)%nat with (Datatypes.S (n - (i + 1))) by lia. reflexivity.
  - unfold binomial_tree. rewrite Hg. reflexivity.
  - unfold binomial_tree. rewrite Hg. cbn [bind].
    rewrite (Hrows 0%nat 0%nat) by lia. eexists. reflexivity.
Qed.

Lemma lattice_pricer_backward_induction_witness :
  exists option : grid,
    binomial_grid 100 100 1 0.05 0.2 2 "put" = Ok option
    /\ binomial_tree 100 100 1 0.05 0.2 2 "put" = grid_get option 0 0
    /\ returns (binomial_tree 100 100 1 0.05 0.2 2 "put").
Proof.
  destruct (lattice_pricer_backward_induction 100 100 1 0.05 0.2 2 "put")
    as [g [Hg [_ [_ [Hroot Hret]]]]]; try lra; try lia.
  exists g. repeat split; assumption.
Defined.

(** With a step count below one the lattice pricer never reaches a price:
    the division by [N], the square root of a negative [dt], the division by
    [u - d], the allocation of the grid or the final read raises. *)
Lemma binomial_tree_bad_steps (S K T r sigma : R) (N : Z) (option_type : string) :
  (N < 1)%Z -> raises (binomial_tree S K T r sigma N option_type).
Proof.
  intros HN. unfold raises, binomial_tree, binomial_grid.
  destruct (Z.eq_dec N 0) as [->|HN0].
  { rewrite py_div_zero. cbn [bind]. eauto. }
  destruct (py_div T (IZR N)) as [dt|e]; cbn [bind]; [|eauto].
  destruct (math_sqrt dt) as [sdt|e]; cbn [bind]; [|eauto].
  destruct (py_div 1 _) as [d|e]; cbn [bind]; [|eauto].
  destruct (py_div _ _) as [p|e]; cbn [bind]; [|eauto].
  destruct (N + 1 <? 0)%Z eqn:E; cbn [bind]; [eauto|].
  apply Z.ltb_ge in E.
  assert (N = -1)%Z as -> by lia. cbn. eauto.
Qed.

Lemma binomial_tree_zero_steps (S K T r sigma : R) (option_type : string) :
  binomial_tree S K T r sigma 0 option_type = Raise ZeroDivisionError.
Proof. unfold binomial_tree, binomial_grid. rewrite py_div_zero. reflexivity. Qed.

(** The up probability exceeds one as soon as the growth over a step beats
    the up move. *)
Lemma crr_p_gt_1 (T r sigma : R) (N : Z) :
  (1 <= N)%Z -> 0 < T -> 0 < sigma ->
  sigma * sqrt (T / IZR N) < r * (T / IZR N) ->
  1 < crr_p T r sigma N.
Proof.
  intros HN HT Hs Hlt.
  pose proof (crr_u_gt_1 T sigma N HN HT Hs) as Hu.
  pose proof (crr_d_lt_1 T sigma N HN HT Hs) as Hd.
  assert (Ha : crr_u T sigma N < exp (r * (T / IZR N))).
  { unfold crr_u. apply exp_increasing. assumption. }
  unfold crr_p.
  apply Rmult_lt_reg_r with (crr_u T sigma N - crr_d T sigma N); [lra|].
  unfold Rdiv. rewrite Rmult_assoc, Rinv_l by lra. lra.
Qed.

Lemma sqrt_1_over_1 : sqrt (1 / IZR 1) = 1.
Proof. replace (1 / IZR 1) with 1 by lra. apply sqrt_1. Qed.

(** C8, as the code has it: the lattice pricer makes no test on the up
    probability p.  For N >= 1, T > 0 and sigma > 0 with p outside [0, 1] it
    raises nothing and returns the root value of the backward induction
    computed with that p. *)
Theorem lattice_pricer_ignores_probability_range
  (S K T r sigma : R) (N : Z) (option_type : string) :
  (1 <= N)%Z -> 0 < T -> 0 < sigma ->
  crr_p T r sigma N < 0 \/ 1 < crr_p T r sigma N ->
  binomial_tree S K T r sigma N option_type
  = Ok (lattice_value S K (crr_u T sigma N) (crr_d T sigma N) r (T / IZR N)
          (crr_p T r sigma N) (Z.to_nat N) option_type (Z.to_nat N) 0).
Proof. intros HN HT Hs _. apply binomial_tree_eval; assumption. Qed.

Lemma lattice_pricer_ignores_probability_range_witness :
  binomial_tree 100 100 1 0.05 0.01 1 "put"
  = Ok (lattice_value 100 100 (crr_u 1 0.01 1) (crr_d 1 0.01 1) 0.05 (1 / IZR 1)
          (crr_p 1 0.05 0.01 1) (Z.to_nat 1) "put" (Z.to_nat 1) 0).
Proof.
  apply (lattice_pricer_ignores_probability_range 100 100 1 0.05 0.01 1 "put");
    [lia|lra|lra|].
  right. apply crr_p_gt_1; [lia|lra|lra|]. rewrite sqrt_1_over_1. lra.
Defined.

(** C8, as the design document has it, fails: with S = K = 100, T = 1,
    r = 5%, sigma = 1% and one step the up probability is above one and the
    pricer returns a price. *)
Lemma lattice_pricer_out_of_range_probability_unreported :
  1 < crr_p 1 0.05 0.01 1
  /\ binomial_tree 100 100 1 0.05 0.01 1 "call"
     = Ok (lattice_value 100 100 (crr_u 1 0.01 1) (crr_d 1 0.01 1) 0.05 (1 / IZR 1)
             (crr_p 1 0.05 0.01 1) 1 "call" 1 0)
  /\ ~ raises (binomial_tree 100 100 1 0.05 0.01 1 "call").
Proof.
  assert (H : binomial_tree 100 100 1 0.05 0.01 1 "call"
              = Ok (lattice_value 100 100 (crr_u 1 0.01 1) (crr_d 1 0.01 1) 0.05
                      (1 / IZR 1) (crr_p 1 0.05 0.01 1) 1 "call" 1 0)).
  { apply (binomial_tree_eval 100 100 1 0.05 0.01 1 "call"); [lia|lra|lra]. }
  split; [|split].
  - apply crr_p_gt_1; [lia|lra|lra|]. rewrite sqrt_1_over_1. lra.
  - exact H.
  - intros [e He]. rewrite H in He. discriminate.
Qed.

(** ** The regression Monte Carlo pricer *)

Lemma np_sum_scale (v : list R) (q : R) :
  np_sum (map (fun c => c * q) v) = np_sum v * q.
Proof.
  induction v as [|x v IH]; cbn; [ring|]. unfold np_sum in IH. rewrite IH. ring.
Qed.

Lemma np_mean_scale (v : list R) (q : R) :
  np_mean (map (fun c => c * q) v) = np_mean v * q.
Proof.
  unfold np_mean. rewrite np_sum_scale, length_map. unfold Rdiv. ring.
Qed.

Lemma exp_pow_nat (x : R) (k : nat) : exp x ^ k = exp (INR k * x).
Proof.
  induction k as [|k IH].
  - cbn. rewrite Rmult_0_l, exp_0. reflexivity.
  - rewrite S_INR. cbn [pow]. rewrite IH, <- exp_plus. f_equal. ring.
Qed.

Section MonteCarloFacts.

Variable rng : nat -> nat -> R.
Variable lstsq : list (R * R * R) -> list R -> R * R * R.

(** Past its allocations the function runs to its [return]. *)
Lemma lsm_eval (S0 K T r sigma : R) (option_type : string) (simulations steps : Z) :
  (0 <= simulations)%Z -> (1 <= steps)%Z ->
  lsm_american_option_price rng lstsq S0 K T r sigma option_type simulations steps
  = let dt := T / IZR steps in
    let m := Z.to_nat simulations in
    let n := Z.to_nat steps in
    Ok (np_mean
          (backward_pass rng lstsq S0 K r sigma dt (exp (- r * dt)) option_type m n
             (terminal_cashflow option_type K (path_column rng S0 r sigma dt m n)))
        * exp (- r * dt)).
Proof.
  intros Hm Hn. unfold lsm_american_option_price.
  rewrite py_div_ok by (apply not_0_IZR; lia). cbn [bind].
  replace (simulations <? 0)%Z with false by (symmetry; apply Z.ltb_ge; lia).
  replace (steps + 1 <? 0)%Z with false by (symmetry; apply Z.ltb_ge; lia).
  replace (steps + 1 =? 0)%Z with false by (symmetry; apply Z.eqb_neq; lia).
  reflexivity.
Qed.

(** Whatever the option type, a bad count makes the function raise, except
    a sample count of zero. *)
Lemma lsm_bad_counts (S0 K T r sigma : R) (option_type : string)
  (simulations steps : Z) :
  (steps < 1)%Z \/ (simulations < 0)%Z ->
  raises (lsm_american_option_price rng lstsq S0 K T r sigma option_type
            simulations steps).
Proof.
  intros H. unfold raises, lsm_american_option_price.
  destruct (Z.eq_dec steps 0) as [->|Hs0].
  { rewrite py_div_zero. cbn [bind]. eauto. }
  destruct (py_div T (IZR steps)) as [dt|e]; cbn [bind]; [|eauto].
  destruct (simulations <? 0)%Z eqn:E1; [eauto|].
  destruct (steps + 1 <? 0)%Z eqn:E2; [eauto|].
  destruct (steps + 1 =? 0)%Z eqn:E3; [eauto|].
  apply Z.ltb_ge in E1, E2. apply Z.eqb_neq in E3. lia.
Qed.

Lemma lsm_zero_steps (S0 K T r sigma : R) (option_type : string) (simulations : Z) :
  lsm_american_option_price rng lstsq S0 K T r sigma option_type simulations 0
  = Raise ZeroDivisionError.
Proof. unfold lsm_american_option_price. rewrite py_div_zero. reflexivity. Qed.

(** The call branch of the loop body. *)
Lemma backward_step_call (S0 K r sigma dt discount : R) (m t : nat) (payoff : list R) :
  backward_step rng lstsq S0 K r sigma dt discount "call" m t payoff
  = map (fun c => c * discount) payoff.
Proof. reflexivity. Qed.

Lemma fold_discount (step : list R -> nat -> list R) (ts : list nat)
  (discount : R) (payoff : list R) :
  (forall p t, step p t = map (fun c => c * discount) p) ->
  fold_left step ts payoff = map (fun c => c * discount ^ List.length ts) payoff.
Proof.
  intros Hstep. revert payoff.
  induction ts as [|t ts IH]; intros payoff; cbn [fold_left List.length pow].
  - rewrite <- (map_id payoff) at 1. apply map_ext. intros c. ring.
  - rewrite IH, Hstep, map_map. apply map_ext. intros c. ring.
Qed.

Lemma backward_pass_call (S0 K r sigma dt discount : R) (m n : nat) (payoff : list R) :
  backward_pass rng lstsq S0 K r sigma dt discount "call" m n payoff
  = map (fun c => c * discount ^ (n - 1)) payoff.
Proof.
  unfold backward_pass.
  rewrite (fold_discount _ (rev (seq 1 (n - 1))) discount payoff).
  - rewrite length_rev, length_seq. reflexivity.
  - intros p t. apply backward_step_call.
Qed.

End MonteCarloFacts.

(** C3: for a call the backward pass evaluates no exercise condition: each
    of its steps - 1 iterations multiplies the cashflow vector by the
    one-step discount, and after the final discount the value returned is
    e^(-rT) times the mean of max(S_T - K, 0) over the simulated paths, the
    European Monte Carlo estimate on those paths. *)
Theorem call_is_discounted_only
  (rng : nat -> nat -> R) (lstsq : list (R * R * R) -> list R -> R * R * R)
  (S0 K T r sigma : R) (simulations steps : Z) :
  (1 <= simulations)%Z -> (1 <= steps)%Z ->
  let dt := T / IZR steps in
  let m := Z.to_nat simulations in
  let n := Z.to_nat steps in
  (forall (t : nat) (payoff : list R),
      backward_step rng lstsq S0 K r sigma dt (exp (- r * dt)) "call" m t payoff
      = map (fun c => c * exp (- r * dt)) payoff)
  /\ (forall payoff : list R,
        backward_pass rng lstsq S0 K r sigma dt (exp (- r * dt)) "call" m n payoff
        = map (fun c => c * exp (- r * dt) ^ (n - 1)) payoff)
  /\ lsm_american_option_price rng lstsq S0 K T r sigma "call" simulations steps
     = Ok (exp (- (r * T))
           * np_mean (map (fun s => Rmax (s - K) 0) (path_column rng S0 r sigma dt m n)))
  /\ lsm_american_option_price rng lstsq S0 K T r sigma "call" simulations steps
     = Ok (european_call_mc rng S0 K T r sigma simulations steps).
Proof.
  intros Hm Hn dt m n.
  assert (Hprice :
    lsm_american_option_price rng lstsq S0 K T r sigma "call" simulations steps
    = Ok (european_call_mc rng S0 K T r sigma simulations steps)).
  { rewrite lsm_eval by lia. cbv zeta. fold dt m n.
    rewrite backward_pass_call, np_mean_scale.
    unfold european_call_mc, terminal_cashflow. cbn [String.eqb Ascii.eqb Bool.eqb].
    fold dt m n. f_equal.
    rewrite Rmult_assoc, (Rmult_comm (np_mean _)). f_equal.
    replace (exp (- r * dt) ^ (n - 1) * exp (- r * dt))
      with (exp (- r * dt) ^ Datatypes.S (n - 1)) by (cbn [pow]; ring).
    replace (Datatypes.S (n - 1)) with n by lia.
    rewrite exp_pow_nat. f_equal. unfold n, dt. rewrite INR_IZR_INZ, Z2Nat.id by lia.
    field. apply not_0_IZR. lia. }
  split; [intros t payoff; apply backward_step_call|].
  split; [intros payoff; apply backward_pass_call|].
  split; [|exact Hprice].
  rewrite Hprice. reflexivity.
Qed.

Lemma call_is_discounted_only_witness :
  lsm_american_option_price (fun _ _ => 0) (fun _ _ => (0, 0, 0))
    100 100 1 0.05 0.2 "call" 1000 10
  = Ok (european_call_mc (fun _ _ => 0) 100 100 1 0.05 0.2 1000 10).
Proof.
  apply (call_is_discounted_only (fun _ _ => 0) (fun _ _ => (0, 0, 0))
           100 100 1 0.05 0.2 1000 10); lia.
Defined.

(** ** The put branch of the backward loop *)

Lemma zip_with_map {A B C D : Type} (f : B -> C -> D) (g : A -> B) (h : A -> C)
  (l : list A) :
  zip_with f (map g l) (map h l) = map (fun x => f (g x) (h x)) l.
Proof. induction l as [|x l IH]; cbn; [reflexivity|]. rewrite IH. reflexivity. Qed.

Lemma select_map {A B : Type} (f : A -> B) (Q : A -> bool) (l : list A) :
  select (map f l) (map Q l) = map f (filter Q l).
Proof.
  unfold select. induction l as [|x l IH]; cbn; [reflexivity|].
  destruct (Q x); cbn; rewrite IH; reflexivity.
Qed.

Lemma select_filter {A : Type} (Q : A -> bool) (l : list A) :
  select l (map Q l) = filter Q l.
Proof. rewrite <- (map_id l) at 1. rewrite select_map. apply map_id. Qed.

Lemma length_list_upd (v : list R) (i : nat) (x : R) :
  List.length (list_upd v i x) = List.length v.
Proof.
  revert i. induction v as [|y v IH]; intros [|i]; cbn; try reflexivity.
  rewrite IH. reflexivity.
Qed.

Lemma nth_list_upd (v : list R) (i k : nat) (x : R) :
  (i < List.length v)%nat ->
  nth k (list_upd v i x) 0 = if Nat.eqb k i then x else nth k v 0.
Proof.
  revert i k. induction v as [|y v IH]; intros i k Hi; cbn in Hi; [lia|].
  destruct i as [|i], k as [|k]; cbn; try reflexivity.
  apply IH. lia.
Qed.

Lemma length_scatter (v : list R) (f : nat -> R) (idx : list nat) :
  List.length (scatter v idx (map f idx)) = List.length v.
Proof.
  unfold scatter. revert v. induction idx as [|i idx IH]; intros v; cbn; [reflexivity|].
  rewrite IH. apply length_list_upd.
Qed.

Lemma nth_scatter (v : list R) (f : nat -> R) (idx : list nat) (k : nat) :
  (forall i, In i idx -> (i < List.length v)%nat) ->
  nth k (scatter v idx (map f idx)) 0
  = if existsb (Nat.eqb k) idx then f k else nth k v 0.
Proof.
  unfold scatter. revert v. induction idx as [|i idx IH]; intros v Hidx; cbn.
  - reflexivity.
  - rewrite IH.
    + rewrite nth_list_upd by (apply Hidx; left; reflexivity).
      destruct (Nat.eqb k i) eqn:E; cbn [orb].
      * apply Nat.eqb_eq in E. subst i.
        destruct (existsb (Nat.eqb k) idx); reflexivity.
      * reflexivity.
    + intros j Hj. rewrite length_list_upd. apply Hidx. right. assumption.
Qed.

Lemma nth_map_combine_seq (g : nat * R -> R) (a : nat) (v : list R) (k : nat) :
  (k < List.length v)%nat ->
  nth k (map g (combine (seq a (List.length v)) v)) 0 = g ((a + k)%nat, nth k v 0).
Proof.
  revert a k. induction v as [|x v IH]; intros a k Hk; cbn in Hk; [lia|].
  cbn [List.length seq combine map]. destruct k as [|k]; cbn [nth].
  - rewrite Nat.add_0_r. reflexivity.
  - rewrite IH by lia. do 2 f_equal. lia.
Qed.

Lemma existsb_eqb_filter (Q : nat -> bool) (l : list nat) (k : nat) :
  existsb (Nat.eqb k) (filter Q l) = (existsb (Nat.eqb k) l && Q k)%bool.
Proof.
  induction l as [|x l IH]; cbn; [reflexivity|].
  destruct (Nat.eqb k x) eqn:E.
  - apply Nat.eqb_eq in E. subst x.
    destruct (Q k) eqn:Ek; cbn; rewrite ?Nat.eqb_refl, ?IH, ?Ek; cbn;
      [reflexivity|apply andb_false_r].
  - destruct (Q x); cbn; rewrite ?E, IH; reflexivity.
Qed.

Lemma existsb_eqb_seq (k m : nat) :
  (k < m)%nat -> existsb (Nat.eqb k) (seq 0 m) = true.
Proof.
  intros Hk. apply existsb_exists. exists k. split; [|apply Nat.eqb_refl].
  apply in_seq. lia.
Qed.

Lemma filter_none {A : Type} (Q : A -> bool) (l : list A) :
  (forall x, In x l -> Q x = false) -> filter Q l = [].
Proof.
  induction l as [|x l IH]; intros H; cbn; [reflexivity|].
  rewrite (H x) by (left; reflexivity). apply IH. intros y Hy. apply H. right. assumption.
Qed.

Lemma Rltb_true (x y : R) : Rltb x y = true <-> x < y.
Proof. unfold Rltb. destruct (Rlt_dec x y); split; intros; (assumption || discriminate || reflexivity || contradiction). Qed.

Lemma Rltb_false (x y : R) : Rltb x y = false <-> ~ x < y.
Proof. unfold Rltb. destruct (Rlt_dec x y); split; intros; (assumption || discriminate || reflexivity || contradiction). Qed.

Section PutStep.

Variable lstsq : list (R * R * R) -> list R -> R * R * R.
Variables (K discount : R) (m : nat) (col payoff : list R).

(** With no trajectory in the money the loop body ends at its first
    [continue]: the cashflow vector is left as it is. *)
Lemma put_step_no_itm :
  (forall i, (i < m)%nat -> ~ nth i col 0 < K) ->
  put_step lstsq K discount m col payoff = payoff.
Proof.
  intros H. unfold put_step.
  rewrite filter_none; [reflexivity|].
  intros i Hi. apply in_seq in Hi. apply Rltb_false. apply H. lia.
Qed.

(** With some trajectory in the money: the in-the-money trajectories whose
    exercise value exceeds the fitted continuation value receive the
    exercise value, every other one is discounted by one step. *)
Lemma put_step_itm (k : nat) :
  List.length payoff = m ->
  (exists i, (i < m)%nat /\ nth i col 0 < K) ->
  (k < m)%nat ->
  nth k (put_step lstsq K discount m col payoff) 0
  = if (Rltb (nth k col 0) K
        && Rltb (fitted_continuation lstsq K discount m col payoff (nth k col 0))
             (Rmax (K - nth k col 0) 0))%bool
    then Rmax (K - nth k col 0) 0
    else nth k payoff 0 * discount.
Proof.
  intros Hlen [i [Hi HiK]] Hk. unfold put_step.
  fold (in_the_money K m col).
  destruct (Nat.eqb (List.length (in_the_money K m col)) 0) eqn:E.
  { apply Nat.eqb_eq in E. apply length_zero_iff_nil in E.
    assert (Hin : In i (in_the_money K m col)).
    { apply filter_In. split; [apply in_seq; lia|apply Rltb_true; assumption]. }
    rewrite E in Hin. destruct Hin. }
  set (itm := in_the_money K m col).
  set (cont := fitted_continuation lstsq K discount m col payoff).
  set (ev := fun x : R => Rmax (K - x) 0).
  set (X := map (fun i => nth i col 0) itm).
  set (Q := fun i : nat => Rltb (cont (nth i col 0)) (ev (nth i col 0))).
  change (nth k
            (map (fun ip : nat * R =>
                    if existsb (Nat.eqb (fst ip))
                         (select itm (zip_with (fun e c => Rltb c e) (map ev X) (map cont X)))
                    then snd ip else snd ip * discount)
               (combine (seq 0 m)
                  (scatter payoff
                     (select itm (zip_with (fun e c => Rltb c e) (map ev X) (map cont X)))
                     (select (map ev X)
                        (zip_with (fun e c => Rltb c e) (map ev X) (map cont X)))))) 0
          = if (Rltb (nth k col 0) K && Q k)%bool then ev (nth k col 0)
            else nth k payoff 0 * discount).
  unfold X. rewrite !map_map.
  rewrite (zip_with_map (fun e c => Rltb c e)
             (fun i => ev (nth i col 0)) (fun i => cont (nth i col 0)) itm).
  fold Q.
  rewrite select_filter, select_map.
  rewrite <- Hlen at 1.
  rewrite <- (length_scatter payoff (fun i => ev (nth i col 0)) (filter Q itm)).
  rewrite nth_map_combine_seq by (rewrite length_scatter; lia).
  cbn [fst snd Nat.add].
  rewrite nth_scatter.
  - unfold itm, in_the_money. rewrite !existsb_eqb_filter.
    rewrite existsb_eqb_seq by assumption. cbn [andb].
    destruct (Rltb (nth k col 0) K && Q k)%bool; reflexivity.
  - intros j Hj. apply filter_In in Hj. destruct Hj as [Hj _].
    apply filter_In in Hj. destruct Hj as [Hj _]. apply in_seq in Hj. lia.
Qed.

End PutStep.

(** ** A put with no trajectory in the money at an intermediate step *)

Section SkippedDiscount.

Variable lstsq : list (R * R * R) -> list R -> R * R * R.

Let S0 : R := 100.
Let K : R := 100.
Let r : R := 0.08.
Let sigma : R := 0.4.

Lemma flat_then_down_column_1 :
  path_column flat_then_down S0 r sigma 1 1 1 = [100].
Proof.
  cbn. unfold S0, r, sigma. rewrite sqrt_1.
  replace ((0.08 - 0.5 * (0.4 * (0.4 * 1))) * 1 + 0.4 * 1 * 0) with 0 by lra.
  rewrite exp_0. f_equal. lra.
Qed.

Lemma flat_then_down_column_2 :
  path_column flat_then_down S0 r sigma 1 1 2 = [100 * exp (- 0.4)].
Proof.
  change (path_column flat_then_down S0 r sigma 1 1 2)
    with (zip_with Rmult (path_column flat_then_down S0 r sigma 1 1 1)
            [exp ((r - 0.5 * sigma ^ 2) * 1 + sigma * sqrt 1 * -1)]).
  rewrite flat_then_down_column_1. cbn. unfold r, sigma. rewrite sqrt_1.
  do 3 f_equal. lra.
Qed.

Lemma exp_neg_lt_1 (x : R) : x < 0 -> 0 < exp x < 1.
Proof.
  intros Hx. split; [apply exp_pos|].
  rewrite <- exp_0. apply exp_increasing. lra.
Qed.

Lemma flat_then_down_cashflow :
  terminal_cashflow "put" K (path_column flat_then_down S0 r sigma 1 1 2)
  = [100 - 100 * exp (- 0.4)].
Proof.
  rewrite flat_then_down_column_2. cbn. unfold K.
  pose proof (exp_neg_lt_1 (- 0.4) ltac:(lra)).
  rewrite Rmax_left by lra. reflexivity.
Qed.

Lemma flat_then_down_step (discount : R) (payoff : list R) :
  backward_step flat_then_down lstsq S0 K r sigma 1 discount "put" 1 1 payoff
  = payoff.
Proof.
  unfold backward_step. cbn [String.eqb Ascii.eqb Bool.eqb].
  rewrite flat_then_down_column_1.
  apply put_step_no_itm. intros i Hi. replace i with 0%nat by lia.
  cbn. unfold K. lra.
Qed.

End SkippedDiscount.

(** C2 on a run the claim covers: S0 = K = 100, T = 2, r = 8%, sigma = 40%,
    one trajectory, two steps, draws 0 and -1.  At the only backward step,
    t = 1, the trajectory stands at 100 and is not in the money: the loop
    body leaves the cashflow vector undiscounted, and the price returned is
    the terminal payoff discounted once, not twice. *)
Theorem put_without_itm_is_not_discounted
  (lstsq : list (R * R * R) -> list R -> R * R * R) :
  let r := 0.08 in
  let cashflow := 100 - 100 * exp (- 0.4) in
  let discount := exp (- r * 1) in
  in_the_money 100 1 (path_column flat_then_down 100 r 0.4 1 1 1) = []
  /\ backward_step flat_then_down lstsq 100 100 r 0.4 1 discount "put" 1 1 [cashflow]
     = [cashflow]
  /\ [cashflow] <> map (fun c => c * discount) [cashflow]
  /\ lsm_american_option_price flat_then_down lstsq 100 100 2 r 0.4 "put" 1 2
     = Ok (cashflow * discount)
  /\ cashflow * discount <> cashflow * discount * discount.
Proof.
  intros r cashflow discount.
  pose proof (exp_neg_lt_1 (- 0.4) ltac:(lra)) as H4.
  assert (H8 : 0 < discount < 1) by (apply exp_neg_lt_1; unfold r; lra).
  assert (Hc : 0 < cashflow) by (unfold cashflow; lra).
  subst r.
  split; [|split; [|split; [|split]]].
  - rewrite flat_then_down_column_1. cbn. unfold Rltb.
    destruct (Rlt_dec 100 100); [lra|reflexivity].
  - apply flat_then_down_step.
  - cbn. intros H. injection H as H. nra.
  - rewrite lsm_eval by lia. cbv zeta.
    replace (2 / IZR 2) with 1 by lra.
    change (Z.to_nat 1) with 1%nat. change (Z.to_nat 2) with 2%nat.
    rewrite flat_then_down_cashflow.
    unfold backward_pass. cbn [Nat.sub seq rev app fold_left].
    rewrite flat_then_down_step.
    unfold np_mean, np_sum. cbn [fold_right List.length INR].
    f_equal. fold cashflow. unfold discount. field.
  - intros H.
    assert (Hcd : 0 < cashflow * discount) by (apply Rmult_lt_0_compat; lra).
    assert (Hpos : 0 < cashflow * discount * (1 - discount))
      by (apply Rmult_lt_0_compat; lra).
    lra.
Qed.

(** ** Counts below one *)

Section EmptySample.

Variable rng : nat -> nat -> R.
Variable lstsq : list (R * R * R) -> list R -> R * R * R.

Lemma path_column_empty (S0 r sigma dt : R) (t : nat) :
  path_column rng S0 r sigma dt 0 t = [].
Proof. destruct t as [|t]; cbn; [reflexivity|]. destruct (path_column _ _ _ _ _ _ _); reflexivity. Qed.

Lemma backward_step_empty (S0 K r sigma dt discount : R) (option_type : string)
  (t : nat) :
  backward_step rng lstsq S0 K r sigma dt discount option_type 0 t [] = [].
Proof.
  unfold backward_step. destruct (String.eqb option_type "call"); reflexivity.
Qed.

Lemma backward_pass_empty (S0 K r sigma dt discount : R) (option_type : string)
  (n : nat) :
  backward_pass rng lstsq S0 K r sigma dt discount option_type 0 n [] = [].
Proof.
  unfold backward_pass. induction (rev (seq 1 (n - 1))) as [|t ts IH]; cbn [fold_left].
  - reflexivity.
  - rewrite backward_step_empty. exact IH.
Qed.

(** With no trajectory at all the function still reaches its [return]:
    what it returns is the mean of an empty vector, discounted. *)
Lemma lsm_empty_sample (S0 K T r sigma : R) (option_type : string) (steps : Z) :
  (1 <= steps)%Z ->
  lsm_american_option_price rng lstsq S0 K T r sigma option_type 0 steps
  = Ok (np_mean [] * exp (- r * (T / IZR steps))).
Proof.
  intros Hn. rewrite lsm_eval by lia. cbv zeta. change (Z.to_nat 0) with 0%nat.
  rewrite path_column_empty.
  replace (terminal_cashflow option_type K []) with (@nil R)
    by (unfold terminal_cashflow; destruct (String.eqb option_type "call"); reflexivity).
  rewrite backward_pass_empty. reflexivity.
Qed.

End EmptySample.

(** C7, as the code has it: neither pricer tests its counts.  The lattice
    pricer raises for every step count below one (a [ZeroDivisionError] at
    zero).  The Monte Carlo pricer raises for every step count below one
    and for every negative sample count; with a sample count of zero and at
    least one step it raises nothing and returns the discounted mean of an
    empty vector. *)
Theorem count_checks_are_incidental
  (rng : nat -> nat -> R) (lstsq : list (R * R * R) -> list R -> R * R * R)
  (S K T r sigma : R) (option_type : string) (N simulations steps : Z) :
  ((N < 1)%Z -> raises (binomial_tree S K T r sigma N option_type))
  /\ binomial_tree S K T r sigma 0 option_type = Raise ZeroDivisionError
  /\ ((steps < 1)%Z \/ (simulations < 0)%Z ->
      raises (lsm_american_option_price rng lstsq S K T r sigma option_type
                simulations steps))
  /\ lsm_american_option_price rng lstsq S K T r sigma option_type simulations 0
     = Raise ZeroDivisionError
  /\ ((1 <= steps)%Z ->
      lsm_american_option_price rng lstsq S K T r sigma option_type 0 steps
      = Ok (np_mean [] * exp (- r * (T / IZR steps)))).
Proof.
  split; [apply binomial_tree_bad_steps|].
  split; [apply binomial_tree_zero_steps|].
  split; [apply lsm_bad_counts|].
  split; [apply lsm_zero_steps|].
  apply lsm_empty_sample.
Qed.

Lemma count_checks_are_incidental_witness :
  raises (binomial_tree 100 100 1 0.05 0.2 (-3) "call")
  /\ raises (lsm_american_option_price (fun _ _ => 0) (fun _ _ => (0, 0, 0))
               100 100 1 0.05 0.2 "put" (-1) 10)
  /\ (let r := 0.05 in
      lsm_american_option_price (fun _ _ => 0) (fun _ _ => (0, 0, 0))
        100 100 1 r 0.2 "put" 0 10
      = Ok (np_mean [] * exp (- r * (1 / IZR 10)))).
Proof.
  pose proof (count_checks_are_incidental (fun _ _ => 0) (fun _ _ => (0, 0, 0))
                100 100 1 0.05 0.2 "call" (-3) (-1) 10) as [Hlattice _].
  pose proof (count_checks_are_incidental (fun _ _ => 0) (fun _ _ => (0, 0, 0))
                100 100 1 0.05 0.2 "put" (-3) (-1) 10) as [_ [_ [Hneg [_ Hzero]]]].
  split; [apply Hlattice; lia|].
  split; [apply Hneg; right; lia|].
  apply Hzero. lia.
Defined.

(** C7, as the design document has it, fails: with a sample count of zero
    (and ten steps) the Monte Carlo pricer raises nothing. *)
Lemma zero_samples_raise_nothing :
  (0 < 1)%Z
  /\ (let r := 0.05 in
      lsm_american_option_price (fun _ _ => 0) (fun _ _ => (0, 0, 0))
        100 100 1 r 0.2 "put" 0 10
      = Ok (np_mean [] * exp (- r * (1 / IZR 10))))
  /\ ~ raises (lsm_american_option_price (fun _ _ => 0) (fun _ _ => (0, 0, 0))
                 100 100 1 0.05 0.2 "put" 0 10).
Proof.
  assert (H : let r := 0.05 in
              lsm_american_option_price (fun _ _ => 0) (fun _ _ => (0, 0, 0))
                100 100 1 r 0.2 "put" 0 10
              = Ok (np_mean [] * exp (- r * (1 / IZR 10)))).
  { apply lsm_empty_sample. lia. }
  split; [lia|]. split; [exact H|].
  intros [e He]. cbv zeta in H. rewrite H in He. discriminate.
Qed.

(** ** Option types other than ["call"] and ["put"] *)

Lemma runtime_error_not_option_type (e : exn) :
  runtime_error e -> e <> ValueError invalid_option_type.
Proof. intros [->|[->|[->| ->]]]; discriminate. Qed.

Lemma py_div_raise (a b : R) (e : exn) : py_div a b = Raise e -> runtime_error e.
Proof.
  unfold py_div. destruct (Req_EM_T b 0); [|discriminate].
  intros H. injection H as <-. left. reflexivity.
Qed.

Lemma math_log_raise (x : R) (e : exn) : math_log x = Raise e -> runtime_error e.
Proof.
  unfold math_log. destruct (Rle_dec x 0); [|discriminate].
  intros H. injection H as <-. right. left. reflexivity.
Qed.

Lemma math_sqrt_raise (x : R) (e : exn) : math_sqrt x = Raise e -> runtime_error e.
Proof.
  unfold math_sqrt. destruct (Rlt_dec x 0); [|discriminate].
  intros H. injection H as <-. right. left. reflexivity.
Qed.

Lemma index_error_runtime (e : exn) : e = IndexError -> runtime_error e.
Proof. intros ->. right. right. right. reflexivity. Qed.

Lemma black_scholes_price_raise (S K T r sigma : R) (option_type : string) (e : exn) :
  black_scholes_price S K T r sigma option_type = Raise e -> runtime_error e.
Proof.
  unfold black_scholes_price.
  destruct (py_div S K) as [q|e1] eqn:E1; cbn [bind];
    [|intros H; injection H as <-; exact (py_div_raise _ _ _ E1)].
  destruct (math_log q) as [l|e2] eqn:E2; cbn [bind];
    [|intros H; injection H as <-; exact (math_log_raise _ _ E2)].
  destruct (math_sqrt T) as [sT|e3] eqn:E3; cbn [bind];
    [|intros H; injection H as <-; exact (math_sqrt_raise _ _ E3)].
  destruct (py_div _ (sigma * sT)) as [d1|e4] eqn:E4; cbn [bind];
    [|intros H; injection H as <-; exact (py_div_raise _ _ _ E4)].
  destruct (String.eqb option_type "call"); discriminate.
Qed.

Lemma lattice_node_raise (r dt p : R) (i j : nat) (g : grid) (e : exn) :
  lattice_node r dt p i j g = Raise e -> e = IndexError.
Proof.
  unfold lattice_node.
  destruct (grid_get g (i + 1) j) as [up|e1] eqn:E1; cbn [bind];
    [|intros H; injection H as <-; exact (grid_get_raise _ _ _ _ E1)].
  destruct (grid_get g (i + 1) (j + 1)) as [down|e2] eqn:E2; cbn [bind];
    [|intros H; injection H as <-; exact (grid_get_raise _ _ _ _ E2)].
  apply grid_set_raise.
Qed.

Lemma binomial_tree_raise (S K T r sigma : R) (N : Z) (option_type : string) (e : exn) :
  binomial_tree S K T r sigma N option_type = Raise e -> runtime_error e.
Proof.
  unfold binomial_tree, binomial_grid.
  destruct (py_div T (IZR N)) as [dt|e1] eqn:E1; cbn [bind];
    [|intros H; injection H as <-; exact (py_div_raise _ _ _ E1)].
  destruct (math_sqrt dt) as [sdt|e2] eqn:E2; cbn [bind];
    [|intros H; injection H as <-; exact (math_sqrt_raise _ _ E2)].
  destruct (py_div 1 _) as [d|e3] eqn:E3; cbn [bind];
    [|intros H; injection H as <-; exact (py_div_raise _ _ _ E3)].
  destruct (py_div (_ - _) _) as [p|e4] eqn:E4; cbn [bind];
    [|intros H; injection H as <-; exact (py_div_raise _ _ _ E4)].
  destruct (N + 1 <? 0)%Z; cbn [bind];
    [intros H; injection H as <-; right; right; left; reflexivity|].
  destruct (terminal_row _ _ _ _ _ _ _ _) as [g0|e5] eqn:E5; cbn [bind].
  2:{ intros H. injection H as <-. apply index_error_runtime.
      unfold terminal_row in E5.
      destruct (for_each_raise _ _ _ _ E5) as [j [g' [_ Hj]]].
      exact (grid_set_raise _ _ _ _ _ Hj). }
  destruct (backward_induction _ _ _ _ g0) as [g1|e6] eqn:E6; cbn [bind].
  2:{ intros H. injection H as <-. apply index_error_runtime.
      unfold backward_induction in E6.
      destruct (for_each_raise _ _ _ _ E6) as [i [g' [_ Hi]]].
      destruct (for_each_raise _ _ _ _ Hi) as [j [g'' [_ Hj]]].
      exact (lattice_node_raise _ _ _ _ _ _ _ Hj). }
  intros H. apply index_error_runtime. exact (grid_get_raise _ _ _ _ H).
Qed.

Lemma lsm_raise (rng : nat -> nat -> R)
  (lstsq : list (R * R * R) -> list R -> R * R * R)
  (S0 K T r sigma : R) (option_type : string) (simulations steps : Z) (e : exn) :
  lsm_american_option_price rng lstsq S0 K T r sigma option_type simulations steps
  = Raise e -> runtime_error e.
Proof.
  unfold lsm_american_option_price.
  destruct (py_div T (IZR steps)) as [dt|e1] eqn:E1; cbn [bind];
    [|intros H; injection H as <-; exact (py_div_raise _ _ _ E1)].
  destruct (simulations <? 0)%Z;
    [intros H; injection H as <-; right; right; left; reflexivity|].
  destruct (steps + 1 <? 0)%Z;
    [intros H; injection H as <-; right; right; left; reflexivity|].
  destruct (steps + 1 =? 0)%Z;
    [intros H; injection H as <-; apply index_error_runtime; reflexivity|].
  discriminate.
Qed.

(** C10: for every option-type string other than ["call"] (["banana"]
    included) the lattice pricer, the Monte Carlo pricer and the page-4
    Black-Scholes function take the put branch and return the put-payoff
    value: the lattice's terminal row holds max(K - S u^(N-j) d^j, 0) and
    the value returned is the root of the backward induction over it; the
    Monte Carlo cashflows start from max(K - S_T, 0), every backward step is
    the put's regression step and the value returned is the discounted mean
    of the result; the page-4 function returns the closed-form put.  Each
    behaves exactly as for ["put"] and none of them ever raises the
    option-type error; the page-1 function alone refuses a string that is
    neither ["call"] nor ["put"]. *)
Theorem unknown_kind_is_priced_as_put
  (rng : nat -> nat -> R) (lstsq : list (R * R * R) -> list R -> R * R * R)
  (S K T r sigma : R) (N simulations steps : Z) (option_type : string) :
  option_type <> "call"%string ->
  binomial_tree S K T r sigma N option_type = binomial_tree S K T r sigma N "put"
  /\ lsm_american_option_price rng lstsq S K T r sigma option_type simulations steps
     = lsm_american_option_price rng lstsq S K T r sigma "put" simulations steps
  /\ black_scholes_price S K T r sigma option_type
     = black_scholes_price S K T r sigma "put"
  /\ binomial_tree S K T r sigma N option_type <> Raise (ValueError invalid_option_type)
  /\ lsm_american_option_price rng lstsq S K T r sigma option_type simulations steps
     <> Raise (ValueError invalid_option_type)
  /\ black_scholes_price S K T r sigma option_type
     <> Raise (ValueError invalid_option_type)
  /\ (0 < S -> 0 < K -> 0 < T -> 0 < sigma ->
      black_scholes_price S K T r sigma option_type = Ok (put_spec S K T r sigma))
  /\ (option_type <> "put"%string ->
      raises (black_scholes S K T r sigma option_type))
  /\ ((1 <= N)%Z -> 0 < T -> 0 < sigma ->
      let n := Z.to_nat N in
      let dt := T / IZR N in
      let u := exp (sigma * sqrt dt) in
      let d := 1 / u in
      let p := (exp (r * dt) - d) / (u - d) in
      exists option : grid,
        binomial_grid S K T r sigma N option_type = Ok option
        /\ (forall j, (j <= n)%nat ->
              grid_get option n j = Ok (Rmax (K - S * u ^ (n - j) * d ^ j) 0))
        /\ (forall i j, (i < n)%nat -> (j <= i)%nat ->
              exists up down,
                grid_get option (i + 1) j = Ok up
                /\ grid_get option (i + 1) (j + 1) = Ok down
                /\ grid_get option i j
                   = Ok (exp (- r * dt) * (p * up + (1 - p) * down)))
        /\ binomial_tree S K T r sigma N option_type = grid_get option 0 0
        /\ binomial_tree S K T r sigma N option_type
           = Ok (lattice_value S K u d r dt p n "put" n 0))
  /\ ((0 <= simulations)%Z -> (1 <= steps)%Z ->
      let m := Z.to_nat simulations in
      let n := Z.to_nat steps in
      let dt := T / IZR steps in
      let discount := exp (- r * dt) in
      lsm_american_option_price rng lstsq S K T r sigma option_type simulations steps
      = Ok (np_mean
              (fold_left
                 (fun payoff t =>
                    put_step lstsq K discount m (path_column rng S r sigma dt m t) payoff)
                 (rev (seq 1 (n - 1)))
                 (map (fun s => Rmax (K - s) 0) (path_column rng S r sigma dt m n)))
            * discount)).
Proof.
  intros Hc. pose proof Hc as Hb. apply String.eqb_neq in Hb.
  split; [|split; [|split; [|split; [|split; [|split; [|split; [|split; [|split]]]]]]]].
  - unfold binomial_tree, binomial_grid, terminal_row, lattice_payoff.
    rewrite Hb. reflexivity.
  - unfold lsm_american_option_price, backward_pass, backward_step, terminal_cashflow.
    rewrite Hb. reflexivity.
  - unfold black_scholes_price. rewrite Hb. reflexivity.
  - intros H. exact (runtime_error_not_option_type _ (binomial_tree_raise _ _ _ _ _ _ _ _ H) eq_refl).
  - intros H. exact (runtime_error_not_option_type _ (lsm_raise _ _ _ _ _ _ _ _ _ _ _ H) eq_refl).
  - intros H. exact (runtime_error_not_option_type _ (black_scholes_price_raise _ _ _ _ _ _ _ H) eq_refl).
  - intros HS HK HT Hs. rewrite black_scholes_price_eval by assumption.
    rewrite Hb. reflexivity.
  - intros Hp. apply black_scholes_unknown_raises; assumption.
  - intros HN HT Hs n dt u d p.
    destruct (binomial_grid_eval S K T r sigma N option_type HN HT Hs) as [g [Hg Hrows]].
    change (crr_u T sigma N) with u in Hrows.
    change (crr_d T sigma N) with d in Hrows.
    change (crr_p T r sigma N) with p in Hrows.
    change (T / IZR N) with dt in Hrows.
    change (Z.to_nat N) with n in Hrows.
    assert (Hput : forall k j,
               lattice_value S K u d r dt p n option_type k j
               = lattice_value S K u d r dt p n "put" k j).
    { induction k as [|k IH]; intros j; cbn [lattice_value].
      - unfold lattice_payoff. rewrite Hb. reflexivity.
      - rewrite !IH. reflexivity. }
    exists g. split; [exact Hg|]. split; [|split; [|split]].
    + intros j Hj. rewrite (Hrows n j) by lia. rewrite Nat.sub_diag.
      cbn [lattice_value]. unfold lattice_payoff. rewrite Hb. reflexivity.
    + intros i j Hi Hj.
      exists (lattice_value S K u d r dt p n option_type (n - (i + 1)) j),
             (lattice_value S K u d r dt p n option_type (n - (i + 1)) (j + 1)).
      split; [apply Hrows; lia|]. split; [apply Hrows; lia|].
      rewrite (Hrows i j) by lia.
      replace (n - i)%nat with (Datatypes.S (n - (i + 1))) by lia.
      reflexivity.
    + unfold binomial_tree. rewrite Hg. reflexivity.
    + unfold binomial_tree. rewrite Hg. cbn [bind].
      rewrite (Hrows 0%nat 0%nat) by lia. rewrite Nat.sub_0_r, Hput. reflexivity.
  - intros Hm Hn m n dt discount. rewrite lsm_eval by assumption. cbv zeta.
    unfold backward_pass, backward_step, terminal_cashflow. rewrite Hb. reflexivity.
Qed.

Lemma unknown_kind_is_priced_as_put_witness :
  binomial_tree 100 100 1 0.05 0.2 3 "banana" = binomial_tree 100 100 1 0.05 0.2 3 "put"
  /\ black_scholes_price 100 100 1 0.05 0.2 "banana" = Ok (put_spec 100 100 1 0.05 0.2)
  /\ raises (black_scholes 100 100 1 0.05 0.2 "banana")
  /\ (let dt := 1 / IZR 3 in
      let u := exp (0.2 * sqrt dt) in
      let d := 1 / u in
      let p := (exp (0.05 * dt) - d) / (u - d) in
      binomial_tree 100 100 1 0.05 0.2 3 "banana"
      = Ok (lattice_value 100 100 u d 0.05 dt p 3 "put" 3 0))
  /\ (let r := 0.05 in
      let dt := 1 / IZR 10 in
      let discount := exp (- r * dt) in
      lsm_american_option_price (fun _ _ => 0) (fun _ _ => (0, 0, 0))
        100 100 1 0.05 0.2 "banana" 1000 10
      = Ok (np_mean
              (fold_left
                 (fun payoff t =>
                    put_step (fun _ _ => (0, 0, 0)) 100 discount 1000
                      (path_column (fun _ _ => 0) 100 0.05 0.2 dt 1000 t) payoff)
                 (rev (seq 1 (10 - 1)))
                 (map (fun s => Rmax (100 - s) 0)
                    (path_column (fun _ _ => 0) 100 0.05 0.2 dt 1000 10)))
            * discount)).
Proof.
  destruct (unknown_kind_is_priced_as_put (fun _ _ => 0) (fun _ _ => (0, 0, 0))
              100 100 1 0.05 0.2 3 1000 10 "banana")
    as [Hlattice [_ [_ [_ [_ [_ [Hput [Hpage1 [Hvalue Hmc]]]]]]]]]; [discriminate|].
  split; [exact Hlattice|].
  split; [apply Hput; lra|]. split; [apply Hpage1; discriminate|].
  split.
  - destruct Hvalue as [g [_ [_ [_ [_ H]]]]]; [lia|lra|lra|]. exact H.
  - apply Hmc; lia.
Defined.

(** ** The implied-volatility solver *)

Lemma objective_eval (S K T r market_price : R) (option_type : string) (sigma : R) :
  0 < S -> 0 < K -> 0 < T -> 0 < sigma ->
  objective S K T r market_price option_type sigma
  = Ok (objective_value S K T r market_price option_type sigma).
Proof.
  intros HS HK HT Hs. unfold objective, objective_value.
  rewrite black_scholes_price_eval by assumption. reflexivity.
Qed.

Lemma continuity_pt_d1 (S K T r sigma : R) :
  0 < T -> 0 < sigma -> continuity_pt (d1_spec S K T r) sigma.
Proof.
  intros HT Hs. pose proof (sigma_sqrt_T_neq_0 T sigma HT Hs) as Hne.
  unfold d1_spec.
  apply (continuity_pt_div
           (fun x => ln (S / K) + (r + 0.5 * x ^ 2) * T) (fun x => x * sqrt T));
    [| |exact Hne].
  - apply derivable_continuous_pt. reg.
  - apply derivable_continuous_pt. reg.
Qed.

Lemma continuity_pt_d2 (S K T r sigma : R) :
  0 < T -> 0 < sigma -> continuity_pt (d2_spec S K T r) sigma.
Proof.
  intros HT Hs. unfold d2_spec.
  apply (continuity_pt_minus (d1_spec S K T r) (fun x => x * sqrt T)).
  - apply continuity_pt_d1; assumption.
  - apply derivable_continuous_pt. reg.
Qed.

Lemma continuity_pt_Phi_after (h : R -> R) (x : R) :
  continuity_pt h x -> continuity_pt (fun y => Phi (h y)) x.
Proof.
  intros Hh. apply (continuity_pt_comp h Phi x Hh). apply continuity_Phi.
Qed.

Lemma continuity_pt_call_spec (S K T r sigma : R) :
  0 < T -> 0 < sigma -> continuity_pt (call_spec S K T r) sigma.
Proof.
  intros HT Hs. unfold call_spec.
  apply (continuity_pt_minus
           (fun x => S * Phi (d1_spec S K T r x))
           (fun x => K * exp (- (r * T)) * Phi (d2_spec S K T r x))).
  - apply (continuity_pt_mult (fun _ => S) (fun x => Phi (d1_spec S K T r x)));
      [apply continuity_pt_const; intros ? ?; reflexivity|].
    apply continuity_pt_Phi_after, continuity_pt_d1; assumption.
  - apply (continuity_pt_mult (fun _ => K * exp (- (r * T)))
             (fun x => Phi (d2_spec S K T r x)));
      [apply continuity_pt_const; intros ? ?; reflexivity|].
    apply continuity_pt_Phi_after, continuity_pt_d2; assumption.
Qed.

Lemma continuity_pt_put_spec (S K T r sigma : R) :
  0 < T -> 0 < sigma -> continuity_pt (put_spec S K T r) sigma.
Proof.
  intros HT Hs. unfold put_spec.
  apply (continuity_pt_minus
           (fun x => K * exp (- (r * T)) * Phi (- d2_spec S K T r x))
           (fun x => S * Phi (- d1_spec S K T r x))).
  - apply (continuity_pt_mult (fun _ => K * exp (- (r * T)))
             (fun x => Phi (- d2_spec S K T r x)));
      [apply continuity_pt_const; intros ? ?; reflexivity|].
    apply (continuity_pt_Phi_after (fun x => - d2_spec S K T r x)).
    apply (continuity_pt_opp (d2_spec S K T r)), continuity_pt_d2; assumption.
  - apply (continuity_pt_mult (fun _ => S) (fun x => Phi (- d1_spec S K T r x)));
      [apply continuity_pt_const; intros ? ?; reflexivity|].
    apply (continuity_pt_Phi_after (fun x => - d1_spec S K T r x)).
    apply (continuity_pt_opp (d1_spec S K T r)), continuity_pt_d1; assumption.
Qed.

(** The objective is continuous in the volatility on the positive axis. *)
Lemma continuity_pt_objective_value
  (S K T r market_price : R) (option_type : string) (sigma : R) :
  0 < T -> 0 < sigma ->
  continuity_pt (objective_value S K T r market_price option_type) sigma.
Proof.
  intros HT Hs. unfold objective_value.
  destruct (String.eqb option_type "call").
  - apply (continuity_pt_minus (call_spec S K T r) (fun _ => market_price));
      [apply continuity_pt_call_spec; assumption
      |apply continuity_pt_const; intros ? ?; reflexivity].
  - apply (continuity_pt_minus (put_spec S K T r) (fun _ => market_price));
      [apply continuity_pt_put_spec; assumption
      |apply continuity_pt_const; intros ? ?; reflexivity].
Qed.

Section SolverFacts.

Variable brentq : (R -> result R) -> R -> R -> result R.
Variable xtol : R.
Hypothesis brentq_ok : brentq_contract brentq xtol.

Variables (S K T r market_price : R) (option_type : string).
Hypotheses (S_pos : 0 < S) (K_pos : 0 < K) (T_pos : 0 < T).

Let f : R -> R := objective_value S K T r market_price option_type.

Lemma objective_on_bracket (x : R) :
  1e-6 <= x <= 5.0 ->
  objective S K T r market_price option_type x = Ok (f x).
Proof. intros Hx. apply objective_eval; lra. Qed.

Lemma implied_volatility_root :
  f 1e-6 * f 5.0 <= 0 ->
  exists root z,
    implied_volatility brentq S K T r market_price option_type = Ok (Some root)
    /\ 1e-6 <= root <= 5.0 /\ 1e-6 <= z <= 5.0 /\ f z = 0
    /\ Rabs (root - z) <= xtol.
Proof.
  intros Hsign.
  destruct (brentq_root brentq xtol brentq_ok
              (objective S K T r market_price option_type) f 1e-6 5.0)
    as [x [z [Hx [Hxin [Hzin [Hz Hclose]]]]]].
  - lra.
  - apply objective_on_bracket.
  - intros x Hx. apply continuity_pt_objective_value; lra.
  - exact Hsign.
  - exists x, z. unfold implied_volatility. rewrite Hx. repeat split; tauto.
Qed.

Lemma implied_volatility_none :
  0 < f 1e-6 * f 5.0 ->
  implied_volatility brentq S K T r market_price option_type = Ok None.
Proof.
  intros Hsign. unfold implied_volatility.
  rewrite (brentq_sign_error brentq xtol brentq_ok
             (objective S K T r market_price option_type) (f 1e-6) (f 5.0));
    [reflexivity| | |exact Hsign]; apply objective_on_bracket; lra.
Qed.

End SolverFacts.

(** C5: for S, K, T > 0, r >= 0, any market price and any option type, with
    f(sigma) = price(S, K, T, r, sigma, kind) - market_price and a [brentq]
    that keeps its documented contract: when f changes sign over
    [1e-6, 5.0] the solver returns a point of the bracket that is a root of
    f to within the tolerance of [brentq] (an exact root when that tolerance
    is zero); otherwise it returns [None]; in neither case does it raise. *)
Theorem implied_volatility_root_or_none
  (brentq : (R -> result R) -> R -> R -> result R) (xtol : R)
  (S K T r market_price : R) (option_type : string) :
  brentq_contract brentq xtol ->
  0 < S -> 0 < K -> 0 < T -> 0 <= r ->
  let f := objective_value S K T r market_price option_type in
  (forall sigma, 1e-6 <= sigma <= 5.0 ->
     f sigma = match black_scholes_price S K T r sigma option_type with
               | Ok price => price - market_price
               | Raise _ => 0
               end
     /\ returns (black_scholes_price S K T r sigma option_type))
  /\ (f 1e-6 * f 5.0 <= 0 ->
      exists root z,
        implied_volatility brentq S K T r market_price option_type = Ok (Some root)
        /\ 1e-6 <= root <= 5.0 /\ 1e-6 <= z <= 5.0 /\ f z = 0
        /\ Rabs (root - z) <= xtol
        /\ (xtol = 0 -> f root = 0))
  /\ (0 < f 1e-6 * f 5.0 ->
      implied_volatility brentq S K T r market_price option_type = Ok None)
  /\ ~ raises (implied_volatility brentq S K T r market_price option_type).
Proof.
  intros Hb HS HK HT _ f.
  assert (Hroot : f 1e-6 * f 5.0 <= 0 ->
      exists root z,
        implied_volatility brentq S K T r market_price option_type = Ok (Some root)
        /\ 1e-6 <= root <= 5.0 /\ 1e-6 <= z <= 5.0 /\ f z = 0
        /\ Rabs (root - z) <= xtol).
  { apply implied_volatility_root; assumption. }
  assert (Hnone : 0 < f 1e-6 * f 5.0 ->
      implied_volatility brentq S K T r market_price option_type = Ok None).
  { apply (implied_volatility_none brentq xtol); assumption. }
  split; [|split; [|split]].
  - intros sigma Hs. rewrite black_scholes_price_eval by lra.
    split; [reflexivity|eexists; reflexivity].
  - intros Hsign. destruct (Hroot Hsign) as [root [z [H1 [H2 [H3 [H4 H5]]]]]].
    exists root, z. repeat split; try tauto.
    intros H0. rewrite H0 in H5.
    assert (root = z).
    { destruct (Rabs_def2 (root - z) (Rabs (root - z) + 1)) as [? ?]; [lra|].
      pose proof (Rabs_pos (root - z)).
      assert (Hz : Rabs (root - z) = 0) by lra.
      destruct (Req_dec (root - z) 0) as [E|E]; [lra|].
      apply Rabs_no_R0 in E. contradiction. }
    subst root. exact H4.
  - exact Hnone.
  - intros [e He]. destruct (Rle_or_lt (f 1e-6 * f 5.0) 0) as [Hs|Hs].
    + destruct (Hroot Hs) as [root [z [H1 _]]]. rewrite H1 in He. discriminate.
    + rewrite (Hnone Hs) in He. discriminate.
Qed.

(** ** A solver that keeps the contract: bisection *)

Lemma opposite_signs_right (x y z : R) : x * z <= 0 -> 0 < x * y -> y * z <= 0.
Proof.
  intros Hxz Hxy.
  destruct (Rle_or_lt (y * z) 0) as [H|H]; [exact H|].
  assert (0 < (x * y) * (y * z)) by (apply Rmult_lt_0_compat; assumption).
  assert (0 <= y * y) by (apply Rle_0_sqr).
  assert ((x * y) * (y * z) = (y * y) * (x * z)) by ring.
  assert ((y * y) * (x * z) <= 0).
  { rewrite <- (Rmult_0_r (y * y)). apply Rmult_le_compat_l; assumption. }
  lra.
Qed.

Lemma bisect_bracket (f : R -> result R) (g : R -> R) (n : nat) (lo hi : R) :
  lo <= hi ->
  (forall x, lo <= x <= hi -> f x = Ok (g x)) ->
  g lo * g hi <= 0 ->
  exists lo' hi',
    bisect f n lo hi (g lo) = Ok lo'
    /\ lo <= lo' /\ lo' <= hi' /\ hi' <= hi
    /\ g lo' * g hi' <= 0
    /\ hi' - lo' = (hi - lo) / 2 ^ n.
Proof.
  revert lo hi. induction n as [|n IH]; intros lo hi Hle Hf Hsign.
  - exists lo, hi. cbn. repeat split; lra.
  - cbn [bisect]. rewrite (Hf ((lo + hi) / 2)) by lra. cbn [bind].
    assert (Hpow : 2 ^ n <> 0) by (apply pow_nonzero; lra).
    destruct (Rle_dec (g lo * g ((lo + hi) / 2)) 0) as [Hl|Hr].
    + destruct (IH lo ((lo + hi) / 2)) as [lo' [hi' [H1 [H2 [H3 [H4 [H5 H6]]]]]]];
        [lra|intros x Hx; apply Hf; lra|exact Hl|].
      exists lo', hi'. repeat split; try assumption; try lra.
      rewrite H6. cbn [pow]. field. exact Hpow.
    + destruct (IH ((lo + hi) / 2) hi) as [lo' [hi' [H1 [H2 [H3 [H4 [H5 H6]]]]]]];
        [lra|intros x Hx; apply Hf; lra
        |apply (opposite_signs_right (g lo)); [exact Hsign|lra]|].
      exists lo', hi'. repeat split; try assumption; try lra.
      rewrite H6. cbn [pow]. field. exact Hpow.
Qed.

(** The intermediate value theorem on a bracket with a sign change. *)
Lemma root_in_bracket (g : R -> R) (lo hi : R) :
  lo <= hi ->
  (forall x, lo <= x <= hi -> continuity_pt g x) ->
  g lo * g hi <= 0 ->
  exists z, lo <= z <= hi /\ g z = 0.
Proof.
  intros Hle Hc Hsign.
  destruct (Req_dec (g lo) 0) as [H0|Hlo]; [exists lo; split; [lra|exact H0]|].
  destruct (Req_dec (g hi) 0) as [H0|Hhi]; [exists hi; split; [lra|exact H0]|].
  assert (Hlt : lo < hi).
  { destruct Hle as [Hlt|Heq]; [exact Hlt|]. subst hi.
    pose proof (Rle_0_sqr (g lo)) as Hsq. unfold Rsqr in Hsq.
    assert (g lo * g lo = 0) by lra.
    apply Rmult_integral in H. destruct H; contradiction. }
  destruct (Rlt_or_le (g lo) 0) as [Hneg|Hpos].
  - assert (0 < g hi).
    { destruct (Rlt_or_le 0 (g hi)) as [H|H]; [exact H|].
      assert (0 < g lo * g hi) by (replace (g lo * g hi) with ((- g lo) * (- g hi)) by ring;
                                   apply Rmult_lt_0_compat; lra).
      lra. }
    destruct (IVT_interv g lo hi Hc Hlt Hneg H) as [z [Hz Hgz]].
    exists z. split; assumption.
  - assert (g hi < 0).
    { destruct (Rlt_or_le (g hi) 0) as [H|H]; [exact H|].
      assert (0 < g lo * g hi) by (apply Rmult_lt_0_compat; lra).
      lra. }
    destruct (IVT_interv (fun x => - g x) lo hi) as [z [Hz Hgz]];
      [intros x Hx; apply (continuity_pt_opp g), Hc; exact Hx|exact Hlt|lra|lra|].
    exists z. split; [exact Hz|lra].
Qed.

Lemma INR_lt_pow2 (n : nat) : INR n < 2 ^ n.
Proof.
  induction n as [|n IH]; [cbn; lra|].
  rewrite S_INR. cbn [pow].
  assert (1 <= 2 ^ n) by (apply pow_R1_Rle; lra). lra.
Qed.

Lemma bisection_steps_enough (xtol a b : R) :
  0 < xtol -> a < b -> (b - a) / 2 ^ bisection_steps xtol a b <= xtol.
Proof.
  intros Hx Hab. unfold bisection_steps.
  set (q := (b - a) / xtol).
  assert (Hq : 0 < q) by (apply Rdiv_lt_0_compat; lra).
  destruct (archimed q) as [Hup _].
  assert (Hup0 : (0 < up q)%Z) by (apply lt_IZR; lra).
  pose proof (INR_lt_pow2 (Z.to_nat (up q))) as Hpow.
  rewrite INR_IZR_INZ, Z2Nat.id in Hpow by lia.
  set (w := 2 ^ Z.to_nat (up q)) in *.
  assert (Hw : 0 < w) by lra.
  apply Rmult_le_reg_r with w; [exact Hw|].
  unfold Rdiv. rewrite Rmult_assoc, Rinv_l, Rmult_1_r by lra.
  assert (b - a = q * xtol) by (unfold q; field; lra).
  assert (q * xtol < w * xtol) by (apply Rmult_lt_compat_r; lra).
  lra.
Qed.

Lemma bisection_keeps_contract (xtol : R) :
  0 < xtol -> brentq_contract (bisection xtol) xtol.
Proof.
  intros Hx. split.
  - intros f ya yb a b Ha Hb Hsign. unfold bisection. rewrite Ha, Hb. cbn [bind].
    destruct (Rlt_dec 0 (ya * yb)); [reflexivity|contradiction].
  - intros f g a b Hab Hf Hc Hsign. unfold bisection.
    rewrite (Hf a), (Hf b) by lra. cbn [bind].
    destruct (Rlt_dec 0 (g a * g b)) as [Hpos|_]; [lra|].
    destruct (bisect_bracket f g (bisection_steps xtol a b) a b)
      as [lo [hi [Hrun [H1 [H2 [H3 [H4 H5]]]]]]]; [lra|exact Hf|exact Hsign|].
    destruct (root_in_bracket g lo hi) as [z [Hz Hgz]];
      [exact H2|intros x Hx'; apply Hc; lra|exact H4|].
    exists lo, z. split; [exact Hrun|]. split; [lra|]. split; [lra|].
    split; [exact Hgz|].
    pose proof (bisection_steps_enough xtol a b Hx Hab) as Hw.
    apply Rabs_le. lra.
Qed.

Lemma implied_volatility_root_or_none_witness :
  (let market_price := call_spec 100 100 1 0.05 1e-6 in
   exists root z,
     implied_volatility (bisection 2e-12) 100 100 1 0.05 market_price "call"
     = Ok (Some root)
     /\ 1e-6 <= root <= 5.0
     /\ objective_value 100 100 1 0.05 market_price "call" z = 0
     /\ Rabs (root - z) <= 2e-12)
  /\ (let market_price :=
        Rmin (call_spec 100 100 1 0.05 1e-6) (call_spec 100 100 1 0.05 5.0) - 1 in
      implied_volatility (bisection 2e-12) 100 100 1 0.05 market_price "call"
      = Ok None).
Proof.
  split; intros market_price.
  - destruct (implied_volatility_root_or_none (bisection 2e-12) 2e-12
                100 100 1 0.05 market_price "call")
      as [_ [Hroot _]]; try lra; [apply bisection_keeps_contract; lra|].
    destruct Hroot as [root [z [H1 [H2 [_ [H4 [H5 _]]]]]]].
    + unfold objective_value. change (String.eqb "call" "call") with true. cbv iota.
      fold market_price. lra.
    + exists root, z. repeat split; try assumption; lra.
  - destruct (implied_volatility_root_or_none (bisection 2e-12) 2e-12
                100 100 1 0.05 market_price "call")
      as [_ [_ [Hnone _]]]; try lra; [apply bisection_keeps_contract; lra|].
    apply Hnone.
    unfold objective_value. change (String.eqb "call" "call") with true. cbv iota.
    pose proof (Rmin_l (call_spec 100 100 1 0.05 1e-6) (call_spec 100 100 1 0.05 5.0)).
    pose proof (Rmin_r (call_spec 100 100 1 0.05 1e-6) (call_spec 100 100 1 0.05 5.0)).
    apply Rmult_lt_0_compat; unfold market_price; lra.
Defined.

(** * Further properties of the pricing functions *)

(** ** The lattice pricer: parity, bounds and domain *)

Section LatticeAlgebra.

Variables (S K u d r dt p : R) (n : nat).

(** The one-step discounted expectation of the underlying is the
    underlying: [e^(-r dt) (p u + (1 - p) d) = 1]. *)
Hypothesis martingale : exp (- r * dt) * (p * u + (1 - p) * d) = 1.

Lemma payoff_difference (ST : R) :
  lattice_payoff "call" K ST - lattice_payoff "put" K ST = ST - K.
Proof.
  unfold lattice_payoff. cbn [String.eqb Ascii.eqb Bool.eqb].
  unfold Rmax. destruct (Rle_dec (ST - K) 0), (Rle_dec (K - ST) 0); lra.
Qed.

Lemma lattice_value_difference (k j : nat) :
  (k + j <= n)%nat ->
  lattice_value S K u d r dt p n "call" k j
  - lattice_value S K u d r dt p n "put" k j
  = S * u ^ (n - j - k) * d ^ j - K * exp (- r * dt) ^ k.
Proof.
  revert j. induction k as [|k IH]; intros j Hkj.
  - cbn [lattice_value pow]. rewrite payoff_difference, Nat.sub_0_r. ring.
  - cbn [lattice_value pow].
    assert (H1 := IH j ltac:(lia)). assert (H2 := IH (j + 1)%nat ltac:(lia)).
    replace (n - j - k)%nat with (Datatypes.S (n - j - Datatypes.S k)) in H1 by lia.
    replace (n - (j + 1) - k)%nat with (n - j - Datatypes.S k)%nat in H2 by lia.
    assert (Hd : d ^ (j + 1) = d * d ^ j) by (rewrite Nat.add_1_r; reflexivity).
    rewrite Hd in H2. cbn [pow] in H1.
    set (c := lattice_value S K u d r dt p n "call") in *.
    set (q := lattice_value S K u d r dt p n "put") in *.
    set (w := S * u ^ (n - j - Datatypes.S k) * d ^ j).
    replace (exp (- r * dt) * (p * c k j + (1 - p) * c k (j + 1)%nat)
             - exp (- r * dt) * (p * q k j + (1 - p) * q k (j + 1)%nat))
      with (exp (- r * dt)
            * (p * (c k j - q k j) + (1 - p) * (c k (j + 1)%nat - q k (j + 1)%nat)))
      by ring.
    rewrite H1, H2.
    replace (exp (- r * dt)
             * (p * (S * (u * u ^ (n - j - Datatypes.S k)) * d ^ j
                     - K * exp (- r * dt) ^ k)
                + (1 - p) * (S * u ^ (n - j - Datatypes.S k) * (d * d ^ j)
                             - K * exp (- r * dt) ^ k)))
      with (w * (exp (- r * dt) * (p * u + (1 - p) * d))
            - K * (exp (- r * dt) * exp (- r * dt) ^ k))
      by (unfold w; ring).
    rewrite martingale. ring.
Qed.

End LatticeAlgebra.

Lemma crr_u_neq_d (T sigma : R) (N : Z) :
  (1 <= N)%Z -> 0 < T -> sigma <> 0 -> crr_u T sigma N - crr_d T sigma N <> 0.
Proof.
  intros HN HT Hs.
  assert (Hdt : 0 < T / IZR N).
  { apply Rdiv_lt_0_compat; [assumption|apply IZR_lt; lia]. }
  assert (Hu : 0 < crr_u T sigma N) by apply exp_pos.
  assert (Hne : crr_u T sigma N <> 1).
  { unfold crr_u. rewrite <- exp_0. intros H. apply exp_inv in H.
    apply Rmult_integral in H. destruct H as [H|H]; [contradiction|].
    pose proof (sqrt_lt_R0 _ Hdt). lra. }
  unfold crr_d. intros H.
  assert (Hinv : crr_u T sigma N * (1 / crr_u T sigma N) = 1) by (field; lra).
  assert (Heq : crr_u T sigma N = 1 / crr_u T sigma N) by lra.
  assert (Hsq : crr_u T sigma N * crr_u T sigma N = 1)
    by (rewrite Heq at 2; exact Hinv).
  assert (Hprod : (crr_u T sigma N - 1) * (crr_u T sigma N + 1) = 0) by lra.
  apply Rmult_integral in Hprod. destruct Hprod; lra.
Qed.

Lemma crr_martingale (T r sigma : R) (N : Z) :
  (1 <= N)%Z -> 0 < T -> sigma <> 0 ->
  exp (- r * (T / IZR N))
  * (crr_p T r sigma N * crr_u T sigma N
     + (1 - crr_p T r sigma N) * crr_d T sigma N) = 1.
Proof.
  intros HN HT Hs.
  pose proof (crr_u_neq_d T sigma N HN HT Hs) as Hud.
  replace (crr_p T r sigma N * crr_u T sigma N
           + (1 - crr_p T r sigma N) * crr_d T sigma N)
    with (exp (r * (T / IZR N))).
  - rewrite <- exp_plus. rewrite <- exp_0. f_equal. ring.
  - unfold crr_p. field. exact Hud.
Qed.

(** The function runs to its [return] for every non-zero volatility, a
    negative one included. *)
Lemma binomial_tree_eval_nonzero (S K T r sigma : R) (N : Z) (option_type : string) :
  (1 <= N)%Z -> 0 < T -> sigma <> 0 ->
  binomial_tree S K T r sigma N option_type
  = Ok (lattice_value S K (crr_u T sigma N) (crr_d T sigma N) r (T / IZR N)
          (crr_p T r sigma N) (Z.to_nat N) option_type (Z.to_nat N) 0).
Proof.
  intros HN HT Hs.
  pose proof (crr_u_neq_d T sigma N HN HT Hs) as Hud.
  assert (Hu : 0 < crr_u T sigma N) by apply exp_pos.
  assert (HNR : IZR N <> 0) by (apply not_0_IZR; lia).
  assert (Hdt : 0 < T / IZR N).
  { apply Rdiv_lt_0_compat; [assumption|apply IZR_lt; lia]. }
  unfold binomial_tree, binomial_grid.
  rewrite py_div_ok by assumption. cbn [bind].
  rewrite math_sqrt_ok by lra. cbn [bind].
  unfold math_exp. fold (crr_u T sigma N).
  rewrite py_div_ok by lra. cbn [bind]. fold (crr_d T sigma N).
  rewrite py_div_ok by exact Hud. cbn [bind]. fold (crr_p T r sigma N).
  replace (N + 1 <? 0)%Z with false by (symmetry; apply Z.ltb_ge; lia).
  replace (Z.to_nat (N + 1)) with (Z.to_nat N + 1)%nat by lia.
  destruct (lattice_loops_ok S K (crr_u T sigma N) (crr_d T sigma N) r (T / IZR N)
              (crr_p T r sigma N) (Z.to_nat N) option_type) as [g [Hg Hrows]].
  unfold math_exp in Hg. rewrite Hg. cbn [bind].
  rewrite (Hrows 0%nat 0%nat) by lia. rewrite Nat.sub_0_r. reflexivity.
Qed.

Lemma exp_discount_total (T r : R) (N : Z) :
  (1 <= N)%Z -> exp (- r * (T / IZR N)) ^ Z.to_nat N = exp (- (r * T)).
Proof.
  intros HN. rewrite exp_pow_nat. f_equal.
  rewrite INR_IZR_INZ, Z2Nat.id by lia. field. apply not_0_IZR. lia.
Qed.

(** The lattice keeps put-call parity exactly: for N >= 1, T > 0 and a
    non-zero volatility, the call value minus the put value returned by
    [binomial_tree] is S - K e^(-rT), whatever the up probability is. *)
Theorem lattice_put_call_parity (S K T r sigma : R) (N : Z) :
  (1 <= N)%Z -> 0 < T -> sigma <> 0 ->
  exists call put : R,
    binomial_tree S K T r sigma N "call" = Ok call
    /\ binomial_tree S K T r sigma N "put" = Ok put
    /\ call - put = S - K * exp (- (r * T)).
Proof.
  intros HN HT Hs.
  rewrite !binomial_tree_eval_nonzero by assumption.
  eexists. eexists. split; [reflexivity|]. split; [reflexivity|].
  rewrite lattice_value_difference;
    [|apply crr_martingale; assumption|lia].
  rewrite exp_discount_total by assumption.
  replace (Z.to_nat N - 0 - Z.to_nat N)%nat with 0%nat by lia.
  cbn [pow]. ring.
Qed.

Lemma lattice_put_call_parity_witness :
  exists call put : R,
    binomial_tree 100 100 1 0.05 0.2 500 "call" = Ok call
    /\ binomial_tree 100 100 1 0.05 0.2 500 "put" = Ok put
    /\ call - put = 100 - 100 * exp (- (0.05 * 1)).
Proof. apply (lattice_put_call_parity 100 100 1 0.05 0.2 500); (lia || lra). Defined.

Section LatticeBounds.

Variables (S K u d r dt p : R) (n : nat).
Hypotheses (S_nonneg : 0 <= S) (K_nonneg : 0 <= K) (u_pos : 0 < u) (d_pos : 0 < d).
Hypothesis p_range : 0 <= p <= 1.

Lemma terminal_price_nonneg (j : nat) : 0 <= S * u ^ (n - j) * d ^ j.
Proof.
  apply Rmult_le_pos; [apply Rmult_le_pos; [assumption|]|];
    apply pow_le; lra.
Qed.

Lemma expectation_bounds (lo hi a b : R) :
  lo <= a <= hi -> lo <= b <= hi ->
  lo <= p * a + (1 - p) * b <= hi.
Proof. intros Ha Hb. destruct p_range. split; nra. Qed.

Lemma lattice_put_bounds (k j : nat) :
  0 <= lattice_value S K u d r dt p n "put" k j <= K * exp (- r * dt) ^ k.
Proof.
  revert j. induction k as [|k IH]; intros j.
  - cbn [lattice_value pow]. unfold lattice_payoff. cbn [String.eqb Ascii.eqb Bool.eqb].
    pose proof (terminal_price_nonneg j). unfold Rmax.
    destruct (Rle_dec (K - S * u ^ (n - j) * d ^ j) 0); lra.
  - cbn [lattice_value pow].
    pose proof (exp_pos (- r * dt)) as He.
    pose proof (expectation_bounds 0 (K * exp (- r * dt) ^ k) _ _ (IH j) (IH (j + 1)%nat))
      as [Hlo Hhi].
    split; [apply Rmult_le_pos; lra|].
    replace (K * (exp (- r * dt) * exp (- r * dt) ^ k))
      with (exp (- r * dt) * (K * exp (- r * dt) ^ k)) by ring.
    apply Rmult_le_compat_l; lra.
Qed.

Lemma lattice_call_nonneg (k j : nat) :
  0 <= lattice_value S K u d r dt p n "call" k j.
Proof.
  revert j. induction k as [|k IH]; intros j.
  - cbn [lattice_value]. unfold lattice_payoff. cbn [String.eqb Ascii.eqb Bool.eqb].
    apply Rmax_r.
  - cbn [lattice_value]. pose proof (exp_pos (- r * dt)) as He.
    pose proof (IH j). pose proof (IH (j + 1)%nat). destruct p_range.
    apply Rmult_le_pos; [lra|]. apply Rplus_le_le_0_compat; apply Rmult_le_pos; lra.
Qed.

End LatticeBounds.

(** The up probability lies in [0, 1] when the rate is not negative and the
    growth over a step does not beat the up move. *)
Lemma crr_p_in_range (T r sigma : R) (N : Z) :
  (1 <= N)%Z -> 0 < T -> 0 < sigma -> 0 <= r ->
  r * (T / IZR N) <= sigma * sqrt (T / IZR N) ->
  0 <= crr_p T r sigma N <= 1.
Proof.
  intros HN HT Hs Hr Hle.
  pose proof (crr_u_gt_1 T sigma N HN HT Hs) as Hu.
  pose proof (crr_d_lt_1 T sigma N HN HT Hs) as Hd.
  assert (Hdt : 0 < T / IZR N).
  { apply Rdiv_lt_0_compat; [assumption|apply IZR_lt; lia]. }
  assert (Hlo : 1 <= exp (r * (T / IZR N))).
  { rewrite <- exp_0. destruct (Req_dec (r * (T / IZR N)) 0) as [->|Hne]; [lra|].
    left. apply exp_increasing. assert (0 <= r * (T / IZR N)) by (apply Rmult_le_pos; lra). lra. }
  assert (Hhi : exp (r * (T / IZR N)) <= crr_u T sigma N).
  { unfold crr_u. destruct Hle as [Hlt|Heq]; [left; apply exp_increasing; exact Hlt|].
    rewrite Heq. lra. }
  unfold crr_p. split.
  - apply Rmult_le_pos; [lra|]. left. apply Rinv_0_lt_compat. lra.
  - apply Rmult_le_reg_r with (crr_u T sigma N - crr_d T sigma N); [lra|].
    unfold Rdiv. rewrite Rmult_assoc, Rinv_l by lra. lra.
Qed.

(** With the up probability in [0, 1] the lattice prices obey the
    no-arbitrage bounds: for N >= 1, S, K >= 0, T, sigma > 0, r >= 0 and
    r dt <= sigma sqrt(dt), the put lies in [0, K e^(-rT)] and the call in
    [max(S - K e^(-rT), 0), S]. *)
Theorem lattice_prices_within_bounds (S K T r sigma : R) (N : Z) :
  (1 <= N)%Z -> 0 <= S -> 0 <= K -> 0 < T -> 0 < sigma -> 0 <= r ->
  r * (T / IZR N) <= sigma * sqrt (T / IZR N) ->
  exists call put : R,
    binomial_tree S K T r sigma N "call" = Ok call
    /\ binomial_tree S K T r sigma N "put" = Ok put
    /\ 0 <= put <= K * exp (- (r * T))
    /\ Rmax (S - K * exp (- (r * T))) 0 <= call <= S.
Proof.
  intros HN HS HK HT Hs Hr Hle.
  pose proof (crr_p_in_range T r sigma N HN HT Hs Hr Hle) as Hp.
  pose proof (crr_u_gt_1 T sigma N HN HT Hs) as Hu.
  pose proof (crr_d_lt_1 T sigma N HN HT Hs) as Hd.
  assert (Hs0 : sigma <> 0) by lra.
  rewrite !binomial_tree_eval_nonzero by assumption.
  eexists. eexists. split; [reflexivity|]. split; [reflexivity|].
  pose proof (lattice_put_bounds S K (crr_u T sigma N) (crr_d T sigma N) r (T / IZR N)
                (crr_p T r sigma N) (Z.to_nat N) HS HK ltac:(lra) ltac:(lra) Hp
                (Z.to_nat N) 0) as Hput.
  pose proof (lattice_call_nonneg S K (crr_u T sigma N) (crr_d T sigma N) r (T / IZR N)
                (crr_p T r sigma N) (Z.to_nat N) Hp (Z.to_nat N) 0) as Hcall.
  pose proof (lattice_value_difference S K (crr_u T sigma N) (crr_d T sigma N) r
                (T / IZR N) (crr_p T r sigma N) (Z.to_nat N)
                (crr_martingale T r sigma N HN HT Hs0) (Z.to_nat N) 0 ltac:(lia)) as Hpar.
  rewrite exp_discount_total in Hput, Hpar by assumption.
  replace (Z.to_nat N - 0 - Z.to_nat N)%nat with 0%nat in Hpar by lia.
  cbn [pow] in Hpar.
  split; [exact Hput|]. split; [apply Rmax_lub; lra|lra].
Qed.

Lemma lattice_prices_within_bounds_witness :
  exists call put : R,
    binomial_tree 100 100 1 0.05 0.2 1 "call" = Ok call
    /\ binomial_tree 100 100 1 0.05 0.2 1 "put" = Ok put
    /\ 0 <= put <= 100 * exp (- (0.05 * 1))
    /\ Rmax (100 - 100 * exp (- (0.05 * 1))) 0 <= call <= 100.
Proof.
  apply (lattice_prices_within_bounds 100 100 1 0.05 0.2 1); try lia; try lra.
  rewrite sqrt_1_over_1. lra.
Defined.

(** The errors of the lattice pricer's parameters for N >= 1, raised before
    any array is made: a negative maturity is a math domain error of
    [math.sqrt]; a zero maturity or a zero volatility makes u = d = 1 and
    the division for the up probability raises [ZeroDivisionError]. *)
Theorem lattice_pricer_domain (S K T r sigma : R) (N : Z) (option_type : string) :
  (1 <= N)%Z ->
  (T < 0 ->
   binomial_tree S K T r sigma N option_type = Raise (ValueError math_domain_error))
  /\ (T = 0 \/ (0 < T /\ sigma = 0) ->
      binomial_tree S K T r sigma N option_type = Raise ZeroDivisionError).
Proof.
  intros HN.
  assert (HNR : IZR N <> 0) by (apply not_0_IZR; lia).
  assert (HNpos : 0 < IZR N) by (apply IZR_lt; lia).
  split.
  - intros HT. unfold binomial_tree, binomial_grid.
    rewrite py_div_ok by assumption. cbn [bind].
    rewrite math_sqrt_neg; [reflexivity|].
    pose proof (Rinv_0_lt_compat _ HNpos). unfold Rdiv. nra.
  - intros Hz.
    assert (Hdt : 0 <= T / IZR N).
    { destruct Hz as [->|[HT _]]; [unfold Rdiv; lra|].
      left. apply Rdiv_lt_0_compat; assumption. }
    assert (Hx : sigma * sqrt (T / IZR N) = 0).
    { destruct Hz as [->|[_ ->]]; [|ring].
      replace (0 / IZR N) with 0 by (unfold Rdiv; ring). rewrite sqrt_0. ring. }
    unfold binomial_tree, binomial_grid.
    rewrite py_div_ok by assumption. cbn [bind].
    rewrite math_sqrt_ok by assumption. cbn [bind].
    unfold math_exp. rewrite Hx, exp_0.
    rewrite py_div_ok by lra. cbn [bind].
    replace (1 - 1 / 1) with 0 by field.
    rewrite py_div_zero. reflexivity.
Qed.

Lemma lattice_pricer_domain_witness :
  binomial_tree 100 100 (-1) 0.05 0.2 10 "call" = Raise (ValueError math_domain_error)
  /\ binomial_tree 100 100 0 0.05 0.2 10 "call" = Raise ZeroDivisionError
  /\ binomial_tree 100 100 1 0.05 0 10 "call" = Raise ZeroDivisionError.
Proof.
  destruct (lattice_pricer_domain 100 100 (-1) 0.05 0.2 10 "call") as [H1 _]; [lia|].
  destruct (lattice_pricer_domain 100 100 0 0.05 0.2 10 "call") as [_ H2]; [lia|].
  destruct (lattice_pricer_domain 100 100 1 0.05 0 10 "call") as [_ H3]; [lia|].
  split; [apply H1; lra|]. split; [apply H2; left; reflexivity|apply H3; right; split; lra].
Defined.

(** ** The analytic pricer: domain, and the two copies *)

Lemma math_log_nonpos (x : R) :
  x <= 0 -> math_log x = Raise (ValueError math_domain_error).
Proof. intros Hx. unfold math_log. destruct (Rle_dec x 0); [reflexivity|lra]. Qed.

(** The domain of the page-1 pricer, in the order the function evaluates:
    a zero strike raises [ZeroDivisionError]; a non-positive S/K and a
    negative maturity are math domain errors; a zero volatility or a zero
    maturity raises [ZeroDivisionError]; all four come before the test on
    the option type.  Everywhere else, a negative volatility included, a
    call or a put is priced. *)
Theorem analytic_pricer_domain (S K T r sigma : R) (option_type : string) :
  (K = 0 -> black_scholes S K T r sigma option_type = Raise ZeroDivisionError)
  /\ (K <> 0 -> S / K <= 0 ->
      black_scholes S K T r sigma option_type = Raise (ValueError math_domain_error))
  /\ (K <> 0 -> 0 < S / K -> T < 0 ->
      black_scholes S K T r sigma option_type = Raise (ValueError math_domain_error))
  /\ (K <> 0 -> 0 < S / K -> 0 <= T -> sigma = 0 \/ T = 0 ->
      black_scholes S K T r sigma option_type = Raise ZeroDivisionError)
  /\ (K <> 0 -> 0 < S / K -> 0 < T -> sigma <> 0 ->
      option_type = "call"%string \/ option_type = "put"%string ->
      returns (black_scholes S K T r sigma option_type)).
Proof.
  unfold black_scholes. repeat split.
  - intros ->. rewrite py_div_zero. reflexivity.
  - intros HK Hq. rewrite py_div_ok by assumption. cbn [bind].
    rewrite math_log_nonpos by assumption. reflexivity.
  - intros HK Hq HT. rewrite py_div_ok by assumption. cbn [bind].
    rewrite math_log_ok by assumption. cbn [bind].
    rewrite math_sqrt_neg by assumption. reflexivity.
  - intros HK Hq HT Hz. rewrite py_div_ok by assumption. cbn [bind].
    rewrite math_log_ok by assumption. cbn [bind].
    rewrite math_sqrt_ok by assumption. cbn [bind].
    replace (sigma * sqrt T) with 0; [rewrite py_div_zero; reflexivity|].
    destruct Hz as [->| ->]; [ring|rewrite sqrt_0; ring].
  - intros HK Hq HT Hs Hkind. rewrite py_div_ok by assumption. cbn [bind].
    rewrite math_log_ok by assumption. cbn [bind].
    rewrite math_sqrt_ok by lra. cbn [bind].
    rewrite py_div_ok; cbn [bind].
    + destruct Hkind as [->| ->]; cbn; eexists; reflexivity.
    + pose proof (sqrt_lt_R0 T HT).
      apply Rmult_integral_contrapositive_currified; lra.
Qed.

Lemma analytic_pricer_domain_witness :
  black_scholes 100 0 1 0.05 0.2 "call" = Raise ZeroDivisionError
  /\ black_scholes (-100) 100 1 0.05 0.2 "call" = Raise (ValueError math_domain_error)
  /\ black_scholes 100 100 (-1) 0.05 0.2 "put" = Raise (ValueError math_domain_error)
  /\ black_scholes 100 100 1 0.05 0 "banana" = Raise ZeroDivisionError
  /\ returns (black_scholes 100 100 1 0.05 (-0.2) "put").
Proof.
  destruct (analytic_pricer_domain 100 0 1 0.05 0.2 "call") as [H1 _].
  destruct (analytic_pricer_domain (-100) 100 1 0.05 0.2 "call") as [_ [H2 _]].
  destruct (analytic_pricer_domain 100 100 (-1) 0.05 0.2 "put") as [_ [_ [H3 _]]].
  destruct (analytic_pricer_domain 100 100 1 0.05 0 "banana") as [_ [_ [_ [H4 _]]]].
  destruct (analytic_pricer_domain 100 100 1 0.05 (-0.2) "put") as [_ [_ [_ [_ H5]]]].
  split; [apply H1; reflexivity|].
  split; [apply H2; lra|].
  split; [apply H3; lra|].
  split; [apply H4; try lra; left; reflexivity|].
  apply H5; try lra. right. reflexivity.
Defined.

(** The copy of the pricer on the implied-volatility page agrees with the
    page-1 pricer on every input, the raised exception included, whenever
    the option type is ["call"] or ["put"]. *)
Theorem pricer_copies_agree (S K T r sigma : R) (option_type : string) :
  option_type = "call"%string \/ option_type = "put"%string ->
  black_scholes_price S K T r sigma option_type
  = black_scholes S K T r sigma option_type.
Proof.
  intros [->| ->]; unfold black_scholes_price, black_scholes;
    destruct (py_div S K) as [q|e]; cbn [bind]; try reflexivity;
    destruct (math_log q) as [l|e]; cbn [bind]; try reflexivity;
    destruct (math_sqrt T) as [sT|e]; cbn [bind]; try reflexivity;
    destruct (py_div _ (sigma * sT)) as [d1|e]; cbn [bind]; reflexivity.
Qed.

Lemma pricer_copies_agree_witness :
  black_scholes_price 100 100 1 0.05 0 "put" = black_scholes 100 100 1 0.05 0 "put".
Proof. apply (pricer_copies_agree 100 100 1 0.05 0 "put"). right. reflexivity. Defined.

(** ** The Monte Carlo pricer: paths and cashflows *)

Lemma length_zip_with {A B C : Type} (f : A -> B -> C) (xs : list A) (ys : list B) :
  List.length xs = List.length ys ->
  List.length (zip_with f xs ys) = List.length xs.
Proof.
  revert ys. induction xs as [|x xs IH]; intros [|y ys] H; cbn in *;
    try reflexivity; try discriminate.
  rewrite IH by congruence. reflexivity.
Qed.

Lemma Forall_zip_with {A B C : Type} (f : A -> B -> C) (P : A -> Prop)
  (Q : B -> Prop) (R' : C -> Prop) (xs : list A) (ys : list B) :
  (forall x y, P x -> Q y -> R' (f x y)) ->
  Forall P xs -> Forall Q ys -> Forall R' (zip_with f xs ys).
Proof.
  intros Hf Hx. revert ys. induction Hx as [|x xs Hx Hxs IH]; intros ys Hy; cbn.
  - constructor.
  - destruct Hy as [|y ys Hy Hys]; constructor; [apply Hf; assumption|apply IH; assumption].
Qed.

Section PathFacts.

Variable rng : nat -> nat -> R.
Variables (S0 r sigma dt : R) (m : nat).

Lemma length_path_column (t : nat) :
  List.length (path_column rng S0 r sigma dt m t) = m.
Proof.
  induction t as [|t IH]; cbn [path_column].
  - apply repeat_length.
  - rewrite length_zip_with; [exact IH|].
    rewrite IH. unfold standard_normal. rewrite !length_map, length_seq. reflexivity.
Qed.

Lemma Forall_path_column_pos (t : nat) :
  0 < S0 -> Forall (fun s => 0 < s) (path_column rng S0 r sigma dt m t).
Proof.
  intros HS. induction t as [|t IH]; cbn [path_column].
  - apply Forall_forall. intros x Hx. apply repeat_spec in Hx. subst x. exact HS.
  - apply (Forall_zip_with Rmult (fun s => 0 < s) (fun e => 0 < e)); [|exact IH|].
    + intros x y Hx Hy. apply Rmult_lt_0_compat; assumption.
    + apply Forall_forall. intros e He. apply in_map_iff in He.
      destruct He as [z [<- _]]. apply exp_pos.
Qed.

End PathFacts.

Lemma simulated_paths_positive_entry
  (rng : nat -> nat -> R) (S0 r sigma dt : R) (m t i : nat) :
  0 < S0 -> (i < m)%nat -> 0 < nth i (path_column rng S0 r sigma dt m t) 0.
Proof.
  intros HS Hi.
  pose proof (Forall_path_column_pos rng S0 r sigma dt m t HS) as H.
  rewrite Forall_forall in H. apply H. apply nth_In.
  rewrite length_path_column. exact Hi.
Qed.

(** The simulation keeps every trajectory positive: with a positive spot,
    whatever the normal draws are, every column of the path matrix has one
    entry per trajectory and every entry is positive. *)
Theorem simulated_paths_stay_positive
  (rng : nat -> nat -> R) (S0 r sigma dt : R) (m t i : nat) :
  0 < S0 -> (i < m)%nat ->
  List.length (path_column rng S0 r sigma dt m t) = m
  /\ 0 < nth i (path_column rng S0 r sigma dt m t) 0.
Proof.
  intros HS Hi. split; [apply length_path_column|].
  apply simulated_paths_positive_entry; assumption.
Qed.

Lemma simulated_paths_stay_positive_witness :
  List.length (path_column flat_then_down 100 0.08 0.4 1 1 2) = 1%nat
  /\ 0 < nth 0 (path_column flat_then_down 100 0.08 0.4 1 1 2) 0.
Proof.
  apply (simulated_paths_stay_positive flat_then_down 100 0.08 0.4 1 1 2 0); [lra|lia].
Defined.

Lemma length_scatter_any (v : list R) (idx : list nat) (vals : list R) :
  List.length (scatter v idx vals) = List.length v.
Proof.
  unfold scatter. revert v. induction (combine idx vals) as [|iv l IH]; intros v; cbn.
  - reflexivity.
  - rewrite IH. apply length_list_upd.
Qed.

Lemma length_put_step (lstsq : list (R * R * R) -> list R -> R * R * R)
  (K discount : R) (m : nat) (col payoff : list R) :
  List.length payoff = m ->
  List.length (put_step lstsq K discount m col payoff) = m.
Proof.
  intros Hlen. unfold put_step.
  destruct (Nat.eqb _ 0); [exact Hlen|].
  cbv zeta. rewrite length_map, length_combine, length_seq, length_scatter_any, Hlen.
  apply Nat.min_id.
Qed.

Section CashflowBounds.

Variable lstsq : list (R * R * R) -> list R -> R * R * R.
Variables (K discount : R).
Hypotheses (K_nonneg : 0 <= K) (discount_range : 0 < discount <= 1).

Lemma exercise_value_bounds (s : R) : 0 <= s -> 0 <= Rmax (K - s) 0 <= K.
Proof. intros Hs. unfold Rmax. destruct (Rle_dec (K - s) 0); lra. Qed.

Lemma discounted_bounds (c : R) : 0 <= c <= K -> 0 <= c * discount <= K.
Proof. intros Hc. split; nra. Qed.

Lemma put_step_bounds (m : nat) (col payoff : list R) :
  List.length payoff = m ->
  (forall i, (i < m)%nat -> 0 <= nth i col 0) ->
  Forall (fun c => 0 <= c <= K) payoff ->
  Forall (fun c => 0 <= c <= K) (put_step lstsq K discount m col payoff).
Proof.
  intros Hlen Hcol Hpay.
  destruct (in_the_money K m col) as [|i0 rest] eqn:E.
  - unfold put_step. fold (in_the_money K m col). rewrite E. exact Hpay.
  - assert (Hin : In i0 (in_the_money K m col)) by (rewrite E; left; reflexivity).
    apply filter_In in Hin. destruct Hin as [Hi0 HK0].
    apply in_seq in Hi0. apply Rltb_true in HK0.
    apply Forall_nth. intros k d0 Hk.
    rewrite length_put_step in Hk by exact Hlen.
    rewrite (nth_indep _ d0 0) by (rewrite length_put_step; assumption).
    rewrite put_step_itm; [|exact Hlen|exists i0; split; [lia|exact HK0]|exact Hk].
    destruct (_ && _)%bool.
    + apply exercise_value_bounds. apply Hcol. exact Hk.
    + apply discounted_bounds. rewrite Forall_forall in Hpay. apply Hpay.
      apply nth_In. rewrite Hlen. exact Hk.
Qed.

End CashflowBounds.

Lemma np_sum_bounds (K : R) (v : list R) :
  Forall (fun c => 0 <= c <= K) v -> 0 <= np_sum v <= K * INR (List.length v).
Proof.
  induction 1 as [|c v Hc Hv IH].
  - cbn. lra.
  - cbn [np_sum fold_right List.length]. rewrite S_INR. unfold np_sum in IH. lra.
Qed.

Lemma np_mean_bounds (K : R) (v : list R) :
  (0 < List.length v)%nat ->
  Forall (fun c => 0 <= c <= K) v -> 0 <= np_mean v <= K.
Proof.
  intros Hlen Hv. pose proof (np_sum_bounds K v Hv) as [Hlo Hhi].
  assert (Hn : 0 < INR (List.length v)) by (apply lt_0_INR; exact Hlen).
  unfold np_mean. split.
  - apply Rmult_le_pos; [exact Hlo|left; apply Rinv_0_lt_compat; exact Hn].
  - apply Rmult_le_reg_r with (INR (List.length v)); [exact Hn|].
    unfold Rdiv. rewrite Rmult_assoc, Rinv_l by lra. lra.
Qed.

Lemma np_sum_nonneg (v : list R) : Forall (fun c => 0 <= c) v -> 0 <= np_sum v.
Proof.
  induction 1 as [|c v Hc Hv IH]; cbn [np_sum fold_right]; [lra|].
  unfold np_sum in IH. lra.
Qed.

Lemma np_mean_nonneg (v : list R) :
  (0 < List.length v)%nat -> Forall (fun c => 0 <= c) v -> 0 <= np_mean v.
Proof.
  intros Hlen Hv.
  assert (Hn : 0 < INR (List.length v)) by (apply lt_0_INR; exact Hlen).
  pose proof (np_sum_nonneg v Hv) as Hs.
  unfold np_mean. apply Rmult_le_pos; [exact Hs|left; apply Rinv_0_lt_compat; exact Hn].
Qed.

Section PriceBounds.

Variable rng : nat -> nat -> R.
Variable lstsq : list (R * R * R) -> list R -> R * R * R.
Variables (S0 K r sigma dt discount : R) (m : nat).
Hypotheses (S0_pos : 0 < S0) (K_nonneg : 0 <= K) (discount_range : 0 < discount <= 1).

Lemma terminal_put_cashflow_bounds (last : list R) :
  Forall (fun s => 0 < s) last ->
  Forall (fun c => 0 <= c <= K) (map (fun s => Rmax (K - s) 0) last).
Proof.
  intros H. rewrite Forall_forall in *. intros c Hc.
  apply in_map_iff in Hc. destruct Hc as [s [<- Hs]].
  apply exercise_value_bounds; [exact K_nonneg|]. left. apply H. exact Hs.
Qed.

Lemma backward_pass_put_bounds (option_type : string) (n : nat) (payoff : list R) :
  String.eqb option_type "call" = false ->
  List.length payoff = m ->
  Forall (fun c => 0 <= c <= K) payoff ->
  List.length (backward_pass rng lstsq S0 K r sigma dt discount option_type m n payoff) = m
  /\ Forall (fun c => 0 <= c <= K)
       (backward_pass rng lstsq S0 K r sigma dt discount option_type m n payoff).
Proof.
  intros Hkind. unfold backward_pass.
  generalize (rev (seq 1 (n - 1))) as ts. intros ts. revert payoff.
  induction ts as [|t ts IH]; intros payoff Hlen Hpay; cbn [fold_left].
  - split; assumption.
  - apply IH.
    + unfold backward_step. rewrite Hkind. apply length_put_step. exact Hlen.
    + unfold backward_step. rewrite Hkind.
      apply put_step_bounds; try assumption.
      intros i Hi. left.
      apply (simulated_paths_positive_entry rng S0 r sigma dt m t i S0_pos Hi).
Qed.

Lemma backward_pass_call_nonneg (n : nat) (payoff : list R) :
  List.length payoff = m ->
  Forall (fun c => 0 <= c) payoff ->
  List.length (backward_pass rng lstsq S0 K r sigma dt discount "call" m n payoff) = m
  /\ Forall (fun c => 0 <= c)
       (backward_pass rng lstsq S0 K r sigma dt discount "call" m n payoff).
Proof.
  intros Hlen Hpay. rewrite backward_pass_call. split.
  - rewrite length_map. exact Hlen.
  - rewrite Forall_forall in *. intros c Hc.
    apply in_map_iff in Hc. destruct Hc as [c0 [<- Hc0]].
    apply Rmult_le_pos; [apply Hpay; exact Hc0|]. apply pow_le. lra.
Qed.

End PriceBounds.

Lemma one_step_discount_range (T r : R) (N : Z) :
  (1 <= N)%Z -> 0 <= r -> 0 <= T -> 0 < exp (- r * (T / IZR N)) <= 1.
Proof.
  intros HN Hr HT. split; [apply exp_pos|].
  assert (0 <= T / IZR N).
  { apply Rmult_le_pos; [exact HT|]. left. apply Rinv_0_lt_compat, IZR_lt. lia. }
  assert (Hx : - r * (T / IZR N) <= 0) by nra.
  rewrite <- exp_0. destruct Hx as [Hlt|Heq]; [left; apply exp_increasing; exact Hlt|].
  rewrite Heq. lra.
Qed.

Lemma lsm_price_in_range
  (rng : nat -> nat -> R) (lstsq : list (R * R * R) -> list R -> R * R * R)
  (S0 K T r sigma : R) (option_type : string) (simulations steps : Z) :
  (1 <= simulations)%Z -> (1 <= steps)%Z ->
  0 < S0 -> 0 <= K -> 0 <= r -> 0 <= T ->
  exists price : R,
    lsm_american_option_price rng lstsq S0 K T r sigma option_type simulations steps
    = Ok price
    /\ 0 <= price
    /\ (option_type <> "call"%string -> price <= K).
Proof.
  intros Hm Hn HS HK Hr HT.
  pose proof (one_step_discount_range T r steps Hn Hr HT) as Hd.
  rewrite lsm_eval by lia. cbv zeta.
  set (dt := T / IZR steps) in *. set (m := Z.to_nat simulations).
  set (n := Z.to_nat steps).
  assert (Hmpos : (0 < m)%nat) by (unfold m; lia).
  eexists. split; [reflexivity|].
  destruct (String.eqb option_type "call") eqn:E.
  - apply String.eqb_eq in E. subst option_type.
    destruct (backward_pass_call_nonneg rng lstsq S0 K r sigma dt (exp (- r * dt)) m Hd n
                (terminal_cashflow "call" K (path_column rng S0 r sigma dt m n)))
      as [Hlen Hall].
    + unfold terminal_cashflow. cbn [String.eqb Ascii.eqb Bool.eqb].
      rewrite length_map. apply length_path_column.
    + unfold terminal_cashflow. cbn [String.eqb Ascii.eqb Bool.eqb].
      rewrite Forall_forall. intros c Hc. apply in_map_iff in Hc.
      destruct Hc as [s [<- _]]. apply Rmax_r.
    + split; [|intros Hc; contradiction].
      apply Rmult_le_pos; [|lra]. apply np_mean_nonneg; [rewrite Hlen|]; assumption.
  - destruct (backward_pass_put_bounds rng lstsq S0 K r sigma dt (exp (- r * dt)) m
                HS HK Hd option_type n
                (terminal_cashflow option_type K (path_column rng S0 r sigma dt m n)) E)
      as [Hlen Hall].
    + unfold terminal_cashflow. rewrite E, length_map. apply length_path_column.
    + unfold terminal_cashflow. rewrite E.
      apply terminal_put_cashflow_bounds; [exact HK|].
      apply Forall_path_column_pos. exact HS.
    + pose proof (np_mean_bounds K _ ltac:(rewrite Hlen; exact Hmpos) Hall) as [Hlo Hhi].
      split; [apply Rmult_le_pos; lra|]. intros _.
      assert (np_mean (backward_pass rng lstsq S0 K r sigma dt (exp (- r * dt))
                         option_type m n
                         (terminal_cashflow option_type K
                            (path_column rng S0 r sigma dt m n)))
              * exp (- r * dt)
              <= K * 1) by (apply Rmult_le_compat; lra).
      lra.
Qed.

(** Whatever the draws and whatever the regression returns, the Monte Carlo
    price of a run with at least one trajectory and one step, a positive
    spot, K >= 0, r >= 0 and T >= 0 is never negative, and for every option
    type other than ["call"] it never exceeds the strike. *)
Theorem monte_carlo_price_bounds
  (rng : nat -> nat -> R) (lstsq : list (R * R * R) -> list R -> R * R * R)
  (S0 K T r sigma : R) (option_type : string) (simulations steps : Z) :
  (1 <= simulations)%Z -> (1 <= steps)%Z ->
  0 < S0 -> 0 <= K -> 0 <= r -> 0 <= T ->
  exists price : R,
    lsm_american_option_price rng lstsq S0 K T r sigma option_type simulations steps
    = Ok price
    /\ 0 <= price
    /\ (option_type <> "call"%string -> price <= K).
Proof. apply lsm_price_in_range. Qed.

Lemma monte_carlo_price_bounds_witness :
  exists price : R,
    lsm_american_option_price flat_then_down (fun _ _ => (0, 0, 0))
      100 100 2 0.08 0.4 "put" 1 2 = Ok price
    /\ 0 <= price
    /\ price <= 100.
Proof.
  destruct (monte_carlo_price_bounds flat_then_down (fun _ _ => (0, 0, 0))
              100 100 2 0.08 0.4 "put" 1 2) as [price [H1 [H2 H3]]];
    try lia; try lra.
  exists price. split; [exact H1|]. split; [exact H2|]. apply H3. discriminate.
Defined.

(** The exercise rule of the put branch.  At a step where at least one
    trajectory is in the money, a trajectory receives its immediate exercise
    value max(K - S_t, 0), undiscounted, exactly when it is in the money and
    that value exceeds the continuation value fitted by the regression;
    every other trajectory, in or out of the money, has its cashflow
    multiplied by the one-step discount. *)
Theorem put_exercise_rule
  (lstsq : list (R * R * R) -> list R -> R * R * R)
  (K discount : R) (m : nat) (col payoff : list R) (k : nat) :
  List.length payoff = m ->
  (exists i, (i < m)%nat /\ nth i col 0 < K) ->
  (k < m)%nat ->
  let S_t := nth k col 0 in
  let continuation := fitted_continuation lstsq K discount m col payoff S_t in
  let after := nth k (put_step lstsq K discount m col payoff) 0 in
  (S_t < K /\ continuation < Rmax (K - S_t) 0 -> after = Rmax (K - S_t) 0)
  /\ (~ (S_t < K /\ continuation < Rmax (K - S_t) 0) ->
      after = nth k payoff 0 * discount)
  /\ List.length (put_step lstsq K discount m col payoff) = m.
Proof.
  intros Hlen Hitm Hk S_t continuation after.
  assert (Hafter := put_step_itm lstsq K discount m col payoff k Hlen Hitm Hk).
  fold S_t continuation after in Hafter.
  split; [|split].
  - intros [H1 H2]. rewrite Hafter.
    apply Rltb_true in H1. apply Rltb_true in H2. rewrite H1, H2. reflexivity.
  - intros Hnot. rewrite Hafter.
    destruct (Rltb S_t K) eqn:E1; [|reflexivity].
    destruct (Rltb continuation (Rmax (K - S_t) 0)) eqn:E2; [|reflexivity].
    exfalso. apply Hnot. split; apply Rltb_true; assumption.
  - apply length_put_step. exact Hlen.
Qed.

Lemma put_exercise_rule_witness :
  nth 0 (put_step (fun _ _ => (0, 0, 0)) 100 (9 / 10) 2 [90; 110] [5; 0]) 0
  = Rmax (100 - 90) 0
  /\ nth 1 (put_step (fun _ _ => (0, 0, 0)) 100 (9 / 10) 2 [90; 110] [5; 0]) 0
     = 0 * (9 / 10).
Proof.
  assert (Hitm : exists i, (i < 2)%nat /\ nth i [90; 110] 0 < 100).
  { exists 0%nat. split; [lia|cbn; lra]. }
  destruct (put_exercise_rule (fun _ _ => (0, 0, 0)) 100 (9 / 10) 2 [90; 110] [5; 0] 0
              eq_refl Hitm ltac:(lia)) as [H0 _].
  destruct (put_exercise_rule (fun _ _ => (0, 0, 0)) 100 (9 / 10) 2 [90; 110] [5; 0] 1
              eq_refl Hitm ltac:(lia)) as [_ [H1 _]].
  split.
  - apply H0. cbn. unfold fitted_continuation. cbn [fst snd].
    split; [lra|]. unfold Rmax. destruct (Rle_dec (100 - 90) 0); lra.
  - apply H1. cbn. intros [Hlt _]. lra.
Defined.

(** ** The pages: what reaches the pricers and what is shown

    Each page reads its widgets, converts them, and on a button press runs
    one handler inside [try: ... except Exception:].  A handler either
    renders a number ([st.markdown], the two-decimal formatting left out) or
    an error box ([st.error]). *)

Inductive display : Type :=
| Markdown (value : R)
| StError (msg : string).

(** A Python dictionary with string keys, in insertion order; a missing key
    is [None] here and [KeyError] in the program. *)
Fixpoint dict_get (d : list (string * string)) (key : string) : option string :=
  match d with
  | [] => None
  | (k, v) :: tl => if String.eqb key k then Some v else dict_get tl key
  end.

Definition option_label_map : list (string * string) :=
  [("Call", "call"); ("Put", "put")]%string.

Definition display_to_yf : list (string * string) :=
  [("1D", "1d"); ("5D", "5d"); ("1M", "1mo"); ("6M", "6mo");
   ("YTD", "ytd"); ("1Y", "1y"); ("5Y", "5y"); ("Max", "max")]%string.

Definition range_to_interval : list (string * string) :=
  [("1d", "5m"); ("5d", "15m"); ("1mo", "1h"); ("6mo", "1d");
   ("ytd", "1d"); ("1y", "1d"); ("5y", "1wk"); ("max", "1mo")]%string.

(** The options of the chart-range select box. *)
Definition chart_range_options : list string :=
  ["1D"; "5D"; "1M"; "6M"; "YTD"; "1Y"; "5Y"; "Max"]%string.

(** [yf_range = display_to_yf[chart_range_display]] and
    [interval = range_to_interval[yf_range]]. *)
Definition chart_request (chart_range_display : string) : option (string * string) :=
  match dict_get display_to_yf chart_range_display with
  | Some yf_range =>
      match dict_get range_to_interval yf_range with
      | Some interval => Some (yf_range, interval)
      | None => None
      end
  | None => None
  end.

(** [yf_range in ["1d", "5d"]]: the histories cut to trading hours. *)
Definition intraday (yf_range : string) : bool :=
  existsb (String.eqb yf_range) ["1d"; "5d"]%string.

Definition fill_in_price : string :=
  "Please fill in all inputs before calculating the option price.".
Definition fill_in_simulation : string :=
  "Please fill in all inputs before running the simulation.".
Definition fill_in_volatility : string :=
  "Please fill in all inputs before estimating implied volatility.".
Definition not_retrieved : string :=
  "Error: Stock not found or price could not be retrieved. Please check the ticker symbol and try again.".
Definition unable_to_calculate : string :=
  "Error: Unable to calculate. Please check your inputs and try again.".
Definition estimation_failed : string :=
  "Error: Estimation failed. Please check inputs and try again.".
Definition no_volatility : string :=
  "Could not estimate implied volatility. Try adjusting inputs.".

Definition is_zero (x : R) : bool := if Req_EM_T x 0 then true else false.

(** Page 1, the handler of "Calculate Option Price".  [regularMarketPrice]
    is what [stock.info.get] returns; [r] and [sigma] are the percentages
    over 100. *)
Definition page1_calculate (regularMarketPrice : option R)
  (strike T r sigma : R) (option_type : string) : display :=
  match regularMarketPrice with
  | None => StError not_retrieved
  | Some latest_price =>
      if (is_zero strike || is_zero T || is_zero r || is_zero sigma)%bool
      then StError fill_in_price
      else match black_scholes latest_price strike T r sigma option_type with
           | Ok option_price => Markdown option_price
           | Raise _ => StError not_retrieved
           end
  end.

(** Pages 2 and 3 call their pricers inside [try: ... except Exception:].
    When it runs, a pricer can fail in more ways than its arithmetic over
    the reals shows: [np.zeros] raises [MemoryError] when the arrays do not
    fit, [**] and [math.exp] raise [OverflowError].  The handlers treat
    every exception alike, so they are modelled over the call as it runs:
    [pricer] returns a value ([inl]) or raises an exception ([inr]) of a
    class left open. *)

(** Page 2, the handler of "Run Monte Carlo Simulation"; [pricer] is the
    call of [lsm_american_option_price]. *)
Definition page2_run {Exception : Type}
  (pricer : R -> R -> R -> R -> R -> string -> Z -> Z -> R + Exception)
  (regularMarketPrice : option R) (strike T r sigma : R) (option_type : string)
  (simulations steps : Z) : display :=
  match regularMarketPrice with
  | None => StError not_retrieved
  | Some latest_price =>
      if (is_zero strike || is_zero T || is_zero r || is_zero sigma
          || (simulations =? 0)%Z || (steps =? 0)%Z)%bool
      then StError fill_in_simulation
      else match pricer latest_price strike T r sigma option_type simulations steps with
           | inl mc_price => Markdown mc_price
           | inr _ => StError not_retrieved
           end
  end.

(** Page 3, the handler of "Calculate Option Price"; [T] is the number of
    days over 365 and [pricer] is the call of [binomial_tree]. *)
Definition page3_calculate {Exception : Type}
  (pricer : R -> R -> R -> R -> R -> Z -> string -> R + Exception)
  (regularMarketPrice : option R)
  (strike T r sigma : R) (steps : Z) (option_type : string) : display :=
  match regularMarketPrice with
  | None => StError unable_to_calculate
  | Some latest_price =>
      if (is_zero strike || is_zero T || is_zero r || is_zero sigma
          || (steps =? 0)%Z)%bool
      then StError fill_in_price
      else match pricer latest_price strike T r sigma steps option_type with
           | inl bt_price => Markdown bt_price
           | inr _ => StError unable_to_calculate
           end
  end.

(** A pricer of this development as a call: its value, or what it raises. *)
Definition as_call {A : Type} (c : result A) : A + exn :=
  match c with
  | Ok a => inl a
  | Raise e => inr e
  end.

(** Page 4, the handler of "Estimate Implied Volatility"; [price] is the
    quote the page has already found to be present. *)
Definition page4_estimate (brentq : (R -> result R) -> R -> R -> result R)
  (price strike T r market_price : R) (option_type : string) : display :=
  if (is_zero strike || is_zero T || is_zero r || is_zero market_price)%bool
  then StError fill_in_volatility
  else match implied_volatility brentq price strike T r market_price option_type with
       | Ok (Some iv) => Markdown (iv * 100)
       | Ok None => StError no_volatility
       | Raise _ => StError estimation_failed
       end.

Lemma is_zero_true (x : R) : is_zero x = true <-> x = 0.
Proof. unfold is_zero. destruct (Req_EM_T x 0); split; intros; (assumption || discriminate || reflexivity || contradiction). Qed.

Lemma is_zero_false (x : R) : is_zero x = false <-> x <> 0.
Proof. unfold is_zero. destruct (Req_EM_T x 0); split; intros; (assumption || discriminate || reflexivity || contradiction). Qed.

Lemma percent_zero (x : R) : x / 100 = 0 <-> x = 0.
Proof. split; intros H; lra. Qed.

Lemma option_label_map_values (option_display option_type : string) :
  dict_get option_label_map option_display = Some option_type ->
  option_type = "call"%string \/ option_type = "put"%string.
Proof.
  unfold option_label_map. cbn [dict_get].
  destruct (String.eqb option_display "Call"); [intros H; injection H as <-; left; reflexivity|].
  destruct (String.eqb option_display "Put"); [intros H; injection H as <-; right; reflexivity|].
  discriminate.
Qed.

(** Page 1.  With the widgets' bounds (strike, maturity, rate and volatility
    not negative) and an option type taken from the label map, the handler
    shows: the retrieval error when there is no quote; the fill-in error as
    soon as the strike, the maturity, the rate or the volatility is zero (a
    zero rate cannot be priced from the page); the closed-form price when
    the quote is positive; and the retrieval error again, for what is a math
    domain error of the pricer, when the quote is not positive. *)
Theorem page1_outcomes (regularMarketPrice : option R)
  (strike T r_percent sigma_percent : R) (option_display option_type : string) :
  0 <= strike -> 0 <= T -> 0 <= r_percent -> 0 <= sigma_percent ->
  dict_get option_label_map option_display = Some option_type ->
  let r := r_percent / 100 in
  let sigma := sigma_percent / 100 in
  let shown := page1_calculate regularMarketPrice strike T r sigma option_type in
  (regularMarketPrice = None -> shown = StError not_retrieved)
  /\ (forall latest_price, regularMarketPrice = Some latest_price ->
      strike = 0 \/ T = 0 \/ r_percent = 0 \/ sigma_percent = 0 ->
      shown = StError fill_in_price)
  /\ (forall latest_price, regularMarketPrice = Some latest_price ->
      strike <> 0 -> T <> 0 -> r_percent <> 0 -> sigma_percent <> 0 ->
      (0 < latest_price ->
       shown = Markdown (if String.eqb option_type "call"
                         then call_spec latest_price strike T r sigma
                         else put_spec latest_price strike T r sigma))
      /\ (latest_price <= 0 -> shown = StError not_retrieved)).
Proof.
  intros HK HT Hr Hs Hmap r sigma shown.
  pose proof (option_label_map_values _ _ Hmap) as Hkind.
  split; [|split].
  - intros ->. reflexivity.
  - intros S -> Hz. unfold shown, page1_calculate.
    replace (is_zero strike || is_zero T || is_zero r || is_zero sigma)%bool with true;
      [reflexivity|].
    symmetry. rewrite !orb_true_iff, !is_zero_true. unfold r, sigma.
    rewrite !percent_zero. tauto.
  - intros S -> HK0 HT0 Hr0 Hs0.
    assert (Hguard : (is_zero strike || is_zero T || is_zero r || is_zero sigma)%bool = false).
    { rewrite !orb_false_iff, !is_zero_false. unfold r, sigma. rewrite !percent_zero. tauto. }
    unfold shown, page1_calculate. rewrite Hguard.
    assert (Hsig : 0 < sigma) by (unfold sigma; lra).
    split.
    + intros HS. rewrite black_scholes_eval by lra.
      destruct Hkind as [->| ->]; reflexivity.
    + intros HS. unfold black_scholes. rewrite py_div_ok by lra. cbn [bind].
      rewrite math_log_nonpos; [reflexivity|].
      assert (0 < / strike) by (apply Rinv_0_lt_compat; lra). unfold Rdiv. nra.
Qed.

Lemma page1_outcomes_witness :
  page1_calculate (Some 100) 100 1 (5 / 100) (20 / 100) "call"
  = Markdown (call_spec 100 100 1 (5 / 100) (20 / 100))
  /\ page1_calculate (Some 100) 100 1 (0 / 100) (20 / 100) "call"
     = StError fill_in_price.
Proof.
  destruct (page1_outcomes (Some 100) 100 1 5 20 "Call" "call") as [_ [_ H1]];
    try lra; [reflexivity|].
  destruct (page1_outcomes (Some 100) 100 1 0 20 "Call" "call") as [_ [H2 _]];
    try lra; [reflexivity|].
  split.
  - destruct (H1 100 eq_refl) as [Hshown _]; try lra. apply Hshown. lra.
  - apply (H2 100 eq_refl). right. right. left. reflexivity.
Defined.

(** Page 3.  With the widgets' bounds (at least one day, a volatility of at
    least 0.1%, at least one step, strike and rate not negative) and a quote
    present, the fill-in error is shown exactly when the strike or the rate
    is zero: the days, the volatility and the steps can never trigger it,
    and a zero rate is refused.  Past the guard the pricer is called with
    the quote, the strike, days/365, the two percentages over 100 and the
    steps: the page shows the value it returns, and "Unable to calculate"
    for whatever it raises, a [MemoryError] or an [OverflowError] as well as
    an error of its arithmetic. *)
Theorem page3_outcomes (Exception : Type)
  (pricer : R -> R -> R -> R -> R -> Z -> string -> R + Exception)
  (latest_price strike r_percent sigma_percent : R)
  (T_days steps : Z) (option_type : string) :
  0 <= strike -> (1 <= T_days)%Z -> 0 <= r_percent -> 0.1 <= sigma_percent ->
  (1 <= steps)%Z ->
  let T := IZR T_days / 365 in
  let r := r_percent / 100 in
  let sigma := sigma_percent / 100 in
  let shown := page3_calculate pricer (Some latest_price) strike T r sigma steps
                 option_type in
  (shown = StError fill_in_price <-> strike = 0 \/ r_percent = 0)
  /\ (strike <> 0 -> r_percent <> 0 ->
      match pricer latest_price strike T r sigma steps option_type with
      | inl bt_price => shown = Markdown bt_price
      | inr _ => shown = StError unable_to_calculate
      end).
Proof.
  intros HK HT Hr Hs Hn T r sigma shown.
  assert (HTpos : 0 < T).
  { unfold T. apply Rdiv_lt_0_compat; [apply IZR_lt; lia|lra]. }
  assert (Hsig : 0 < sigma) by (unfold sigma; lra).
  assert (Hguard : (is_zero strike || is_zero T || is_zero r || is_zero sigma
                    || (steps =? 0)%Z)%bool = (is_zero strike || is_zero r)%bool).
  { replace (is_zero T) with false by (symmetry; apply is_zero_false; lra).
    replace (is_zero sigma) with false by (symmetry; apply is_zero_false; lra).
    replace (steps =? 0)%Z with false by (symmetry; apply Z.eqb_neq; lia).
    rewrite !orb_false_r. reflexivity. }
  assert (Hzero : strike = 0 \/ r_percent = 0 -> shown = StError fill_in_price).
  { intros Hz. unfold shown, page3_calculate. rewrite Hguard.
    replace (is_zero strike || is_zero r)%bool with true; [reflexivity|].
    symmetry. rewrite orb_true_iff, !is_zero_true. unfold r. rewrite percent_zero. exact Hz. }
  assert (Hpast : strike <> 0 -> r_percent <> 0 ->
      match pricer latest_price strike T r sigma steps option_type with
      | inl bt_price => shown = Markdown bt_price
      | inr _ => shown = StError unable_to_calculate
      end).
  { intros HK0 Hr0. unfold shown, page3_calculate. rewrite Hguard.
    replace (is_zero strike || is_zero r)%bool with false.
    - destruct (pricer latest_price strike T r sigma steps option_type); reflexivity.
    - symmetry. rewrite orb_false_iff, !is_zero_false. unfold r. rewrite percent_zero.
      split; assumption. }
  split; [|exact Hpast].
  split; [|exact Hzero].
  intros Hshown.
  destruct (Req_dec strike 0) as [H0|H0]; [left; exact H0|].
  destruct (Req_dec r_percent 0) as [H1|H1]; [right; exact H1|].
  specialize (Hpast H0 H1).
  destruct (pricer latest_price strike T r sigma steps option_type);
    rewrite Hpast in Hshown; discriminate.
Qed.

Lemma page3_outcomes_witness :
  (exists bt_price,
     binomial_tree 100 100 (IZR 30 / 365) (5 / 100) (20 / 100) 50 "put" = Ok bt_price
     /\ page3_calculate
          (fun S K T r sigma N option_type =>
             as_call (binomial_tree S K T r sigma N option_type))
          (Some 100) 100 (IZR 30 / 365) (5 / 100) (20 / 100) 50 "put"
        = Markdown bt_price)
  /\ page3_calculate (fun _ _ _ _ _ _ _ => inr "MemoryError"%string)
       (Some 100) 100 (IZR 30 / 365) (5 / 100) (20 / 100) 200000 "put"
     = StError unable_to_calculate
  /\ page3_calculate (fun _ _ _ _ _ _ _ => inr "MemoryError"%string)
       (Some 100) 100 (IZR 30 / 365) 0 (20 / 100) 50 "put"
     = StError fill_in_price.
Proof.
  split; [|split].
  - destruct (page3_outcomes exn
                (fun S K T r sigma N option_type =>
                   as_call (binomial_tree S K T r sigma N option_type))
                100 100 5 20 30 50 "put") as [_ H]; try lra; try lia.
    specialize (H ltac:(lra) ltac:(lra)). cbv beta in H.
    rewrite binomial_tree_eval in H |- * by
      first [lia | lra | apply Rdiv_lt_0_compat; [apply IZR_lt; lia|lra]].
    eexists. split; [reflexivity|exact H].
  - destruct (page3_outcomes string (fun _ _ _ _ _ _ _ => inr "MemoryError"%string)
                100 100 5 20 30 200000 "put") as [_ H]; try lra; try lia.
    apply H; lra.
  - destruct (page3_outcomes string (fun _ _ _ _ _ _ _ => inr "MemoryError"%string)
                100 100 0 20 30 50 "put") as [H _]; try lra; try lia.
    replace (0 / 100) with 0 in H by lra.
    apply H. right. reflexivity.
Defined.

(** Page 2.  With the widgets' bounds (at least 1000 simulations and 10
    steps; strike, maturity, rate and volatility not negative) and a quote
    present, the fill-in error is shown exactly when the strike, the
    maturity, the rate or the volatility is zero: the two counts can never
    trigger it.  Past the guard the page shows the value the pricer returns,
    and for whatever the pricer raises the same message as for a missing
    quote. *)
Theorem page2_outcomes (Exception : Type)
  (pricer : R -> R -> R -> R -> R -> string -> Z -> Z -> R + Exception)
  (latest_price strike T r_percent sigma_percent : R) (option_type : string)
  (simulations steps : Z) :
  0 <= strike -> 0 <= T -> 0 <= r_percent -> 0 <= sigma_percent ->
  (1000 <= simulations)%Z -> (10 <= steps)%Z ->
  let r := r_percent / 100 in
  let sigma := sigma_percent / 100 in
  let shown := page2_run pricer (Some latest_price) strike T r sigma option_type
                 simulations steps in
  (shown = StError fill_in_simulation
   <-> strike = 0 \/ T = 0 \/ r_percent = 0 \/ sigma_percent = 0)
  /\ (strike <> 0 -> T <> 0 -> r_percent <> 0 -> sigma_percent <> 0 ->
      match pricer latest_price strike T r sigma option_type simulations steps with
      | inl mc_price => shown = Markdown mc_price
      | inr _ =>
          shown = StError not_retrieved
          /\ shown = page2_run pricer None strike T r sigma option_type simulations steps
      end).
Proof.
  intros HK HT Hr Hs Hm Hn r sigma shown.
  assert (Hguard : (is_zero strike || is_zero T || is_zero r || is_zero sigma
                    || (simulations =? 0)%Z || (steps =? 0)%Z)%bool
                   = (is_zero strike || is_zero T || is_zero r || is_zero sigma)%bool).
  { replace (simulations =? 0)%Z with false by (symmetry; apply Z.eqb_neq; lia).
    replace (steps =? 0)%Z with false by (symmetry; apply Z.eqb_neq; lia).
    rewrite !orb_false_r. reflexivity. }
  assert (Hzero : strike = 0 \/ T = 0 \/ r_percent = 0 \/ sigma_percent = 0 ->
                  shown = StError fill_in_simulation).
  { intros Hz. unfold shown, page2_run. rewrite Hguard.
    replace (is_zero strike || is_zero T || is_zero r || is_zero sigma)%bool with true;
      [reflexivity|].
    symmetry. rewrite !orb_true_iff, !is_zero_true. unfold r, sigma.
    rewrite !percent_zero. tauto. }
  assert (Hpast : strike <> 0 -> T <> 0 -> r_percent <> 0 -> sigma_percent <> 0 ->
      match pricer latest_price strike T r sigma option_type simulations steps with
      | inl mc_price => shown = Markdown mc_price
      | inr _ =>
          shown = StError not_retrieved
          /\ shown = page2_run pricer None strike T r sigma option_type simulations steps
      end).
  { intros HK0 HT0 Hr0 Hs0. unfold shown, page2_run. rewrite Hguard.
    replace (is_zero strike || is_zero T || is_zero r || is_zero sigma)%bool with false.
    - destruct (pricer latest_price strike T r sigma option_type simulations steps);
        [reflexivity|split; reflexivity].
    - symmetry. rewrite !orb_false_iff, !is_zero_false. unfold r, sigma.
      rewrite !percent_zero. tauto. }
  split; [|exact Hpast].
  split; [|exact Hzero].
  intros Hshown.
  destruct (Req_dec strike 0) as [H0|H0]; [tauto|].
  destruct (Req_dec T 0) as [H1|H1]; [tauto|].
  destruct (Req_dec r_percent 0) as [H2|H2]; [tauto|].
  destruct (Req_dec sigma_percent 0) as [H3|H3]; [tauto|].
  specialize (Hpast H0 H1 H2 H3).
  destruct (pricer latest_price strike T r sigma option_type simulations steps);
    [|destruct Hpast as [Hpast _]]; rewrite Hpast in Hshown; discriminate.
Qed.

Lemma page2_outcomes_witness :
  (exists mc_price,
     lsm_american_option_price flat_then_down (fun _ _ => (0, 0, 0))
       100 100 1 (5 / 100) (20 / 100) "put" 1000 10 = Ok mc_price
     /\ page2_run
          (fun S0 K T r sigma option_type simulations steps =>
             as_call (lsm_american_option_price flat_then_down (fun _ _ => (0, 0, 0))
                        S0 K T r sigma option_type simulations steps))
          (Some 100) 100 1 (5 / 100) (20 / 100) "put" 1000 10
        = Markdown mc_price)
  /\ page2_run (fun _ _ _ _ _ _ _ _ => inr "MemoryError"%string)
       (Some 100) 100 1 (5 / 100) (20 / 100) "put" 1000 10
     = StError not_retrieved.
Proof.
  split.
  - destruct (page2_outcomes exn
                (fun S0 K T r sigma option_type simulations steps =>
                   as_call (lsm_american_option_price flat_then_down
                              (fun _ _ => (0, 0, 0))
                              S0 K T r sigma option_type simulations steps))
                100 100 1 5 20 "put" 1000 10) as [_ H]; try lra; try lia.
    specialize (H ltac:(lra) ltac:(lra) ltac:(lra) ltac:(lra)). cbv beta in H.
    rewrite lsm_eval in H |- * by lia. cbv zeta in H |- *.
    eexists. split; [reflexivity|exact H].
  - destruct (page2_outcomes string (fun _ _ _ _ _ _ _ _ => inr "MemoryError"%string)
                100 100 1 5 20 "put" 1000 10) as [_ H]; try lra; try lia.
    apply H; lra.
Defined.

(** Page 4.  With a [brentq] that keeps its contract, a positive quote and
    the widgets' bounds (at least one day, a market price of at least 0.01,
    strike and rate not negative), the handler shows the fill-in error
    exactly when the strike or the rate is zero; otherwise it shows a
    volatility of the bracket, times 100, when the objective changes sign
    over [1e-6, 5.0], and the "could not estimate" error when it does not.
    The "estimation failed" error is never shown. *)
Theorem page4_outcomes
  (brentq : (R -> result R) -> R -> R -> result R) (xtol : R)
  (price strike r_percent market_price : R) (T_days : Z) (option_type : string) :
  brentq_contract brentq xtol ->
  0 < price -> 0 <= strike -> (1 <= T_days)%Z -> 0 <= r_percent ->
  0.01 <= market_price ->
  let T := IZR T_days / 365 in
  let r := r_percent / 100 in
  let f := objective_value price strike T r market_price option_type in
  let shown := page4_estimate brentq price strike T r market_price option_type in
  (strike = 0 \/ r_percent = 0 -> shown = StError fill_in_volatility)
  /\ (strike <> 0 -> r_percent <> 0 -> f 1e-6 * f 5.0 <= 0 ->
      exists iv, shown = Markdown (iv * 100) /\ 1e-6 <= iv <= 5.0)
  /\ (strike <> 0 -> r_percent <> 0 -> 0 < f 1e-6 * f 5.0 ->
      shown = StError no_volatility)
  /\ shown <> StError estimation_failed.
Proof.
  intros Hb HS HK HT Hr Hmp T r f shown.
  assert (HTpos : 0 < T).
  { unfold T. apply Rdiv_lt_0_compat; [apply IZR_lt; lia|lra]. }
  assert (Hguard : (is_zero strike || is_zero T || is_zero r || is_zero market_price)%bool
                   = (is_zero strike || is_zero r)%bool).
  { replace (is_zero T) with false by (symmetry; apply is_zero_false; lra).
    replace (is_zero market_price) with false by (symmetry; apply is_zero_false; lra).
    rewrite !orb_false_r. reflexivity. }
  assert (Hzero : strike = 0 \/ r_percent = 0 -> shown = StError fill_in_volatility).
  { intros Hz. unfold shown, page4_estimate. rewrite Hguard.
    replace (is_zero strike || is_zero r)%bool with true; [reflexivity|].
    symmetry. rewrite orb_true_iff, !is_zero_true. unfold r. rewrite percent_zero. exact Hz. }
  assert (Hpast : strike <> 0 -> r_percent <> 0 ->
                  shown = match implied_volatility brentq price strike T r market_price
                                  option_type with
                          | Ok (Some iv) => Markdown (iv * 100)
                          | Ok None => StError no_volatility
                          | Raise _ => StError estimation_failed
                          end).
  { intros HK0 Hr0. unfold shown, page4_estimate. rewrite Hguard.
    replace (is_zero strike || is_zero r)%bool with false; [reflexivity|].
    symmetry. rewrite orb_false_iff, !is_zero_false. unfold r. rewrite percent_zero.
    split; assumption. }
  assert (Hroot : strike <> 0 -> r_percent <> 0 -> f 1e-6 * f 5.0 <= 0 ->
                  exists iv, shown = Markdown (iv * 100) /\ 1e-6 <= iv <= 5.0).
  { intros HK0 Hr0 Hsign. rewrite (Hpast HK0 Hr0).
    destruct (implied_volatility_root brentq xtol Hb price strike T r market_price
                option_type HS ltac:(lra) HTpos Hsign) as [root [z [H1 [H2 _]]]].
    rewrite H1. exists root. split; [reflexivity|exact H2]. }
  assert (Hnone : strike <> 0 -> r_percent <> 0 -> 0 < f 1e-6 * f 5.0 ->
                  shown = StError no_volatility).
  { intros HK0 Hr0 Hsign. rewrite (Hpast HK0 Hr0).
    rewrite (implied_volatility_none brentq xtol Hb price strike T r market_price
               option_type HS ltac:(lra) HTpos Hsign). reflexivity. }
  split; [exact Hzero|]. split; [exact Hroot|]. split; [exact Hnone|].
  destruct (Req_dec strike 0) as [H0|H0]; [rewrite Hzero by tauto; discriminate|].
  destruct (Req_dec r_percent 0) as [H1|H1]; [rewrite Hzero by tauto; discriminate|].
  destruct (Rle_or_lt (f 1e-6 * f 5.0) 0) as [Hsign|Hsign].
  - destruct (Hroot H0 H1 Hsign) as [iv [-> _]]. discriminate.
  - rewrite (Hnone H0 H1 Hsign). discriminate.
Qed.

Lemma page4_outcomes_witness :
  let T := IZR 30 / 365 in
  let market_price :=
    Rmax (0.01) (Rmax (call_spec 100 100 T (5 / 100) 1e-6)
                      (call_spec 100 100 T (5 / 100) 5.0) + 1) in
  page4_estimate (bisection 2e-12) 100 100 T (5 / 100) market_price "call"
  = StError no_volatility.
Proof.
  intros T market_price.
  destruct (page4_outcomes (bisection 2e-12) 2e-12 100 100 5 market_price 30 "call")
    as [_ [_ [H _]]]; try lra; try lia;
    [apply bisection_keeps_contract; lra|apply Rmax_l|].
  apply H; try lra.
  unfold objective_value. change (String.eqb "call" "call") with true. cbv iota.
  fold T.
  pose proof (Rmax_r (0.01) (Rmax (call_spec 100 100 T (5 / 100) 1e-6)
                                  (call_spec 100 100 T (5 / 100) 5.0) + 1)) as H1.
  pose proof (Rmax_l (call_spec 100 100 T (5 / 100) 1e-6)
                     (call_spec 100 100 T (5 / 100) 5.0)) as H2.
  pose proof (Rmax_r (call_spec 100 100 T (5 / 100) 1e-6)
                     (call_spec 100 100 T (5 / 100) 5.0)) as H3.
  fold market_price in H1.
  replace ((call_spec 100 100 T (5 / 100) 1e-6 - market_price)
           * (call_spec 100 100 T (5 / 100) 5.0 - market_price))
    with ((market_price - call_spec 100 100 T (5 / 100) 1e-6)
          * (market_price - call_spec 100 100 T (5 / 100) 5.0)) by ring.
  apply Rmult_lt_0_compat; lra.
Defined.

(** ** The closed-form price as a function of the volatility *)

(** The standard normal density, the derivative of [Phi]. *)
Definition norm_pdf (x : R) : R := exp (- (x * x) / 2) / sqrt (2 * PI).

(** The derivative of the closed-form price in the volatility. *)
Definition vega_spec (S K T r sigma : R) : R :=
  S * norm_pdf (d1_spec S K T r sigma) * sqrt T.

Lemma norm_pdf_pos (x : R) : 0 < norm_pdf x.
Proof.
  unfold norm_pdf. apply Rdiv_lt_0_compat; [apply exp_pos|].
  apply sqrt_lt_R0. pose proof PI_RGT_0. lra.
Qed.

Lemma vega_spec_pos (S K T r sigma : R) :
  0 < S -> 0 < T -> 0 < vega_spec S K T r sigma.
Proof.
  intros HS HT. unfold vega_spec.
  apply Rmult_lt_0_compat; [apply Rmult_lt_0_compat; [exact HS|apply norm_pdf_pos]|].
  apply sqrt_lt_R0. exact HT.
Qed.

Lemma derivable_pt_lim_d1 (S K T r sigma : R) :
  0 < T -> sigma <> 0 ->
  derivable_pt_lim (d1_spec S K T r) sigma
    (sqrt T - d1_spec S K T r sigma / sigma).
Proof.
  intros HT Hs.
  assert (Hb : 0 < sqrt T) by (apply sqrt_lt_R0; exact HT).
  assert (Hbb : sqrt T * sqrt T = T) by (apply sqrt_sqrt; lra).
  set (f1 := fun s : R => ln (S / K) + (r + 0.5 * s ^ 2) * T).
  set (f2 := fun s : R => s * sqrt T).
  assert (D1 : derivable_pt_lim f1 sigma (sigma * T)).
  { apply (derivable_pt_lim_ext
             (fct_cte (ln (S / K) + r * T) + mult_real_fct (0.5 * T) Rsqr)%F).
    - intros z. unfold f1, plus_fct, fct_cte, mult_real_fct, Rsqr. simpl. lra.
    - replace (sigma * T) with (0 + 0.5 * T * (2 * sigma)) by lra.
      apply derivable_pt_lim_plus; [apply derivable_pt_lim_const|].
      apply derivable_pt_lim_scal. apply derivable_pt_lim_Rsqr. }
  assert (D2 : derivable_pt_lim f2 sigma (sqrt T)).
  { replace (sqrt T) with (1 * sqrt T) at 1 by ring.
    apply (derivable_pt_lim_scal_right id). apply derivable_pt_lim_id. }
  assert (Hne : f2 sigma <> 0).
  { unfold f2. apply Rmult_integral_contrapositive_currified; lra. }
  pose proof (derivable_pt_lim_div f1 f2 sigma _ _ D1 D2 Hne) as D.
  apply (derivable_pt_lim_ext (f1 / f2)%F); [intros z; reflexivity|].
  replace (sqrt T - d1_spec S K T r sigma / sigma)
    with ((sigma * T * f2 sigma - sqrt T * f1 sigma) / Rsqr (f2 sigma)); [exact D|].
  unfold f1, f2, d1_spec, Rsqr.
  rewrite <- Hbb at 1. field. split; lra.
Qed.

Lemma derivable_pt_lim_d2 (S K T r sigma : R) :
  0 < T -> sigma <> 0 ->
  derivable_pt_lim (d2_spec S K T r) sigma (- (d1_spec S K T r sigma / sigma)).
Proof.
  intros HT Hs.
  replace (- (d1_spec S K T r sigma / sigma))
    with ((sqrt T - d1_spec S K T r sigma / sigma) - 1 * sqrt T) by ring.
  apply (derivable_pt_lim_minus (d1_spec S K T r) (fun s => s * sqrt T)).
  - apply derivable_pt_lim_d1; assumption.
  - apply (derivable_pt_lim_scal_right id). apply derivable_pt_lim_id.
Qed.

(** [S * pdf(d1) = K * exp(-rT) * pdf(d2)]: the two density terms of the
    derivative cancel. *)
Lemma norm_pdf_d1_d2 (S K T r sigma : R) :
  0 < S -> 0 < K -> 0 < T -> sigma <> 0 ->
  K * exp (- (r * T)) * norm_pdf (d2_spec S K T r sigma)
  = S * norm_pdf (d1_spec S K T r sigma).
Proof.
  intros HS HK HT Hs.
  assert (Hb : 0 < sqrt T) by (apply sqrt_lt_R0; exact HT).
  assert (Hbb : sqrt T * sqrt T = T) by (apply sqrt_sqrt; lra).
  assert (Hd1 : d1_spec S K T r sigma * (sigma * sqrt T)
                = ln (S / K) + (r + 0.5 * sigma ^ 2) * T).
  { unfold d1_spec. field. split; lra. }
  unfold d2_spec. set (d1 := d1_spec S K T r sigma) in *.
  assert (E : - ((d1 - sigma * sqrt T) * (d1 - sigma * sqrt T)) / 2
              = - (d1 * d1) / 2 + (ln (S / K) + r * T)).
  { replace ((d1 - sigma * sqrt T) * (d1 - sigma * sqrt T))
      with (d1 * d1 - 2 * (d1 * (sigma * sqrt T)) + sigma ^ 2 * (sqrt T * sqrt T)) by ring.
    rewrite Hd1, Hbb. lra. }
  unfold norm_pdf. rewrite E. rewrite !exp_plus.
  rewrite exp_ln by (apply Rdiv_lt_0_compat; assumption).
  rewrite exp_Ropp.
  assert (He : exp (r * T) <> 0) by (pose proof (exp_pos (r * T)); lra).
  assert (Hpi : sqrt (2 * PI) <> 0).
  { pose proof PI_RGT_0. pose proof (sqrt_lt_R0 (2 * PI)). lra. }
  field. repeat split; lra.
Qed.

Lemma derivable_pt_lim_call_spec (S K T r sigma : R) :
  0 < S -> 0 < K -> 0 < T -> sigma <> 0 ->
  derivable_pt_lim (call_spec S K T r) sigma (vega_spec S K T r sigma).
Proof.
  intros HS HK HT Hs.
  pose proof (norm_pdf_d1_d2 S K T r sigma HS HK HT Hs) as Hid.
  set (d1 := d1_spec S K T r sigma) in *.
  set (d2 := d2_spec S K T r sigma) in *.
  replace (vega_spec S K T r sigma)
    with (S * (norm_pdf d1 * (sqrt T - d1 / sigma))
          - K * exp (- (r * T)) * (norm_pdf d2 * (- (d1 / sigma)))).
  - apply (derivable_pt_lim_minus
             (mult_real_fct S (comp Phi (d1_spec S K T r)))
             (mult_real_fct (K * exp (- (r * T))) (comp Phi (d2_spec S K T r)))).
    + apply derivable_pt_lim_scal. apply derivable_pt_lim_comp.
      * apply derivable_pt_lim_d1; assumption.
      * apply derivable_pt_lim_Phi.
    + apply derivable_pt_lim_scal. apply derivable_pt_lim_comp.
      * apply derivable_pt_lim_d2; assumption.
      * apply derivable_pt_lim_Phi.
  - unfold vega_spec. fold d1.
    replace (K * exp (- (r * T)) * (norm_pdf d2 * - (d1 / sigma)))
      with (K * exp (- (r * T)) * norm_pdf d2 * - (d1 / sigma)) by ring.
    rewrite Hid. ring.
Qed.

Lemma call_spec_increasing (S K T r x y : R) :
  0 < S -> 0 < K -> 0 < T -> 0 < x -> x < y ->
  call_spec S K T r x < call_spec S K T r y.
Proof.
  intros HS HK HT Hx Hxy.
  destruct (MVT_cor2 (call_spec S K T r) (vega_spec S K T r) x y Hxy)
    as [c [Hc Hin]].
  - intros c Hc. apply derivable_pt_lim_call_spec; lra.
  - pose proof (vega_spec_pos S K T r c HS HT) as Hv.
    assert (0 < vega_spec S K T r c * (y - x)) by (apply Rmult_lt_0_compat; lra).
    lra.
Qed.

Lemma put_spec_call_spec (S K T r sigma : R) :
  put_spec S K T r sigma = call_spec S K T r sigma - S + K * exp (- (r * T)).
Proof. unfold put_spec, call_spec. rewrite !Phi_symmetry. ring. Qed.

Lemma objective_value_increasing
  (S K T r market_price : R) (option_type : string) (x y : R) :
  0 < S -> 0 < K -> 0 < T -> 0 < x -> x < y ->
  objective_value S K T r market_price option_type x
  < objective_value S K T r market_price option_type y.
Proof.
  intros HS HK HT Hx Hxy. unfold objective_value.
  pose proof (call_spec_increasing S K T r x y HS HK HT Hx Hxy).
  destruct (String.eqb option_type "call"); [lra|].
  rewrite !put_spec_call_spec. lra.
Qed.

(** For S, K, T > 0 the price [black_scholes_price] returns is strictly
    increasing in the volatility on sigma > 0, for calls, puts and every
    other option type alike: its derivative in sigma is
    S * pdf(d1) * sqrt(T) > 0. *)
Theorem price_increases_with_volatility
  (S K T r sigma1 sigma2 : R) (option_type : string) :
  0 < S -> 0 < K -> 0 < T -> 0 < sigma1 -> sigma1 < sigma2 ->
  exists price1 price2 : R,
    black_scholes_price S K T r sigma1 option_type = Ok price1
    /\ black_scholes_price S K T r sigma2 option_type = Ok price2
    /\ price1 < price2.
Proof.
  intros HS HK HT H1 H12.
  rewrite !black_scholes_price_eval by lra.
  do 2 eexists. split; [reflexivity|]. split; [reflexivity|].
  pose proof (objective_value_increasing S K T r 0 option_type sigma1 sigma2
                HS HK HT H1 H12) as H.
  unfold objective_value in H. lra.
Qed.

Lemma price_increases_with_volatility_witness :
  exists price1 price2 : R,
    black_scholes_price 100 100 1 0.05 0.2 "put" = Ok price1
    /\ black_scholes_price 100 100 1 0.05 0.3 "put" = Ok price2
    /\ price1 < price2.
Proof. apply (price_increases_with_volatility 100 100 1 0.05 0.2 0.3 "put"); lra. Defined.

Lemma norm_pdf_le (x : R) : norm_pdf x <= / sqrt (2 * PI).
Proof.
  unfold norm_pdf, Rdiv.
  assert (Hpi : 0 < / sqrt (2 * PI)).
  { apply Rinv_0_lt_compat, sqrt_lt_R0. pose proof PI_RGT_0. lra. }
  assert (He : exp (- (x * x) / 2) <= 1).
  { rewrite <- exp_0.
    assert (Hx : - (x * x) / 2 <= 0) by nra.
    destruct Hx as [Hlt|Heq]; [left; apply exp_increasing; exact Hlt|rewrite Heq; lra]. }
  nra.
Qed.

Lemma vega_spec_le (S K T r sigma : R) :
  0 < S -> 0 < T -> vega_spec S K T r sigma <= S * sqrt T / sqrt (2 * PI).
Proof.
  intros HS HT. unfold vega_spec, Rdiv.
  pose proof (norm_pdf_le (d1_spec S K T r sigma)) as Hle.
  pose proof (sqrt_lt_R0 T HT) as Hb.
  replace (S * sqrt T * / sqrt (2 * PI)) with (S * / sqrt (2 * PI) * sqrt T) by ring.
  apply Rmult_le_compat_r; [lra|].
  apply Rmult_le_compat_l; lra.
Qed.

Lemma call_spec_between (S K T r x y : R) :
  0 < S -> 0 < K -> 0 < T -> 0 < x -> x <= y ->
  0 <= call_spec S K T r y - call_spec S K T r x
    <= S * sqrt T / sqrt (2 * PI) * (y - x).
Proof.
  intros HS HK HT Hx [Hxy| ->].
  - destruct (MVT_cor2 (call_spec S K T r) (vega_spec S K T r) x y Hxy)
      as [c [Hc Hin]].
    + intros c Hc. apply derivable_pt_lim_call_spec; lra.
    + pose proof (vega_spec_pos S K T r c HS HT) as Hv.
      pose proof (vega_spec_le S K T r c HS HT) as Hle.
      rewrite Hc. split; [apply Rmult_le_pos; lra|].
      apply Rmult_le_compat_r; lra.
  - split; [lra|]. replace (y - y) with 0 by ring. lra.
Qed.

Lemma objective_value_lipschitz
  (S K T r market_price : R) (option_type : string) (x y : R) :
  0 < S -> 0 < K -> 0 < T -> 0 < x -> 0 < y ->
  Rabs (objective_value S K T r market_price option_type x
        - objective_value S K T r market_price option_type y)
  <= S * sqrt T / sqrt (2 * PI) * Rabs (x - y).
Proof.
  intros HS HK HT Hx Hy.
  assert (E : objective_value S K T r market_price option_type x
              - objective_value S K T r market_price option_type y
              = call_spec S K T r x - call_spec S K T r y).
  { unfold objective_value. destruct (String.eqb option_type "call"); [lra|].
    rewrite !put_spec_call_spec. lra. }
  rewrite E.
  destruct (Rle_or_lt x y) as [Hxy|Hxy].
  - pose proof (call_spec_between S K T r x y HS HK HT Hx Hxy) as [H1 H2].
    rewrite (Rabs_left1 (call_spec S K T r x - call_spec S K T r y)) by lra.
    rewrite (Rabs_left1 (x - y)) by lra.
    replace (- (x - y)) with (y - x) by ring. lra.
  - pose proof (call_spec_between S K T r y x HS HK HT Hy (Rlt_le _ _ Hxy)) as [H1 H2].
    rewrite (Rabs_right (call_spec S K T r x - call_spec S K T r y)) by lra.
    rewrite (Rabs_right (x - y)) by lra. lra.
Qed.

Lemma implied_volatility_of_bracket_price
  (brentq : (R -> result R) -> R -> R -> result R) (xtol : R)
  (S K T r sigma0 : R) (option_type : string) :
  brentq_contract brentq xtol ->
  0 < S -> 0 < K -> 0 < T -> 1e-6 <= sigma0 <= 5.0 ->
  exists iv : R,
    implied_volatility brentq S K T r
      (if String.eqb option_type "call" then call_spec S K T r sigma0
       else put_spec S K T r sigma0) option_type = Ok (Some iv).
Proof.
  intros Hb HS HK HT Hs0.
  set (market_price := if String.eqb option_type "call" then call_spec S K T r sigma0
                       else put_spec S K T r sigma0).
  set (f := objective_value S K T r market_price option_type).
  assert (Hmono : forall x y, 0 < x -> x < y -> f x < f y).
  { intros x y Hx Hxy. apply objective_value_increasing; assumption. }
  assert (Hf0 : f sigma0 = 0).
  { unfold f, objective_value, market_price. lra. }
  assert (Hlo : f 1e-6 <= 0).
  { destruct (Req_dec 1e-6 sigma0) as [->|Hne]; [lra|].
    pose proof (Hmono 1e-6 sigma0 ltac:(lra) ltac:(lra)). lra. }
  assert (Hhi : 0 <= f 5.0).
  { destruct (Req_dec sigma0 5.0) as [<-|Hne]; [lra|].
    pose proof (Hmono sigma0 5.0 ltac:(lra) ltac:(lra)). lra. }
  assert (Hsign : f 1e-6 * f 5.0 <= 0).
  { replace (f 1e-6 * f 5.0) with (- ((- f 1e-6) * f 5.0)) by ring.
    assert (0 <= (- f 1e-6) * f 5.0) by (apply Rmult_le_pos; lra). lra. }
  destruct (implied_volatility_root brentq xtol Hb S K T r market_price option_type
              HS HK HT Hsign) as [root [z [H1 _]]].
  exists root. exact H1.
Qed.

(** Repricing.  With a [brentq] that keeps its contract for the tolerance
    xtol and S, K, T > 0: a volatility the solver returns lies in the
    bracket [1e-6, 5.0], and the price [black_scholes_price] returns at it
    differs from the market price by at most S * sqrt(T / (2 pi)) * xtol,
    the largest slope of the price in the volatility times the tolerance. *)
Theorem implied_volatility_reprices_market
  (brentq : (R -> result R) -> R -> R -> result R) (xtol : R)
  (S K T r market_price iv : R) (option_type : string) :
  brentq_contract brentq xtol ->
  0 < S -> 0 < K -> 0 < T ->
  implied_volatility brentq S K T r market_price option_type = Ok (Some iv) ->
  1e-6 <= iv <= 5.0
  /\ exists price : R,
       black_scholes_price S K T r iv option_type = Ok price
       /\ Rabs (price - market_price) <= S * sqrt T / sqrt (2 * PI) * xtol.
Proof.
  intros Hb HS HK HT Hiv.
  set (f := objective_value S K T r market_price option_type).
  destruct (Rle_or_lt (f 1e-6 * f 5.0) 0) as [Hsign|Hsign].
  2:{ rewrite (implied_volatility_none brentq xtol Hb S K T r market_price option_type
                 HS HK HT Hsign) in Hiv. discriminate. }
  destruct (implied_volatility_root brentq xtol Hb S K T r market_price option_type
              HS HK HT Hsign) as [root [z [H1 [H2 [H3 [H4 H5]]]]]].
  rewrite H1 in Hiv. injection Hiv as <-.
  split; [exact H2|].
  rewrite black_scholes_price_eval by lra.
  eexists. split; [reflexivity|].
  pose proof (objective_value_lipschitz S K T r market_price option_type root z
                HS HK HT ltac:(lra) ltac:(lra)) as Hl.
  fold f in H4. unfold objective_value in Hl at 2. fold f in Hl.
  change ((if String.eqb option_type "call" then call_spec S K T r z
           else put_spec S K T r z) - market_price) with (f z) in Hl.
  rewrite H4, Rminus_0_r in Hl.
  unfold f, objective_value in Hl.
  assert (Hm : 0 <= S * sqrt T / sqrt (2 * PI)).
  { apply Rmult_le_pos; [apply Rmult_le_pos; [lra|apply sqrt_pos]|].
    left. apply Rinv_0_lt_compat, sqrt_lt_R0. pose proof PI_RGT_0. lra. }
  eapply Rle_trans; [exact Hl|].
  apply Rmult_le_compat_l; assumption.
Qed.

Lemma implied_volatility_reprices_market_witness :
  exists iv price : R,
    implied_volatility (bisection 2e-12) 100 100 1 0.05
      (call_spec 100 100 1 0.05 0.2) "call" = Ok (Some iv)
    /\ 1e-6 <= iv <= 5.0
    /\ black_scholes_price 100 100 1 0.05 iv "call" = Ok price
    /\ Rabs (price - call_spec 100 100 1 0.05 0.2)
       <= 100 * sqrt 1 / sqrt (2 * PI) * 2e-12.
Proof.
  pose proof (bisection_keeps_contract 2e-12 ltac:(lra)) as Hb.
  destruct (implied_volatility_of_bracket_price (bisection 2e-12) 2e-12
              100 100 1 0.05 0.2 "call" Hb
              ltac:(lra) ltac:(lra) ltac:(lra) ltac:(lra)) as [iv Hiv].
  change (String.eqb "call" "call") with true in Hiv. cbv iota in Hiv.
  destruct (implied_volatility_reprices_market (bisection 2e-12) 2e-12
              100 100 1 0.05 (call_spec 100 100 1 0.05 0.2) iv "call" Hb
              ltac:(lra) ltac:(lra) ltac:(lra) Hiv) as [Hin [price [Hp Hclose]]].
  exists iv, price. repeat split; try assumption; lra.
Defined.

(** Which market prices can be inverted.  With a [brentq] that keeps its
    contract and S, K, T > 0, write lo and hi for the prices at the
    volatilities 1e-6 and 5.0 (lo < hi).  The solver returns [None] exactly
    when the market price is below lo or above hi, and a volatility of the
    bracket exactly when it lies in [lo, hi]. *)
Theorem implied_volatility_price_range
  (brentq : (R -> result R) -> R -> R -> result R) (xtol : R)
  (S K T r market_price : R) (option_type : string) :
  brentq_contract brentq xtol ->
  0 < S -> 0 < K -> 0 < T ->
  exists lo hi : R,
    black_scholes_price S K T r 1e-6 option_type = Ok lo
    /\ black_scholes_price S K T r 5.0 option_type = Ok hi
    /\ lo < hi
    /\ (implied_volatility brentq S K T r market_price option_type = Ok None
        <-> market_price < lo \/ hi < market_price)
    /\ ((exists iv, implied_volatility brentq S K T r market_price option_type
                    = Ok (Some iv))
        <-> lo <= market_price <= hi).
Proof.
  intros Hb HS HK HT.
  rewrite !black_scholes_price_eval by lra.
  do 2 eexists. split; [reflexivity|]. split; [reflexivity|].
  set (lo := if String.eqb option_type "call" then call_spec S K T r 1e-6
             else put_spec S K T r 1e-6).
  set (hi := if String.eqb option_type "call" then call_spec S K T r 5.0
             else put_spec S K T r 5.0).
  set (f := objective_value S K T r market_price option_type).
  assert (Hflo : f 1e-6 = lo - market_price) by reflexivity.
  assert (Hfhi : f 5.0 = hi - market_price) by reflexivity.
  assert (Hlohi : lo < hi).
  { pose proof (objective_value_increasing S K T r market_price option_type
                  1e-6 5.0 HS HK HT ltac:(lra) ltac:(lra)) as H.
    fold f in H. lra. }
  assert (Hout : market_price < lo \/ hi < market_price ->
                 implied_volatility brentq S K T r market_price option_type = Ok None).
  { intros Hm.
    apply (implied_volatility_none brentq xtol Hb S K T r market_price option_type
             HS HK HT).
    fold f. rewrite Hflo, Hfhi.
    destruct Hm as [Hm|Hm].
    - apply Rmult_lt_0_compat; lra.
    - replace ((lo - market_price) * (hi - market_price))
        with ((market_price - lo) * (market_price - hi)) by ring.
      apply Rmult_lt_0_compat; lra. }
  assert (Hin : lo <= market_price <= hi ->
                exists iv, implied_volatility brentq S K T r market_price option_type
                           = Ok (Some iv)).
  { intros Hm.
    destruct (implied_volatility_root brentq xtol Hb S K T r market_price option_type
                HS HK HT) as [root [z [H1 _]]].
    - fold f. rewrite Hflo, Hfhi.
      replace ((lo - market_price) * (hi - market_price))
        with (- ((market_price - lo) * (hi - market_price))) by ring.
      assert (0 <= (market_price - lo) * (hi - market_price))
        by (apply Rmult_le_pos; lra).
      lra.
    - exists root. exact H1. }
  split; [exact Hlohi|]. split; split.
  - intros Hnone.
    destruct (Rlt_le_dec market_price lo) as [H1|H1]; [left; exact H1|].
    destruct (Rlt_le_dec hi market_price) as [H2|H2]; [right; exact H2|].
    destruct (Hin (conj H1 H2)) as [iv Hiv]. rewrite Hiv in Hnone. discriminate.
  - exact Hout.
  - intros [iv Hiv].
    destruct (Rlt_le_dec market_price lo) as [H1|H1];
      [rewrite (Hout (or_introl H1)) in Hiv; discriminate|].
    destruct (Rlt_le_dec hi market_price) as [H2|H2];
      [rewrite (Hout (or_intror H2)) in Hiv; discriminate|].
    split; assumption.
  - exact Hin.
Qed.

Lemma implied_volatility_price_range_witness :
  exists lo hi : R,
    black_scholes_price 100 100 1 0.05 1e-6 "put" = Ok lo
    /\ black_scholes_price 100 100 1 0.05 5.0 "put" = Ok hi
    /\ lo < hi
    /\ (implied_volatility (bisection 2e-12) 100 100 1 0.05 10 "put" = Ok None
        <-> 10 < lo \/ hi < 10)
    /\ ((exists iv, implied_volatility (bisection 2e-12) 100 100 1 0.05 10 "put"
                    = Ok (Some iv))
        <-> lo <= 10 <= hi).
Proof.
  apply (implied_volatility_price_range (bisection 2e-12) 2e-12 100 100 1 0.05 10 "put");
    try lra.
  apply bisection_keeps_contract; lra.
Defined.

(** ** The chart tables *)

(** The two-step lookup behind the chart
    ([display_to_yf[chart_range_display]], then [range_to_interval[yf_range]])
    raises no [KeyError] exactly on the options of the select box, and the
    history is cut to trading hours exactly for the options ["1D"] and
    ["5D"]. *)
Theorem chart_lookup_never_fails (chart_range_display : string) :
  (In chart_range_display chart_range_options <->
   exists yf_range interval,
     chart_request chart_range_display = Some (yf_range, interval))
  /\ (forall yf_range interval,
        chart_request chart_range_display = Some (yf_range, interval) ->
        (intraday yf_range = true <->
         chart_range_display = "1D"%string \/ chart_range_display = "5D"%string)).
Proof.
  unfold chart_request, display_to_yf, chart_range_options. cbn [dict_get In].
  destruct (String.eqb_spec chart_range_display "1D") as [->|H1].
  { split; [split; [intros _; do 2 eexists; reflexivity|intros _; tauto]|].
    intros y i H. injection H as <- <-. split; [intros _; left; reflexivity|reflexivity]. }
  destruct (String.eqb_spec chart_range_display "5D") as [->|H2].
  { split; [split; [intros _; do 2 eexists; reflexivity|intros _; tauto]|].
    intros y i H. injection H as <- <-. split; [intros _; right; reflexivity|reflexivity]. }
  assert (Hno : chart_range_display = "1D"%string \/ chart_range_display = "5D"%string
                -> False) by (intros [?|?]; contradiction).
  destruct (String.eqb_spec chart_range_display "1M") as [->|H3].
  { split; [split; [intros _; do 2 eexists; reflexivity|intros _; tauto]|].
    intros y i H. injection H as <- <-. split; [discriminate|intros Hc; destruct (Hno Hc)]. }
  destruct (String.eqb_spec chart_range_display "6M") as [->|H4].
  { split; [split; [intros _; do 2 eexists; reflexivity|intros _; tauto]|].
    intros y i H. injection H as <- <-. split; [discriminate|intros Hc; destruct (Hno Hc)]. }
  destruct (String.eqb_spec chart_range_display "YTD") as [->|H5].
  { split; [split; [intros _; do 2 eexists; reflexivity|intros _; tauto]|].
    intros y i H. injection H as <- <-. split; [discriminate|intros Hc; destruct (Hno Hc)]. }
  destruct (String.eqb_spec chart_range_display "1Y") as [->|H6].
  { split; [split; [intros _; do 2 eexists; reflexivity|intros _; tauto]|].
    intros y i H. injection H as <- <-. split; [discriminate|intros Hc; destruct (Hno Hc)]. }
  destruct (String.eqb_spec chart_range_display "5Y") as [->|H7].
  { split; [split; [intros _; do 2 eexists; reflexivity|intros _; tauto]|].
    intros y i H. injection H as <- <-. split; [discriminate|intros Hc; destruct (Hno Hc)]. }
  destruct (String.eqb_spec chart_range_display "Max") as [->|H8].
  { split; [split; [intros _; do 2 eexists; reflexivity|intros _; tauto]|].
    intros y i H. injection H as <- <-. split; [discriminate|intros Hc; destruct (Hno Hc)]. }
  split; [|intros y i H; discriminate].
  split.
  - intros [H|[H|[H|[H|[H|[H|[H|[H|[]]]]]]]]]; symmetry in H; contradiction.
  - intros [y [i H]]. discriminate.
Qed.
